(** * BusTub storage core: extendible hash directory, LRU-K replacer and
      buffer pool manager, as a shallow embedding with their properties.

    Sources embedded:
    - [src/container/hash/extendible_hash_table.cpp]  (module [Directory])
    - [src/buffer/lru_k_replacer.cpp]                 (module [Replacer])
    - [src/buffer/buffer_pool_manager_instance.cpp]   (module [Pool])

    Conventions.  [frame_id_t] and [page_id_t] are C++ [int32_t]; they are
    carried as [Z].  [size_t] counters that the code decrements or lets run
    ([curr_size_], [current_timestamp_]) are [Z] with the 64-bit wrap-around
    written out ([wrap64]).  Containers used as maps are [gmap]s, arrays are
    lists read with [!!] and written with [<[ _ := _ ]>]. *)

From Stdlib Require Import ZArith NArith Lia Bool.
From stdpp Require Import base numbers option list sorting gmap fin_maps.

Open Scope Z_scope.

(** 64-bit unsigned wrap-around of [size_t] arithmetic. *)
Definition wrap64 (x : Z) : Z := x mod 2 ^ 64.

(* ===================================================================== *)
(** * Part I. The model                                                   *)
(* ===================================================================== *)

(** ** LRU-K replacer ([lru_k_replacer.cpp]) *)

Module Replacer.

(** Modelled from the spec: the header that declares the per-frame record is
    not among the sources.  The code reads two members of it, the timestamp
    queue [time_sequence_] (oldest at the front) and the flag [evictable_];
    a record created by [frame_infos_[id]] starts with an empty queue and is
    not evictable (the cached count [curr_size_] is untouched by
    [RecordAccess], so a fresh record cannot count as evictable). *)
Record FrameInfo : Type := mkFrameInfo {
  time_sequence_ : list Z;
  evictable_ : bool
}.

Definition fresh_info : FrameInfo :=
  {| time_sequence_ := []; evictable_ := false |}.

Record LRUKReplacer : Type := mkReplacer {
  frame_infos_ : gmap Z FrameInfo;
  current_timestamp_ : Z;
  curr_size_ : Z;
  replacer_size_ : Z;
  k_ : Z
}.

(** [LRUKReplacer::LRUKReplacer(num_frames, k)]; the member initialisers of
    the header start the two counters at zero. *)
Definition new_replacer (num_frames k : Z) : LRUKReplacer :=
  {| frame_infos_ := ∅; current_timestamp_ := 0; curr_size_ := 0;
     replacer_size_ := num_frames; k_ := k |}.

(** [frame_infos_[a]] on the read side. *)
Definition info_of (m : gmap Z FrameInfo) (a : Z) : FrameInfo :=
  default fresh_info (m !! a).

Definition seq_size (fi : FrameInfo) : Z := Z.of_nat (length (time_sequence_ fi)).

(** [time_sequence_.front()]; the queue is not empty where the code asks. *)
Definition seq_front (fi : FrameInfo) : Z := hd 0 (time_sequence_ fi).

(** The comparison lambda of [Evict], on the two records. *)
Definition cmp_info (k : Z) (a b : FrameInfo) : bool :=
  if (seq_size a <? k) && (seq_size b =? k) then true
  else if (seq_size b <? k) && (seq_size a =? k) then false
  else seq_front a <? seq_front b.

Definition cmp (r : LRUKReplacer) (a b : Z) : bool :=
  cmp_info (k_ r) (info_of (frame_infos_ r) a) (info_of (frame_infos_ r) b).

(** One turn of the [for (const auto &kv : frame_infos_)] loop of [Evict];
    [fid] is the running [*frame_id]. *)
Definition evict_visit (r : LRUKReplacer) (fid : Z) (kv : Z * FrameInfo) : Z :=
  if evictable_ kv.2
  then if (fid =? -1) || cmp r kv.1 fid then kv.1 else fid
  else fid.

Definition evict_scan (r : LRUKReplacer) (kvs : list (Z * FrameInfo)) (fid : Z) : Z :=
  fold_left (evict_visit r) kvs fid.

(** [LRUKReplacer::Evict]: [None] is the [false] return.  [map_to_list]
    fixes one order of iteration over the records; what is proved of the
    scan ([ReplacerFacts.evict_scan_inv]) holds in any order. *)
Definition Evict (r : LRUKReplacer) : option Z * LRUKReplacer :=
  let fid := evict_scan r (map_to_list (frame_infos_ r)) (-1) in
  if fid =? -1 then (None, r)
  else (Some fid,
        {| frame_infos_ := delete fid (frame_infos_ r);
           current_timestamp_ := current_timestamp_ r;
           curr_size_ := wrap64 (curr_size_ r - 1);
           replacer_size_ := replacer_size_ r;
           k_ := k_ r |}).

(** [LRUKReplacer::RecordAccess]. *)
Definition RecordAccess (r : LRUKReplacer) (frame_id : Z) : LRUKReplacer :=
  if bool_decide (frame_infos_ r !! frame_id = None)
     && (replacer_size_ r =? Z.of_nat (size (frame_infos_ r)))
  then r
  else
    let fi := info_of (frame_infos_ r) frame_id in
    let q := if seq_size fi =? k_ r then tail (time_sequence_ fi)
             else time_sequence_ fi in
    {| frame_infos_ :=
         <[frame_id := {| time_sequence_ := q ++ [current_timestamp_ r];
                          evictable_ := evictable_ fi |}]> (frame_infos_ r);
       current_timestamp_ := wrap64 (current_timestamp_ r + 1);
       curr_size_ := curr_size_ r;
       replacer_size_ := replacer_size_ r;
       k_ := k_ r |}.

(** [LRUKReplacer::SetEvictable]. *)
Definition SetEvictable (r : LRUKReplacer) (frame_id : Z) (set_evictable : bool)
  : LRUKReplacer :=
  match frame_infos_ r !! frame_id with
  | None => r
  | Some fi =>
      let flag := evictable_ fi in
      {| frame_infos_ :=
           <[frame_id := {| time_sequence_ := time_sequence_ fi;
                            evictable_ := set_evictable |}]> (frame_infos_ r);
         current_timestamp_ := current_timestamp_ r;
         curr_size_ :=
           if negb flag && set_evictable then wrap64 (curr_size_ r + 1)
           else if flag && negb set_evictable then wrap64 (curr_size_ r - 1)
           else curr_size_ r;
         replacer_size_ := replacer_size_ r;
         k_ := k_ r |}
  end.

(** [LRUKReplacer::Remove]: [None] is the [throw]. *)
Definition Remove (r : LRUKReplacer) (frame_id : Z) : option LRUKReplacer :=
  match frame_infos_ r !! frame_id with
  | None => Some r
  | Some fi =>
      if negb (evictable_ fi) then None
      else Some {| frame_infos_ := delete frame_id (frame_infos_ r);
                   current_timestamp_ := current_timestamp_ r;
                   curr_size_ := wrap64 (curr_size_ r - 1);
                   replacer_size_ := replacer_size_ r;
                   k_ := k_ r |}
  end.

(** [LRUKReplacer::Size]. *)
Definition Size (r : LRUKReplacer) : Z := curr_size_ r.

(** Frame [f] has a record whose flag is set. *)
Definition is_evictable (r : LRUKReplacer) (f : Z) : bool :=
  match frame_infos_ r !! f with
  | Some fi => evictable_ fi
  | None => false
  end.

Definition tracked (r : LRUKReplacer) (f : Z) : Prop :=
  is_Some (frame_infos_ r !! f).

(** The records a replacer can hold: a frame id is never the sentinel [-1]
    of [Evict], a history is not empty and has at most [k] entries. *)
Definition wf_infos (r : LRUKReplacer) : Prop :=
  ∀ f fi, frame_infos_ r !! f = Some fi →
    f ≠ -1 ∧ 0 < seq_size fi ≤ k_ r.

(** The cached count: [curr_size_] is the number of evictable records, and
    the table never outgrows [replacer_size_]. *)
Definition evictable_count (m : gmap Z FrameInfo) : nat :=
  size (filter (λ kv, evictable_ kv.2 = true) m).

Definition count_inv (r : LRUKReplacer) : Prop :=
  curr_size_ r = Z.of_nat (evictable_count (frame_infos_ r))
  ∧ Z.of_nat (size (frame_infos_ r)) ≤ replacer_size_ r < 2 ^ 64.

(** The order [Evict] minimises: fewer than [k] accesses first, then the
    older front timestamp. *)
Definition victim_le (k : Z) (a b : FrameInfo) : Prop :=
  (seq_size a < k ∧ seq_size b = k)
  ∨ ((seq_size a < k ↔ seq_size b < k) ∧ seq_front a ≤ seq_front b).

(** What the running [*frame_id] is worth after the records [seen]. *)
Definition scan_inv (r : LRUKReplacer) (seen : list (Z * FrameInfo)) (fid : Z) : Prop :=
  (fid = -1 ∧ ∀ g gi, (g, gi) ∈ seen → evictable_ gi = false)
  ∨ (fid ≠ -1 ∧ ∃ fi, frame_infos_ r !! fid = Some fi ∧ evictable_ fi = true
       ∧ ∀ g gi, (g, gi) ∈ seen → evictable_ gi = true → victim_le (k_ r) fi gi).

(** The weight of a record in the cached count. *)
Definition flag_weight (b : bool) : nat := if b then 1%nat else 0%nat.

(** Scenario S1 of the specification: access then mark evictable. *)
Definition touch (r : LRUKReplacer) (f : Z) : LRUKReplacer :=
  SetEvictable (RecordAccess r f) f true.

Definition s1_state : LRUKReplacer :=
  fold_left touch [1; 2; 3; 4; 5; 6; 1; 2; 3; 4; 5; 6; 1] (new_replacer 7 2).

(** [n] successive calls of [Evict], collecting what each returns. *)
Fixpoint evict_many (n : nat) (r : LRUKReplacer) : list (option Z) * LRUKReplacer :=
  match n with
  | O => ([], r)
  | S n' =>
      let '(o, r') := Evict r in
      let '(os, r'') := evict_many n' r' in
      (o :: os, r'')
  end.

(** *** The replacer on its own *)

(** The calls a client of the replacer can make. *)
Inductive request : Type :=
| ReqRecordAccess (frame_id : Z)
| ReqSetEvictable (frame_id : Z) (set_evictable : bool)
| ReqEvict
| ReqRemove (frame_id : Z).

(** The state a call leaves; the [throw] of [Remove] comes before any
    write, so it leaves the state it found. *)
Definition serve (r : LRUKReplacer) (q : request) : LRUKReplacer :=
  match q with
  | ReqRecordAccess f => RecordAccess r f
  | ReqSetEvictable f b => SetEvictable r f b
  | ReqEvict => (Evict r).2
  | ReqRemove f => default r (Remove r f)
  end.

Inductive served (num_frames k : Z) : LRUKReplacer → Prop :=
| served_new : served num_frames k (new_replacer num_frames k)
| served_call r q : served num_frames k r → served num_frames k (serve r q).

(** The timestamps: every history is strictly increasing and lies below the
    counter, and no timestamp is in the histories of two frames. *)
Definition fresh_inv (r : LRUKReplacer) : Prop :=
  0 ≤ current_timestamp_ r
  ∧ (∀ f fi, frame_infos_ r !! f = Some fi →
       StronglySorted Z.lt (time_sequence_ fi)
       ∧ Forall (λ t, 0 ≤ t < current_timestamp_ r) (time_sequence_ fi))
  ∧ (∀ f g fi gi t, frame_infos_ r !! f = Some fi → frame_infos_ r !! g = Some gi →
       t ∈ time_sequence_ fi → t ∈ time_sequence_ gi → f = g).


End Replacer.

(** ** Extendible hash table ([extendible_hash_table.cpp]) *)

Module Directory.

Section Table.
Context {K : Type} `{EqDecision K} {V : Type}.

(** [std::hash<K>()(key)], a [size_t]. *)
Variable hash : K → N.
(** [bucket_size_], handed to every bucket as its [size_]. *)
Variable bucket_size : nat.

(** A bucket: its local depth and its [std::list] of pairs. *)
Record Bucket : Type := mkBucket {
  depth_ : nat;
  list_ : list (K * V)
}.

(** The table.  The directory holds [shared_ptr]s and several slots may
    hold the same one: the buckets live in [store_], in order of
    allocation, and a slot of [dir_] is an index into it. *)
Record Table : Type := mkTable {
  global_depth_ : nat;
  num_buckets_ : nat;
  dir_ : list nat;
  store_ : list Bucket
}.

(** [ExtendibleHashTable(bucket_size)]. *)
Definition new_table : Table :=
  {| global_depth_ := 0; num_buckets_ := 1; dir_ := [0%nat];
     store_ := [ {| depth_ := 0; list_ := [] |} ] |}.

(** The [d] low bits set: the value of [(1 << d) - 1] where C++ defines
    it. *)
Definition ones (d : nat) : N := (N.shiftl 1 (N.of_nat d) - 1)%N.

(** [(1 << d) - 1], computed in an [int] of 32 bits: [1 << d] is in range
    for [d ≤ 30]; from [d = 31] on the shift, or the subtraction that
    follows it, overflows, which C++ leaves undefined ([None]). *)
Definition mask (d : nat) : option N :=
  if (d <? 31)%nat then Some (ones d) else None.

(** [x & ((1 << d) - 1)] where the mask is defined: the low [d] bits of
    [x]. *)
Definition low_bits (x : N) (d : nat) : N := N.land x (ones d).

(** [IndexOf]; [None] where the shift is undefined. *)
Definition IndexOf (t : Table) (key : K) : option nat :=
  m ← mask (global_depth_ t); Some (N.to_nat (N.land (hash key) m)).

(** The index of [key] at the global depth of [t]: the value of [IndexOf]
    where it is defined. *)
Definition slot (t : Table) (key : K) : nat :=
  N.to_nat (low_bits (hash key) (global_depth_ t)).

(** [Bucket::Find]. *)
Fixpoint bucket_find (l : list (K * V)) (key : K) : option V :=
  match l with
  | [] => None
  | (k, v) :: l' => if decide (k = key) then Some v else bucket_find l' key
  end.

(** [Bucket::Remove]: the first pair under [key] goes. *)
Fixpoint bucket_remove (l : list (K * V)) (key : K) : bool * list (K * V) :=
  match l with
  | [] => (false, [])
  | (k, v) :: l' =>
      if decide (k = key) then (true, l')
      else let '(found, r) := bucket_remove l' key in (found, (k, v) :: r)
  end.

(** The first loop of [Bucket::Insert]: overwrite in place. *)
Fixpoint bucket_update (l : list (K * V)) (key : K) (value : V)
  : option (list (K * V)) :=
  match l with
  | [] => None
  | (k, v) :: l' =>
      if decide (k = key) then Some ((k, value) :: l')
      else cons (k, v) <$> bucket_update l' key value
  end.

(** Modelled from the spec: [Bucket::IsFull] is declared in the header,
    which is not among the sources; a bucket is bounded by the configured
    capacity and takes a new pair only while it "has capacity". *)
Definition IsFull (l : list (K * V)) : bool := (bucket_size <=? length l)%nat.

(** [Bucket::Insert]. *)
Definition bucket_insert (l : list (K * V)) (key : K) (value : V)
  : bool * list (K * V) :=
  match bucket_update l key value with
  | Some l' => (true, l')
  | None => if IsFull l then (false, l) else (true, l ++ [(key, value)])
  end.

Definition with_store (t : Table) (st : list Bucket) : Table :=
  {| global_depth_ := global_depth_ t; num_buckets_ := num_buckets_ t;
     dir_ := dir_ t; store_ := st |}.

(** [dir_[i]] dereferenced: the pointer and the bucket behind it. *)
Definition bucket_at (t : Table) (i : nat) : option (nat * Bucket) :=
  p ← dir_ t !! i; b ← store_ t !! p; Some (p, b).

(** [ExtendibleHashTable::Find]; [None] is the [false] return (and stands
    for the undefined index of a table deeper than 30, which no sequence
    of calls produces: [DirectoryFacts.reachable_Inv]). *)
Definition Find (t : Table) (key : K) : option V :=
  dir_index ← IndexOf t key;
  '(_, b) ← bucket_at t dir_index; bucket_find (list_ b) key.

(** [ExtendibleHashTable::Remove]. *)
Definition Remove (t : Table) (key : K) : bool * Table :=
  match IndexOf t key ≫= bucket_at t with
  | Some (p, b) =>
      let '(found, l') := bucket_remove (list_ b) key in
      (found, with_store t (<[p := {| depth_ := depth_ b; list_ := l' |}]> (store_ t)))
  | None => (false, t)
  end.

(** The item loop of [RedistributeBucket]: a pair whose hash under the new
    mask is not [old_hash_value] is handed to [new_bucket->Insert] and
    erased; [nb] is the list of the new bucket. *)
Fixpoint split_items (curr_mask old_hash_value : N)
    (items : list (K * V)) (nb : list (K * V)) : list (K * V) * list (K * V) :=
  match items with
  | [] => ([], nb)
  | (k, v) :: rest =>
      if (N.land (hash k) curr_mask =? old_hash_value)%N
      then let '(kept, nb') := split_items curr_mask old_hash_value rest nb in
           ((k, v) :: kept, nb')
      else split_items curr_mask old_hash_value rest (bucket_insert nb k v).2
  end.

(** The test of the directory loop of [RedistributeBucket]. *)
Definition moves_slot (old_mask curr_mask old_hash_value : N) (i : nat) : bool :=
  (N.land (N.of_nat i) old_mask =? old_hash_value)%N
  && negb (N.land (N.of_nat i) curr_mask =? old_hash_value)%N.

(** [RedistributeBucket(bucket)], [p] being the pointer; [None] stands for
    a shift that is undefined (by a negative count, or out of the [int])
    and for [lists.front()] taken of an empty list. *)
Definition RedistributeBucket (t : Table) (p : nat) : option Table :=
  b ← store_ t !! p;
  let bucket_depth := depth_ b in
  let new_p := length (store_ t) in
  old_mask ← match bucket_depth with O => None | S d => mask d end;
  curr_mask ← mask bucket_depth;
  match list_ b with
  | [] => None
  | (k0, _) :: _ =>
      let old_hash_value := N.land (hash k0) old_mask in
      let '(kept, moved) := split_items curr_mask old_hash_value (list_ b) [] in
      Some {| global_depth_ := global_depth_ t;
              num_buckets_ := S (num_buckets_ t);
              dir_ := imap (λ i q, if moves_slot old_mask curr_mask old_hash_value i
                                   then new_p else q) (dir_ t);
              store_ := <[p := {| depth_ := bucket_depth; list_ := kept |}]> (store_ t)
                        ++ [ {| depth_ := bucket_depth; list_ := moved |} ] |}
  end.

(** One turn of the [while (true)] loop of [Insert]. *)
Inductive turn : Type :=
| Done (t : Table)       (* [break] *)
| Again (t : Table)      (* next iteration *)
| Stuck.                 (* an access the C++ leaves undefined *)

Definition Insert_turn (t : Table) (key : K) (value : V) : turn :=
  match IndexOf t key ≫= bucket_at t with
  | None => Stuck
  | Some (p, b) =>
      let '(ok, l') := bucket_insert (list_ b) key value in
      if ok
      then Done (with_store t (<[p := {| depth_ := depth_ b; list_ := l' |}]> (store_ t)))
      else if (depth_ b =? global_depth_ t)%nat
      then Again {| global_depth_ := S (global_depth_ t);
                    num_buckets_ := num_buckets_ t;
                    dir_ := dir_ t ++ dir_ t;
                    store_ := store_ t |}
      else
        match RedistributeBucket
                (with_store t (<[p := {| depth_ := S (depth_ b); list_ := list_ b |}]>
                                 (store_ t))) p with
        | Some t' => Again t'
        | None => Stuck
        end
  end.

(** [ExtendibleHashTable::Insert], the loop run for at most [fuel] turns. *)
Fixpoint Insert (fuel : nat) (t : Table) (key : K) (value : V) : option Table :=
  match fuel with
  | O => None
  | S fuel' =>
      match Insert_turn t key value with
      | Done t' => Some t'
      | Again t' => Insert fuel' t' key value
      | Stuck => None
      end
  end.

(** [Insert] called for every pair of a list, in order. *)
Fixpoint Insert_all (fuel : nat) (t : Table) (kvs : list (K * V)) : option Table :=
  match kvs with
  | [] => Some t
  | (k, v) :: rest => t' ← Insert fuel t k v; Insert_all fuel t' rest
  end.

(** The tables the loop of [Insert] goes through, from [t] on. *)
Inductive passes (t : Table) (key : K) (value : V) : Table → Prop :=
| passes_first : passes t key value t
| passes_next t1 t2 :
    passes t key value t1 → Insert_turn t1 key value = Again t2 →
    passes t key value t2.

(** *** The shape of a table *)

(** Bucket [b], stored at [p], owns exactly the slots whose low
    [depth_ b] bits are [r], and holds only keys hashing to [r]. *)
Record bucket_ok (t : Table) (p : nat) (b : Bucket) (r : N) : Prop := {
  ok_depth : (depth_ b ≤ global_depth_ t)%nat;
  ok_residue : (r < 2 ^ N.of_nat (depth_ b))%N;
  ok_slots : ∀ i, (i < length (dir_ t))%nat →
               dir_ t !! i = Some p ↔ low_bits (N.of_nat i) (depth_ b) = r;
  ok_keys : ∀ k v, (k, v) ∈ list_ b → low_bits (hash k) (depth_ b) = r;
  ok_nodup : NoDup (list_ b).*1;
  ok_length : (length (list_ b) ≤ bucket_size)%nat
}.

Record Inv (t : Table) : Prop := {
  inv_length : length (dir_ t) = (2 ^ global_depth_ t)%nat;
  inv_dir : ∀ i p, dir_ t !! i = Some p → (p < length (store_ t))%nat;
  inv_buckets : ∀ p b, store_ t !! p = Some b → ∃ r, bucket_ok t p b r;
  inv_count : num_buckets_ t = length (store_ t);
  inv_depth : (global_depth_ t ≤ 30)%nat
}.

(** The tables a client can see: built by the constructor and changed by
    [Insert] (when it returns) and [Remove]; [Find] changes nothing. *)
Inductive reachable : Table → Prop :=
| reach_new : reachable new_table
| reach_insert t fuel key value t' :
    reachable t → Insert fuel t key value = Some t' → reachable t'
| reach_remove t key :
    reachable t → reachable (Remove t key).2.

(** The statement of the directory invariant of the specification. *)
Definition directory_shape (t : Table) : Prop :=
  length (dir_ t) = (2 ^ global_depth_ t)%nat
  ∧ ∀ p b, store_ t !! p = Some b →
      (depth_ b ≤ global_depth_ t)%nat
      ∧ ∀ i j, dir_ t !! i = Some p → dir_ t !! j = Some p →
          low_bits (N.of_nat i) (depth_ b) = low_bits (N.of_nat j) (depth_ b).

(** The local depth of the bucket [key] is sent to, and its load. *)
Definition target_depth (t : Table) (key : K) : nat :=
  match bucket_at t (slot t key) with
  | Some (_, b) => depth_ b
  | None => 0%nat
  end.

Definition target_pointer (t : Table) (key : K) : nat :=
  default 0%nat (dir_ t !! slot t key).

Definition load (t : Table) (p : nat) : nat :=
  match store_ t !! p with
  | Some b => length (list_ b)
  | None => 0%nat
  end.

(** The hash tells [key] apart from every stored key within its low [W]
    bits. *)
Definition separated (W : nat) (t : Table) (key : K) : Prop :=
  ∀ p b k v, store_ t !! p = Some b → (k, v) ∈ list_ b →
    low_bits (hash k) W = low_bits (hash key) W → k = key.

(** The bucket that [key] is sent to is full of other keys that the hash
    does not tell from [key] within its low 30 bits. *)
Definition crowded (t : Table) (key : K) : Prop :=
  ∃ p b, dir_ t !! slot t key = Some p ∧ store_ t !! p = Some b
    ∧ (key ∉ (list_ b).*1) ∧ (bucket_size ≤ length (list_ b))%nat
    ∧ ∀ k v, (k, v) ∈ list_ b → low_bits (hash k) 30 = low_bits (hash key) 30.

(** *** The tables a turn of the loop can produce *)

(** Directory doubling. *)
Definition doubled (t : Table) : Table :=
  {| global_depth_ := S (global_depth_ t); num_buckets_ := num_buckets_ t;
     dir_ := dir_ t ++ dir_ t; store_ := store_ t |}.

(** Bucket split. *)

Definition stays (d : nat) (r : N) (kv : K * V) : Prop :=
  low_bits (hash kv.1) d = r.

#[export] Instance stays_dec d r kv : Decision (stays d r kv).
Proof. unfold stays. apply _. Defined.

Definition split_table (t : Table) (p : nat) (b : Bucket) (r : N) : Table :=
  {| global_depth_ := global_depth_ t;
     num_buckets_ := S (num_buckets_ t);
     dir_ := imap (λ i q, if moves_slot (ones (depth_ b)) (ones (S (depth_ b))) r i
                          then length (store_ t) else q) (dir_ t);
     store_ := <[p := {| depth_ := S (depth_ b);
                         list_ := filter (stays (S (depth_ b)) r) (list_ b) |}]>
                 (store_ t)
               ++ [ {| depth_ := S (depth_ b);
                       list_ := filter (λ kv, ¬ stays (S (depth_ b)) r kv) (list_ b) |} ] |}.

(** The three things a turn of the loop does, with what is known of
    the bucket the key is sent to. *)
Inductive turn_case (t : Table) (key : K) (value : V) : turn → Prop :=
| turn_done p b r l' :
    dir_ t !! slot t key = Some p → store_ t !! p = Some b →
    bucket_ok t p b r →
    bucket_insert (list_ b) key value = (true, l') →
    turn_case t key value
      (Done (with_store t (<[p := {| depth_ := depth_ b; list_ := l' |}]> (store_ t))))
| turn_double p b r :
    dir_ t !! slot t key = Some p → store_ t !! p = Some b →
    bucket_ok t p b r →
    (key ∉ (list_ b).*1) → (bucket_size ≤ length (list_ b))%nat →
    depth_ b = global_depth_ t →
    turn_case t key value (Again (doubled t))
| turn_split p b r :
    dir_ t !! slot t key = Some p → store_ t !! p = Some b →
    bucket_ok t p b r →
    (key ∉ (list_ b).*1) → (bucket_size ≤ length (list_ b))%nat →
    (depth_ b < global_depth_ t)%nat →
    turn_case t key value (Again (split_table t p b r)).

(** What a turn that goes round again has gained. *)
Definition progress (t t' : Table) (key : K) : Prop :=
  (global_depth_ t' = S (global_depth_ t)
   ∧ target_depth t' key = target_depth t key
   ∧ store_ t' = store_ t)
  ∨ (global_depth_ t' = global_depth_ t
     ∧ target_depth t' key = S (target_depth t key)
     ∧ (load t' (target_pointer t key) ≤ load t (target_pointer t key))%nat
     ∧ (load t' (target_pointer t' key) ≤ load t (target_pointer t key))%nat).

End Table.

Arguments Bucket : clear implicits.
Arguments Table : clear implicits.
Arguments turn : clear implicits.
Arguments new_table {K V}.

(** Keys that are their own hash, as [std::hash] of an unsigned integer. *)
Definition id_hash (k : N) : N := k.

(** Scenario S2 of the specification: capacity 2, hashes 0b00, 0b01, 0b10. *)
Definition s2_table : option (Table N N) :=
  t1 ← Insert id_hash 2 8 new_table 0%N 100%N;
  t2 ← Insert id_hash 2 8 t1 1%N 101%N;
  Insert id_hash 2 8 t2 2%N 102%N.

(** Two keys whose hashes agree on their two low bits, in a table of
    capacity 2, and the two tables the loop of [Insert] goes through when a
    third such key arrives. *)
Definition two_keys : Table N N :=
  {| global_depth_ := 0; num_buckets_ := 1; dir_ := [0%nat];
     store_ := [ {| depth_ := 0; list_ := [(0, 100); (4, 104)]%N |} ] |}.

Definition two_keys_doubled : Table N N :=
  {| global_depth_ := 1; num_buckets_ := 1; dir_ := [0; 0]%nat;
     store_ := [ {| depth_ := 0; list_ := [(0, 100); (4, 104)]%N |} ] |}.

Definition two_keys_split : Table N N :=
  {| global_depth_ := 1; num_buckets_ := 2; dir_ := [0; 1]%nat;
     store_ := [ {| depth_ := 1; list_ := [(0, 100); (4, 104)]%N |};
                 {| depth_ := 1; list_ := [] |} ] |}.

(** Capacity 1 and key 0. *)
Definition one_key : Table N N :=
  {| global_depth_ := 0; num_buckets_ := 1; dir_ := [0%nat];
     store_ := [ {| depth_ := 0; list_ := [(0, 100)]%N |} ] |}.

(** A table that has grown: capacity 2, the keys 0, 1, 2, 4, 3 inserted in
    this order.  The directory has doubled twice and a bucket has been
    split each time; bucket 1 is of local depth 1, holds two keys and has
    two slots. *)
Definition grown_keys : list (N * N) :=
  [(0, 100); (1, 101); (2, 102); (4, 104); (3, 103)]%N.

Definition grown_table : Table N N :=
  {| global_depth_ := 2; num_buckets_ := 3; dir_ := [0; 1; 2; 1]%nat;
     store_ := [ {| depth_ := 2; list_ := [(0, 100); (4, 104)]%N |};
                 {| depth_ := 1; list_ := [(1, 101); (3, 103)]%N |};
                 {| depth_ := 2; list_ := [(2, 102)]%N |} ] |}.

(** The table the first turn of [Insert] of key 5 hands to the second:
    bucket 1 has been split. *)
Definition grown_table_split : Table N N :=
  {| global_depth_ := 2; num_buckets_ := 4; dir_ := [0; 1; 2; 3]%nat;
     store_ := [ {| depth_ := 2; list_ := [(0, 100); (4, 104)]%N |};
                 {| depth_ := 2; list_ := [(1, 101)]%N |};
                 {| depth_ := 2; list_ := [(2, 102)]%N |};
                 {| depth_ := 2; list_ := [(3, 103)]%N |} ] |}.

(** *** The getters, and what a table stores *)

(** [GetGlobalDepth], [GetNumBuckets]. *)
Definition GetGlobalDepth {K V : Type} (t : Table K V) : nat := global_depth_ t.
Definition GetNumBuckets {K V : Type} (t : Table K V) : nat := num_buckets_ t.

(** [GetLocalDepth(dir_index)]: [dir_[dir_index]->GetDepth()]; an index
    outside the directory is not defined in C++. *)
Definition GetLocalDepth {K V : Type} (t : Table K V) (dir_index : nat) : option nat :=
  '(_, b) ← bucket_at t dir_index; Some (depth_ b).

(** The pair [(k, v)] is in some bucket of the table. *)
Definition stored {K V : Type} (t : Table K V) (k : K) (v : V) : Prop :=
  ∃ p b, store_ t !! p = Some b ∧ (k, v) ∈ list_ b.

(** [t'] has grown out of [t]: nothing has shrunk and every bucket is where
    it was, at least as deep. *)
Definition grown {K V : Type} (t t' : Table K V) : Prop :=
  (global_depth_ t ≤ global_depth_ t')%nat
  ∧ (num_buckets_ t ≤ num_buckets_ t')%nat
  ∧ (length (dir_ t) ≤ length (dir_ t'))%nat
  ∧ ∀ p b, store_ t !! p = Some b →
      ∃ b', store_ t' !! p = Some b' ∧ (depth_ b ≤ depth_ b')%nat.


End Directory.

(** ** Buffer pool manager ([buffer_pool_manager_instance.cpp]) *)

Module Pool.
Import Replacer.

Definition INVALID_PAGE_ID : Z := -1.

(** The bytes of a page buffer. *)
Definition Data : Type := list Byte.byte.

(** Modelled from the spec: [common/config.h] is not among the sources; the
    page size is "fixed per process".  4096 is the value of the BusTub
    distribution; nothing below depends on it. *)
Definition BUSTUB_PAGE_SIZE : nat := 4096.

(** [Page::ResetMemory] leaves the buffer zeroed. *)
Definition zeroed : Data := replicate BUSTUB_PAGE_SIZE Byte.x00.

(** Modelled from the spec: [storage/page/page.h] is not among the sources.
    A frame holds the resident page id (or the invalid id), the buffer,
    the pin count and the dirty flag; a new [Page] is unused, unpinned and
    clean.  [pin_count_] and the page ids are [int]s that the code only
    steps by one; they are carried as [Z], short of the overflow that C++
    leaves undefined. *)
Record Page : Type := mkPage {
  data_ : Data;
  page_id_ : Z;
  pin_count_ : Z;
  is_dirty_ : bool
}.

Definition fresh_page : Page :=
  {| data_ := zeroed; page_id_ := INVALID_PAGE_ID; pin_count_ := 0;
     is_dirty_ := false |}.

(** What the manager asks of its collaborators, in the order it asks. *)
Inductive event : Type :=
| EvWritePage (page_id : Z) (data : Data)     (* [disk_manager_->WritePage] *)
| EvReadPage (page_id : Z)                    (* [disk_manager_->ReadPage] *)
| EvTableInsert (page_id frame_id : Z)        (* [page_table_->Insert] *)
| EvTableRemove (page_id : Z)                 (* [page_table_->Remove] *)
| EvDeallocate (page_id : Z).                 (* [DeallocatePage] *)

(** The manager.  [page_table_] is an [ExtendibleHashTable<page_id_t,
    frame_id_t>] that the manager uses through [Find], [Insert] and
    [Remove] alone; these act as lookup, insert and delete of a finite map
    ([DirectoryFacts.Insert_sound], [DirectoryFacts.Find_Remove]) and the
    table is carried as that map.  [disk_] is the store behind the disk
    manager and [trace_] the calls made so far, oldest first. *)
Record BPM : Type := mkBPM {
  pool_size_ : nat;
  pages_ : list Page;
  page_table_ : gmap Z Z;
  replacer_ : LRUKReplacer;
  free_list_ : list Z;
  next_page_id_ : Z;
  disk_ : gmap Z Data;
  trace_ : list event
}.

Definition set_pages (s : BPM) (ps : list Page) : BPM :=
  {| pool_size_ := pool_size_ s; pages_ := ps; page_table_ := page_table_ s;
     replacer_ := replacer_ s; free_list_ := free_list_ s;
     next_page_id_ := next_page_id_ s; disk_ := disk_ s; trace_ := trace_ s |}.

Definition set_replacer (s : BPM) (r : LRUKReplacer) : BPM :=
  {| pool_size_ := pool_size_ s; pages_ := pages_ s; page_table_ := page_table_ s;
     replacer_ := r; free_list_ := free_list_ s;
     next_page_id_ := next_page_id_ s; disk_ := disk_ s; trace_ := trace_ s |}.

Definition set_free_list (s : BPM) (fl : list Z) : BPM :=
  {| pool_size_ := pool_size_ s; pages_ := pages_ s; page_table_ := page_table_ s;
     replacer_ := replacer_ s; free_list_ := fl;
     next_page_id_ := next_page_id_ s; disk_ := disk_ s; trace_ := trace_ s |}.

Definition set_next_page_id (s : BPM) (n : Z) : BPM :=
  {| pool_size_ := pool_size_ s; pages_ := pages_ s; page_table_ := page_table_ s;
     replacer_ := replacer_ s; free_list_ := free_list_ s;
     next_page_id_ := n; disk_ := disk_ s; trace_ := trace_ s |}.

(** [pages_[frame_id]]; an index outside the array is not defined in C++ and
    does not occur in a pool that satisfies [pool_inv]. *)
Definition page_at (s : BPM) (frame_id : Z) : Page :=
  default fresh_page (pages_ s !! Z.to_nat frame_id).

Definition set_page (s : BPM) (frame_id : Z) (pg : Page) : BPM :=
  set_pages s (<[Z.to_nat frame_id := pg]> (pages_ s)).

(** [page_table_->Find], [->Insert], [->Remove]. *)
Definition table_Find (s : BPM) (page_id : Z) : option Z := page_table_ s !! page_id.

Definition table_Insert (s : BPM) (page_id frame_id : Z) : BPM :=
  {| pool_size_ := pool_size_ s; pages_ := pages_ s;
     page_table_ := <[page_id := frame_id]> (page_table_ s);
     replacer_ := replacer_ s; free_list_ := free_list_ s;
     next_page_id_ := next_page_id_ s; disk_ := disk_ s;
     trace_ := trace_ s ++ [EvTableInsert page_id frame_id] |}.

Definition table_Remove (s : BPM) (page_id : Z) : BPM :=
  {| pool_size_ := pool_size_ s; pages_ := pages_ s;
     page_table_ := delete page_id (page_table_ s);
     replacer_ := replacer_ s; free_list_ := free_list_ s;
     next_page_id_ := next_page_id_ s; disk_ := disk_ s;
     trace_ := trace_ s ++ [EvTableRemove page_id] |}.

(** Modelled from the spec: the disk manager is an external collaborator;
    [write_page] persists the buffer, [read_page] fills the buffer with the
    stable-storage contents of the page (zeroes for a page never written). *)
Definition WritePage (s : BPM) (page_id : Z) (data : Data) : BPM :=
  {| pool_size_ := pool_size_ s; pages_ := pages_ s; page_table_ := page_table_ s;
     replacer_ := replacer_ s; free_list_ := free_list_ s;
     next_page_id_ := next_page_id_ s;
     disk_ := <[page_id := data]> (disk_ s);
     trace_ := trace_ s ++ [EvWritePage page_id data] |}.

Definition ReadPage (s : BPM) (page_id : Z) : Data * BPM :=
  (default zeroed (disk_ s !! page_id),
   {| pool_size_ := pool_size_ s; pages_ := pages_ s; page_table_ := page_table_ s;
      replacer_ := replacer_ s; free_list_ := free_list_ s;
      next_page_id_ := next_page_id_ s; disk_ := disk_ s;
      trace_ := trace_ s ++ [EvReadPage page_id] |}).

(** Modelled from the spec: [DeallocatePage] is declared in the header;
    deallocation is deferred to the external allocator. *)
Definition DeallocatePage (s : BPM) (page_id : Z) : BPM :=
  {| pool_size_ := pool_size_ s; pages_ := pages_ s; page_table_ := page_table_ s;
     replacer_ := replacer_ s; free_list_ := free_list_ s;
     next_page_id_ := next_page_id_ s; disk_ := disk_ s;
     trace_ := trace_ s ++ [EvDeallocate page_id] |}.

(** The constructor: every frame is in the free list. *)
Definition new_pool (pool_size : nat) (replacer_k : Z) : BPM :=
  {| pool_size_ := pool_size;
     pages_ := replicate pool_size fresh_page;
     page_table_ := ∅;
     replacer_ := new_replacer (Z.of_nat pool_size) replacer_k;
     free_list_ := Z.of_nat <$> seq 0 pool_size;
     next_page_id_ := 0;
     disk_ := ∅;
     trace_ := [] |}.

(** How a call ends: it returns, the [throw] of [LRUKReplacer::Remove]
    escapes it, or an [assert] stops the process. *)
Inductive outcome (A : Type) : Type :=
| Ret (a : A) (s : BPM)
| Thrown (s : BPM)
| Aborted.
Arguments Ret {A} a s.
Arguments Thrown {A} s.
Arguments Aborted {A}.

(** The frame acquisition that [NewPgImp] and [FetchPgImp] both spell out:
    the front of the free list, else a victim of the replacer, written back
    if dirty and then unbound; [None] when neither gives a frame. *)
Definition acquire_frame (s : BPM) : option (Z * BPM) :=
  match free_list_ s with
  | frame_id :: rest => Some (frame_id, set_free_list s rest)
  | [] =>
      match Evict (replacer_ s) with
      | (Some frame_id, r') =>
          let s1 := set_replacer s r' in
          let pg := page_at s1 frame_id in
          let s2 := if is_dirty_ pg then WritePage s1 (page_id_ pg) (data_ pg) else s1 in
          Some (frame_id, table_Remove s2 (page_id_ pg))
      | (None, _) => None
      end
  end.

Definition touch_pinned (s : BPM) (frame_id : Z) : BPM :=
  set_replacer s (SetEvictable (RecordAccess (replacer_ s) frame_id) frame_id false).

(** [NewPgImp]: the new page id and the frame handed out, or nothing. *)
Definition NewPgImp (s : BPM) : option (Z * Z) * BPM :=
  match acquire_frame s with
  | None => (None, s)
  | Some (frame_id, s1) =>
      let page_id := next_page_id_ s1 in
      let s2 := set_next_page_id s1 (page_id + 1) in
      let s3 := table_Insert s2 page_id frame_id in
      let s4 := set_page s3 frame_id
                  {| data_ := zeroed; page_id_ := page_id; pin_count_ := 1;
                     is_dirty_ := false |} in
      (Some (page_id, frame_id), touch_pinned s4 frame_id)
  end.

(** [FetchPgImp]: the frame handed out, or nothing. *)
Definition FetchPgImp (s : BPM) (page_id : Z) : outcome (option Z) :=
  if page_id =? INVALID_PAGE_ID then Aborted
  else
    match table_Find s page_id with
    | Some frame_id =>
        let s1 := touch_pinned s frame_id in
        let pg := page_at s1 frame_id in
        Ret (Some frame_id)
            (set_page s1 frame_id
               {| data_ := data_ pg; page_id_ := page_id_ pg;
                  pin_count_ := pin_count_ pg + 1; is_dirty_ := is_dirty_ pg |})
    | None =>
        match acquire_frame s with
        | None => Ret None s
        | Some (frame_id, s1) =>
            let s2 := table_Insert s1 page_id frame_id in
            let '(buf, s3) := ReadPage s2 page_id in
            let s4 := set_page s3 frame_id
                        {| data_ := buf; page_id_ := page_id; pin_count_ := 1;
                           is_dirty_ := false |} in
            Ret (Some frame_id) (touch_pinned s4 frame_id)
        end
    end.

(** [UnpinPgImp]. *)
Definition UnpinPgImp (s : BPM) (page_id : Z) (is_dirty : bool) : bool * BPM :=
  match table_Find s page_id with
  | None => (false, s)
  | Some frame_id =>
      let pg := page_at s frame_id in
      if pin_count_ pg =? 0 then (false, s)
      else
        let s1 := set_page s frame_id
                    {| data_ := data_ pg; page_id_ := page_id_ pg;
                       pin_count_ := pin_count_ pg - 1;
                       is_dirty_ := is_dirty_ pg || is_dirty |} in
        (true,
         if pin_count_ (page_at s1 frame_id) =? 0
         then set_replacer s1 (SetEvictable (replacer_ s1) frame_id true)
         else s1)
  end.

(** [pages_->is_dirty_ = false]: the flag of the first element of the
    array. *)
Definition clear_first_dirty (s : BPM) : BPM :=
  let pg := page_at s 0 in
  set_page s 0 {| data_ := data_ pg; page_id_ := page_id_ pg;
                  pin_count_ := pin_count_ pg; is_dirty_ := false |}.

(** [FlushPgImp]. *)
Definition FlushPgImp (s : BPM) (page_id : Z) : bool * BPM :=
  match table_Find s page_id with
  | None => (false, s)
  | Some frame_id =>
      let pg := page_at s frame_id in
      (true, clear_first_dirty (WritePage s (page_id_ pg) (data_ pg)))
  end.

(** [FlushAllPgsImp]. *)
Definition flush_frame (s : BPM) (frame_id : nat) : BPM :=
  let pg := page_at s (Z.of_nat frame_id) in
  match table_Find s (page_id_ pg) with
  | Some _ => clear_first_dirty (WritePage s (page_id_ pg) (data_ pg))
  | None => s
  end.

Definition FlushAllPgsImp (s : BPM) : BPM :=
  fold_left flush_frame (seq 0 (pool_size_ s)) s.

(** [DeletePgImp]. *)
Definition DeletePgImp (s : BPM) (page_id : Z) : outcome bool :=
  let s0 := DeallocatePage s page_id in
  match table_Find s0 page_id with
  | None => Ret true s0
  | Some frame_id =>
      let pg := page_at s0 frame_id in
      if 0 <? pin_count_ pg then Ret false s0
      else
        let s1 := if is_dirty_ pg
                  then clear_first_dirty (WritePage s0 (page_id_ pg) (data_ pg))
                  else s0 in
        match Remove (replacer_ s1) frame_id with
        | None => Thrown s1
        | Some r' =>
            let s2 := set_replacer s1 r' in
            let s3 := set_free_list s2 (free_list_ s2 ++ [frame_id]) in
            Ret true (table_Remove s3 page_id)
        end
  end.

(** *** The states of a pool *)

(** The calls a client can make. *)
Inductive call : Type :=
| CallNew
| CallFetch (page_id : Z)
| CallUnpin (page_id : Z) (is_dirty : bool)
| CallFlush (page_id : Z)
| CallFlushAll
| CallDelete (page_id : Z).

(** The state a call leaves, if the process goes on (an exception that
    escapes leaves the state it had reached). *)
Definition after (s : BPM) (c : call) : option BPM :=
  match c with
  | CallNew => Some (NewPgImp s).2
  | CallFetch p =>
      match FetchPgImp s p with
      | Ret _ s' | Thrown s' => Some s'
      | Aborted => None
      end
  | CallUnpin p d => Some (UnpinPgImp s p d).2
  | CallFlush p => Some (FlushPgImp s p).2
  | CallFlushAll => Some (FlushAllPgsImp s)
  | CallDelete p =>
      match DeletePgImp s p with
      | Ret _ s' | Thrown s' => Some s'
      | Aborted => None
      end
  end.

Inductive reachable (pool_size : nat) (replacer_k : Z) : BPM → Prop :=
| reach_new : reachable pool_size replacer_k (new_pool pool_size replacer_k)
| reach_call s c s' :
    reachable pool_size replacer_k s → after s c = Some s' →
    reachable pool_size replacer_k s'.

(** Run a list of calls. *)
Fixpoint run (s : BPM) (cs : list call) : option BPM :=
  match cs with
  | [] => Some s
  | c :: cs' => s' ← after s c; run s' cs'
  end.

(** What holds of a pool between calls. *)
Record pool_inv (s : BPM) : Prop := {
  pi_pages : length (pages_ s) = pool_size_ s;
  pi_size : replacer_size_ (replacer_ s) = Z.of_nat (pool_size_ s);
  pi_k : 1 ≤ k_ (replacer_ s);
  pi_wf : wf_infos (replacer_ s);
  pi_tracked : ∀ f fi, frame_infos_ (replacer_ s) !! f = Some fi →
                 0 ≤ f < Z.of_nat (pool_size_ s);
  pi_room : Z.of_nat (size (frame_infos_ (replacer_ s)))
            + Z.of_nat (length (free_list_ s)) ≤ Z.of_nat (pool_size_ s);
  pi_free_nodup : NoDup (free_list_ s);
  pi_free : ∀ f, f ∈ free_list_ s →
              0 ≤ f < Z.of_nat (pool_size_ s)
              ∧ frame_infos_ (replacer_ s) !! f = None
              ∧ ∀ p, page_table_ s !! p ≠ Some f;
  pi_bound : ∀ p f, page_table_ s !! p = Some f →
               0 ≤ f < Z.of_nat (pool_size_ s)
               ∧ page_id_ (page_at s f) = p
               ∧ 0 ≤ pin_count_ (page_at s f)
               ∧ ∃ fi, frame_infos_ (replacer_ s) !! f = Some fi
                       ∧ evictable_ fi = (pin_count_ (page_at s f) =? 0)
}.

(** The two ways [acquire_frame] gives a frame, with what each does. *)
Inductive acquired (s : BPM) (f : Z) (s1 : BPM) : Prop :=
| from_free_list :
    free_list_ s = f :: free_list_ s1 →
    replacer_ s1 = replacer_ s → page_table_ s1 = page_table_ s →
    trace_ s1 = trace_ s →
    acquired s f s1
| from_replacer :
    free_list_ s = [] → free_list_ s1 = [] →
    Evict (replacer_ s) = (Some f, replacer_ s1) →
    page_table_ s1 = delete (page_id_ (page_at s f)) (page_table_ s) →
    trace_ s1 = trace_ s
                ++ (if is_dirty_ (page_at s f)
                    then [EvWritePage (page_id_ (page_at s f)) (data_ (page_at s f))]
                    else [])
                ++ [EvTableRemove (page_id_ (page_at s f))] →
    acquired s f s1.

(** A frame that is in range and nowhere: not tracked, not bound, not
    free, with room left for it in the replacer. *)
Record loose (s : BPM) (f : Z) : Prop := {
  lo_range : 0 ≤ f < Z.of_nat (pool_size_ s);
  lo_untracked : frame_infos_ (replacer_ s) !! f = None;
  lo_unbound : ∀ p, page_table_ s !! p ≠ Some f;
  lo_not_free : f ∉ free_list_ s;
  lo_room : Z.of_nat (size (frame_infos_ (replacer_ s)))
            + Z.of_nat (length (free_list_ s)) + 1 ≤ Z.of_nat (pool_size_ s)
}.

(** A pool of two frames with page 0 pinned in frame 0; the same with the
    page unpinned; and the pool full, page 0 unpinned dirty in frame 0 and
    page 1 pinned in frame 1. *)
Definition one_page : BPM := (NewPgImp (new_pool 2 2)).2.
Definition one_page_unpinned : BPM := (UnpinPgImp one_page 0 false).2.
Definition full_pool_dirty : BPM := (UnpinPgImp (NewPgImp one_page).2 0 true).2.

(** *** What the calls do, seen from the client *)

(** The writes of [FlushAllPgsImp]: frame by frame, the buffer of every
    frame whose page id the table binds. *)
Definition flush_writes (s : BPM) : list event :=
  flat_map (λ i, let pg := page_at s (Z.of_nat i) in
                 match page_table_ s !! page_id_ pg with
                 | Some _ => [EvWritePage (page_id_ pg) (data_ pg)]
                 | None => []
                 end)
           (seq 0 (pool_size_ s)).

(** [UnpinPgImp] called once for every flag of [ds], with the answers. *)
Fixpoint unpin_times (s : BPM) (p : Z) (ds : list bool) : list bool * BPM :=
  match ds with
  | [] => ([], s)
  | d :: ds' =>
      let '(b, s1) := UnpinPgImp s p d in
      let '(bs, s2) := unpin_times s1 p ds' in (b :: bs, s2)
  end.

(** Page ids come from [AllocatePage]: a client fetches a page that has
    been allocated. *)
Definition allowed (s : BPM) (c : call) : Prop :=
  match c with
  | CallFetch p => p < next_page_id_ s
  | _ => True
  end.

Inductive disciplined (pool_size : nat) (replacer_k : Z) : BPM → Prop :=
| disc_new : disciplined pool_size replacer_k (new_pool pool_size replacer_k)
| disc_call s c s' :
    disciplined pool_size replacer_k s → allowed s c → after s c = Some s' →
    disciplined pool_size replacer_k s'.

(** What holds between the calls of such a client, on top of [pool_inv]:
    the bound page ids have been allocated, the replacer tracks a frame
    only while the table binds the page of the frame to it, and a frame is
    free or tracked. *)
Record tidy (s : BPM) : Prop := {
  ti_inv : pool_inv s;
  ti_allocated : ∀ p f, page_table_ s !! p = Some f → p < next_page_id_ s;
  ti_tracked : ∀ f fi, frame_infos_ (replacer_ s) !! f = Some fi →
                 page_table_ s !! page_id_ (page_at s f) = Some f;
  ti_full : Z.of_nat (size (frame_infos_ (replacer_ s)))
            + Z.of_nat (length (free_list_ s)) = Z.of_nat (pool_size_ s)
}.

(** The change of the pin count of the frame of page [p] that call [c]
    asks for. *)
Definition pin_change (p : Z) (c : call) : Z :=
  match c with
  | CallFetch q => if decide (q = p) then 1 else 0
  | CallUnpin q _ => if decide (q = p) then -1 else 0
  | _ => 0
  end.

(** What a flush leaves alone: everything but the disk, the trace and the
    dirty flag of the first frame. *)
Record flushed (s s' : BPM) : Prop := {
  fl_size : pool_size_ s' = pool_size_ s;
  fl_table : page_table_ s' = page_table_ s;
  fl_replacer : replacer_ s' = replacer_ s;
  fl_free : free_list_ s' = free_list_ s;
  fl_next : next_page_id_ s' = next_page_id_ s;
  fl_frames : ∀ g, page_id_ (page_at s' g) = page_id_ (page_at s g)
                   ∧ data_ (page_at s' g) = data_ (page_at s g)
                   ∧ pin_count_ (page_at s' g) = pin_count_ (page_at s g);
  fl_dirty : ∀ g, (0 < Z.to_nat g)%nat →
               is_dirty_ (page_at s' g) = is_dirty_ (page_at s g)
}.

(** A client that fetches page 0 before [NewPgImp] has handed it out: page
    0 is read into frame 0 and unpinned, and [NewPgImp] then hands out page
    id 0 in frame 1. *)
Definition early_fetch_calls : list call := [CallFetch 0; CallUnpin 0 false; CallNew].

Definition early_fetch : BPM :=
  default (new_pool 2 2) (run (new_pool 2 2) early_fetch_calls).

End Pool.

Module ReplacerFacts.
Import Replacer.

(** *** The comparison of [Evict] is a total preorder on bounded histories *)

Lemma cmp_info_true k a b :
  seq_size a ≤ k → seq_size b ≤ k →
  cmp_info k a b = true → victim_le k a b.
Proof.
  intros Ha Hb. unfold cmp_info, victim_le.
  destruct (Z.ltb_spec (seq_size a) k), (Z.eqb_spec (seq_size b) k),
    (Z.ltb_spec (seq_size b) k), (Z.eqb_spec (seq_size a) k); simpl;
    try (intros _; lia); try discriminate; intros ?%Z.ltb_lt; lia.
Qed.

Lemma cmp_info_false k a b :
  seq_size a ≤ k → seq_size b ≤ k →
  cmp_info k a b = false → victim_le k b a.
Proof.
  intros Ha Hb. unfold cmp_info, victim_le.
  destruct (Z.ltb_spec (seq_size a) k), (Z.eqb_spec (seq_size b) k),
    (Z.ltb_spec (seq_size b) k), (Z.eqb_spec (seq_size a) k); simpl;
    try (intros _; lia); try discriminate; intros ?%Z.ltb_ge; lia.
Qed.

Lemma victim_le_refl k a : victim_le k a a.
Proof. right. split; [tauto | lia]. Qed.

Lemma victim_le_trans k a b c :
  seq_size a ≤ k → seq_size b ≤ k → seq_size c ≤ k →
  victim_le k a b → victim_le k b c → victim_le k a c.
Proof. unfold victim_le. intros; lia. Qed.

(** *** The scan of [Evict] *)

Lemma evict_visit_inv r seen fid g gi :
  wf_infos r → frame_infos_ r !! g = Some gi →
  (∀ h hi, (h, hi) ∈ seen → frame_infos_ r !! h = Some hi) →
  scan_inv r seen fid → scan_inv r (seen ++ [(g, gi)]) (evict_visit r fid (g, gi)).
Proof.
  intros Hwf Hg Hseen Hinv. unfold evict_visit; simpl.
  destruct (Hwf _ _ Hg) as [Hg1 Hgk].
  destruct (evictable_ gi) eqn:Hev.
  - destruct Hinv as [[-> Hnone] | (Hne & fi & Hfi & Hfe & Hmin)].
    + simpl. right. split; [done|]. exists gi. repeat split; [done..|].
      intros h hi [Hin | Hin%list_elem_of_singleton]%elem_of_app He.
      * rewrite (Hnone _ _ Hin) in He. discriminate.
      * injection Hin as -> ->. apply victim_le_refl.
    + destruct (Z.eqb_spec fid (-1)) as [|_]; [done|]. simpl.
      destruct (Hwf _ _ Hfi) as [_ Hfk].
      unfold cmp, info_of. rewrite Hg, Hfi. simpl.
      destruct (cmp_info (k_ r) gi fi) eqn:Hc.
      * apply cmp_info_true in Hc; [|lia..].
        right. split; [done|]. exists gi. repeat split; [done..|].
        intros h hi [Hin | Hin%list_elem_of_singleton]%elem_of_app He.
        -- specialize (Hmin _ _ Hin He).
           destruct (Hwf _ _ (Hseen _ _ Hin)) as [_ Hhk].
           apply victim_le_trans with fi; try lia; done.
        -- injection Hin as -> ->. apply victim_le_refl.
      * apply cmp_info_false in Hc; [|lia..].
        right. split; [done|]. exists fi. repeat split; [done..|].
        intros h hi [Hin | Hin%list_elem_of_singleton]%elem_of_app He.
        -- by apply (Hmin h hi).
        -- by injection Hin as -> ->.
  - destruct Hinv as [[-> Hnone] | (Hne & fi & Hfi & Hfe & Hmin)].
    + left. split; [done|].
      intros h hi [Hin | Hin%list_elem_of_singleton]%elem_of_app; [by apply (Hnone h hi)|].
      by injection Hin as -> ->.
    + right. split; [done|]. exists fi. repeat split; [done..|].
      intros h hi [Hin | Hin%list_elem_of_singleton]%elem_of_app He; [by apply (Hmin h hi)|].
      injection Hin as -> ->. congruence.
Qed.

Lemma evict_scan_inv r kvs : ∀ seen fid,
  wf_infos r →
  (∀ h hi, (h, hi) ∈ seen ++ kvs → frame_infos_ r !! h = Some hi) →
  scan_inv r seen fid → scan_inv r (seen ++ kvs) (evict_scan r kvs fid).
Proof.
  induction kvs as [|[g gi] kvs IH]; intros seen fid Hwf Hin Hinv.
  - by rewrite app_nil_r.
  - simpl. replace (seen ++ (g, gi) :: kvs) with ((seen ++ [(g, gi)]) ++ kvs)
      by (by rewrite <- app_assoc).
    apply IH; [done| |].
    + intros h hi Hh. apply Hin. by rewrite <- app_assoc in Hh.
    + apply evict_visit_inv; [done| |intros; apply Hin; set_solver|done].
      apply Hin. set_solver.
Qed.

(** What [Evict] answers, in terms of the records. *)
Lemma Evict_scan_result r :
  wf_infos r → scan_inv r (map_to_list (frame_infos_ r))
                  (evict_scan r (map_to_list (frame_infos_ r)) (-1)).
Proof.
  intros Hwf.
  apply (evict_scan_inv r (map_to_list (frame_infos_ r)) [] (-1) Hwf).
  - intros h hi Hh. by apply elem_of_map_to_list.
  - left. split; [done|]. intros ?? Hin. by apply elem_of_nil in Hin.
Qed.

(** *** Counting evictable records *)

Lemma evictable_count_delete m f fi :
  m !! f = Some fi →
  evictable_count m = (flag_weight (evictable_ fi) + evictable_count (delete f m))%nat.
Proof.
  intros Hf. unfold evictable_count.
  rewrite <- (insert_delete_id m f fi Hf) at 1.
  rewrite map_filter_insert. simpl.
  destruct (decide (evictable_ fi = true)) as [He|He].
  - rewrite map_size_insert_None; [by rewrite He|].
    apply map_lookup_filter_None. left. apply lookup_delete_eq.
  - rewrite delete_delete_eq. by destruct (evictable_ fi).
Qed.

Lemma evictable_count_insert m f fi :
  evictable_count (<[f := fi]> m)
  = (flag_weight (evictable_ fi) + evictable_count (delete f m))%nat.
Proof.
  rewrite (evictable_count_delete (<[f := fi]> m) f fi) by apply lookup_insert_eq.
  by rewrite delete_insert_eq.
Qed.

Lemma size_delete_tracked (m : gmap Z FrameInfo) f fi :
  m !! f = Some fi → size m = S (size (delete f m)).
Proof.
  intros Hf. rewrite map_size_delete, Hf.
  pose proof (map_size_ne_0_lookup_2 m f (mk_is_Some _ _ Hf)). lia.
Qed.

Lemma evictable_count_le m : (evictable_count m ≤ size m)%nat.
Proof. apply map_subseteq_size, map_filter_subseteq. Qed.

Lemma wrap64_small x : 0 ≤ x < 2 ^ 64 → wrap64 x = x.
Proof. intros. unfold wrap64. by apply Z.mod_small. Qed.

(** *** The two invariants hold of every replacer the code builds *)

Lemma new_replacer_wf n k : wf_infos (new_replacer n k).
Proof. intros f fi Hf. simpl in Hf. by rewrite lookup_empty in Hf. Qed.

Lemma new_replacer_count n k : 0 ≤ n < 2 ^ 64 → count_inv (new_replacer n k).
Proof.
  intros Hn. split; simpl; [|rewrite map_size_empty; lia].
  unfold evictable_count. by rewrite map_filter_empty, map_size_empty.
Qed.

Lemma RecordAccess_wf r f :
  1 ≤ k_ r → f ≠ -1 → wf_infos r → wf_infos (RecordAccess r f).
Proof.
  intros Hk Hf Hwf. unfold RecordAccess.
  destruct (_ && _); [done|].
  intros g gi. simpl. destruct (decide (f = g)) as [<-|Hne].
  - rewrite lookup_insert_eq. intros [= <-]. split; [done|].
    unfold seq_size, info_of. simpl.
    destruct (frame_infos_ r !! f) as [fi|] eqn:Hfi; simpl.
    + destruct (Hwf _ _ Hfi) as [_ Hs]. unfold seq_size in Hs.
      destruct (Z.eqb_spec (Z.of_nat (length (time_sequence_ fi))) (k_ r));
        rewrite length_app; destruct (time_sequence_ fi); simpl in *; lia.
    + destruct (k_ r); simpl; lia.
  - rewrite lookup_insert_ne by done. apply Hwf.
Qed.

Lemma RecordAccess_count r f : count_inv r → count_inv (RecordAccess r f).
Proof.
  intros [Hc Hs]. unfold RecordAccess.
  destruct (bool_decide _ && _) eqn:Hdrop; [done|].
  split; simpl.
  - rewrite evictable_count_insert. unfold info_of.
    destruct (frame_infos_ r !! f) as [fi|] eqn:Hfi; simpl.
    + by rewrite Hc, (evictable_count_delete _ f fi).
    + by rewrite delete_id.
  - rewrite map_size_insert.
    destruct (frame_infos_ r !! f) as [fi|] eqn:Hfi; simpl; [done|].
    rewrite bool_decide_eq_true_2 in Hdrop by done. simpl in Hdrop.
    apply Z.eqb_neq in Hdrop. lia.
Qed.

Lemma SetEvictable_wf r f b : wf_infos r → wf_infos (SetEvictable r f b).
Proof.
  intros Hwf. unfold SetEvictable.
  destruct (frame_infos_ r !! f) as [fi|] eqn:Hfi; [|done].
  intros g gi. simpl. destruct (decide (f = g)) as [<-|Hne].
  - rewrite lookup_insert_eq. intros [= <-]. apply (Hwf _ _ Hfi).
  - rewrite lookup_insert_ne by done. apply Hwf.
Qed.

Lemma SetEvictable_size r f b fi :
  count_inv r → frame_infos_ r !! f = Some fi →
  Size (SetEvictable r f b) = Size r + Z.b2z b - Z.b2z (evictable_ fi).
Proof.
  intros [Hc Hs] Hfi. unfold SetEvictable, Size. rewrite Hfi. simpl.
  pose proof (evictable_count_delete _ _ _ Hfi) as Hcnt.
  pose proof (evictable_count_le (delete f (frame_infos_ r))) as Hle.
  pose proof (size_delete_tracked _ _ _ Hfi) as Hpos.
  destruct (evictable_ fi), b; simpl in *; try lia;
    rewrite wrap64_small; lia.
Qed.

Lemma SetEvictable_count r f b : count_inv r → count_inv (SetEvictable r f b).
Proof.
  intros Hinv.
  destruct (frame_infos_ r !! f) as [fi|] eqn:Hfi;
    [|unfold SetEvictable; by rewrite Hfi].
  pose proof (SetEvictable_size r f b fi Hinv Hfi) as Hsz.
  destruct Hinv as [Hc Hs]. unfold Size in Hsz. split.
  - rewrite Hsz. unfold SetEvictable. rewrite Hfi. simpl.
    rewrite evictable_count_insert, Hc, (evictable_count_delete _ f fi Hfi).
    simpl. destruct (evictable_ fi), b; simpl; lia.
  - unfold SetEvictable. rewrite Hfi. simpl.
    by rewrite map_size_insert_Some by (by rewrite Hfi).
Qed.

Lemma erase_evictable_count m f fi c n :
  m !! f = Some fi → evictable_ fi = true →
  c = Z.of_nat (evictable_count m) → Z.of_nat (size m) ≤ n < 2 ^ 64 →
  wrap64 (c - 1) = Z.of_nat (evictable_count (delete f m))
  ∧ Z.of_nat (size (delete f m)) ≤ n < 2 ^ 64.
Proof.
  intros Hf He -> Hs.
  pose proof (evictable_count_delete _ _ _ Hf) as Hcnt. rewrite He in Hcnt.
  pose proof (evictable_count_le m) as Hle.
  pose proof (evictable_count_le (delete f m)) as Hle'.
  pose proof (size_delete_tracked _ _ _ Hf) as Hpos.
  simpl in Hcnt. split; [|lia]. rewrite wrap64_small; lia.
Qed.

Lemma Remove_count r f r' : count_inv r → Remove r f = Some r' → count_inv r'.
Proof.
  intros [Hc Hs]. unfold Remove.
  destruct (frame_infos_ r !! f) as [fi|] eqn:Hfi; [|by intros [= <-]].
  destruct (evictable_ fi) eqn:He; simpl; [|done]. intros [= <-].
  unfold count_inv. simpl. by apply (erase_evictable_count _ _ fi).
Qed.

Lemma delete_wf r f r' :
  wf_infos r → frame_infos_ r' = delete f (frame_infos_ r) → k_ r' = k_ r →
  wf_infos r'.
Proof.
  intros Hwf Hm Hk g gi. rewrite Hm, Hk. intros [_ Hg]%lookup_delete_Some.
  by apply Hwf.
Qed.

Lemma Remove_wf r f r' : wf_infos r → Remove r f = Some r' → wf_infos r'.
Proof.
  intros Hwf. unfold Remove.
  destruct (frame_infos_ r !! f) as [fi|] eqn:Hfi; [|by intros [= <-]].
  destruct (evictable_ fi); simpl; [|done]. intros [= <-].
  by apply (delete_wf r f).
Qed.

(** [Evict] unfolded: nothing, or a victim that the scan justifies. *)
Lemma Evict_cases r :
  wf_infos r →
  (Evict r = (None, r)
   ∧ ∀ g gi, frame_infos_ r !! g = Some gi → evictable_ gi = false)
  ∨ (∃ f fi, Evict r = (Some f,
          {| frame_infos_ := delete f (frame_infos_ r);
             current_timestamp_ := current_timestamp_ r;
             curr_size_ := wrap64 (curr_size_ r - 1);
             replacer_size_ := replacer_size_ r;
             k_ := k_ r |})
      ∧ frame_infos_ r !! f = Some fi ∧ evictable_ fi = true
      ∧ ∀ g gi, frame_infos_ r !! g = Some gi → evictable_ gi = true →
                victim_le (k_ r) fi gi).
Proof.
  intros Hwf. pose proof (Evict_scan_result r Hwf) as Hscan.
  unfold Evict. destruct Hscan as [[-> Hnone] | (Hne & fi & Hfi & Hfe & Hmin)].
  - left. split; [done|]. intros g gi Hg. apply (Hnone g gi).
    by apply elem_of_map_to_list.
  - right. exists (evict_scan r (map_to_list (frame_infos_ r)) (-1)), fi.
    destruct (Z.eqb_spec (evict_scan r (map_to_list (frame_infos_ r)) (-1)) (-1));
      [done|].
    repeat split; [done..|]. intros g gi Hg. apply (Hmin g gi).
    by apply elem_of_map_to_list.
Qed.

Lemma Evict_wf r : wf_infos r → wf_infos (Evict r).2.
Proof.
  intros Hwf. destruct (Evict_cases r Hwf) as [[-> _] | (f & fi & -> & _)]; [done|].
  by apply (delete_wf r f).
Qed.

Lemma Evict_count r : wf_infos r → count_inv r → count_inv (Evict r).2.
Proof.
  intros Hwf [Hc Hs].
  destruct (Evict_cases r Hwf) as [[-> _] | (f & fi & -> & Hf & He & _)]; [done|].
  unfold count_inv. simpl. by apply (erase_evictable_count _ _ fi).
Qed.

Lemma wf_infos_decide r :
  bool_decide (map_Forall (λ f fi, f ≠ -1 ∧ 0 < seq_size fi ≤ k_ r)
                 (frame_infos_ r)) = true → wf_infos r.
Proof. intros H%bool_decide_eq_true. exact H. Qed.

(** ** C2: the eviction policy *)

(** C2.  On every replacer state (no record under the sentinel id, each
    history non-empty and at most [k] long) [Evict] returns nothing, and
    changes nothing, when no record is evictable; otherwise it returns an
    evictable frame, erases exactly its record, and that frame is least in
    the order "fewer than [k] accesses before exactly [k], then the older
    front timestamp" among all evictable records.  In scenario S1 ([k = 2],
    capacity 7, accesses 1..6, 1..6, 1, each marked evictable) [Size] is 6
    and six successive calls return 2, 3, 4, 5, 6, 1. *)
Theorem evict_policy :
  (∀ r, wf_infos r →
     match Evict r with
     | (None, r') =>
         r' = r ∧ ∀ g gi, frame_infos_ r !! g = Some gi → evictable_ gi = false
     | (Some f, r') =>
         ∃ fi, frame_infos_ r !! f = Some fi ∧ evictable_ fi = true
           ∧ frame_infos_ r' = delete f (frame_infos_ r)
           ∧ ∀ g gi, frame_infos_ r !! g = Some gi → evictable_ gi = true →
                     victim_le (k_ r) fi gi
     end)
  ∧ Size s1_state = 6
  ∧ (evict_many 6 s1_state).1
    = [Some 2; Some 3; Some 4; Some 5; Some 6; Some 1].
Proof.
  split; [|split; vm_compute; reflexivity].
  intros r Hwf.
  destruct (Evict_cases r Hwf) as [[-> Hnone] | (f & fi & -> & Hf & He & Hmin)].
  - done.
  - exists fi. done.
Qed.

Lemma s1_state_wf : wf_infos s1_state.
Proof. apply wf_infos_decide. vm_compute. reflexivity. Qed.

Lemma evict_policy_witness :
  wf_infos s1_state
  ∧ match Evict s1_state with
    | (None, r') =>
        r' = s1_state
        ∧ ∀ g gi, frame_infos_ s1_state !! g = Some gi → evictable_ gi = false
    | (Some f, r') =>
        ∃ fi, frame_infos_ s1_state !! f = Some fi ∧ evictable_ fi = true
          ∧ frame_infos_ r' = delete f (frame_infos_ s1_state)
          ∧ ∀ g gi, frame_infos_ s1_state !! g = Some gi →
                    evictable_ gi = true → victim_le (k_ s1_state) fi gi
    end.
Proof.
  split; [exact s1_state_wf | exact (proj1 evict_policy s1_state s1_state_wf)].
Defined.

(** Frame 3 has one access, frames 1 and 2 have two ([k = 2]): frame 3 goes
    first although its only access is the latest. *)
Example fewer_accesses_first :
  (evict_many 4 (fold_left touch [1; 2; 3; 1; 2] (new_replacer 7 2))).1
  = [Some 3; Some 1; Some 2; None].
Proof. vm_compute. reflexivity. Qed.

(** ** C9: [SetEvictable] and [Size] *)

(** C9 as stated fails: frame 1 is tracked and already evictable, and
    marking it evictable again leaves [Size] where it was. *)
Lemma set_evictable_repeat_counterexample :
  let r := touch (new_replacer 7 2) 1 in
  tracked r 1 ∧ count_inv r
  ∧ Size r = 1 ∧ Size (SetEvictable r 1 true) = 1
  ∧ Size (SetEvictable r 1 true) ≠ Size r + 1.
Proof.
  cbv zeta. split; [|split].
  - vm_compute. eauto.
  - unfold touch. apply SetEvictable_count, RecordAccess_count, new_replacer_count. lia.
  - vm_compute. repeat split; discriminate.
Qed.

(** C9, amended.  On a replacer whose cached count is right, for a tracked
    frame [SetEvictable] moves [Size] by the change of the flag: up by one
    when a non-evictable frame is marked evictable, down by one when an
    evictable frame is marked non-evictable, not at all when the flag
    already has the requested value; on an untracked frame the state is
    unchanged. *)
Theorem set_evictable_size r f b :
  count_inv r →
  match frame_infos_ r !! f with
  | None => SetEvictable r f b = r
  | Some fi =>
      is_evictable (SetEvictable r f b) f = b
      ∧ Size (SetEvictable r f b)
        = (if negb (evictable_ fi) && b then Size r + 1
           else if evictable_ fi && negb b then Size r - 1
           else Size r)
  end.
Proof.
  intros Hinv. destruct (frame_infos_ r !! f) as [fi|] eqn:Hfi.
  - split.
    + unfold is_evictable, SetEvictable. rewrite Hfi. simpl.
      by rewrite lookup_insert_eq.
    + rewrite (SetEvictable_size r f b fi Hinv Hfi).
      destruct (evictable_ fi), b; simpl; lia.
  - unfold SetEvictable. by rewrite Hfi.
Qed.

Lemma set_evictable_size_witness :
  let r := RecordAccess (new_replacer 7 2) 1 in
  count_inv r
  ∧ match frame_infos_ r !! 1 with
    | None => SetEvictable r 1 true = r
    | Some fi =>
        is_evictable (SetEvictable r 1 true) 1 = true
        ∧ Size (SetEvictable r 1 true)
          = (if negb (evictable_ fi) && true then Size r + 1
             else if evictable_ fi && negb true then Size r - 1
             else Size r)
    end.
Proof.
  cbv zeta.
  assert (H0 : count_inv (RecordAccess (new_replacer 7 2) 1))
    by (apply RecordAccess_count, new_replacer_count; lia).
  split; [exact H0 | exact (set_evictable_size _ 1 true H0)].
Defined.

(** ** Further properties of the replacer *)

(** The scan of [Evict] ends on the sentinel or on a record whose flag is
    set, whatever the records are. *)
Lemma evict_scan_pick r kvs : ∀ fid,
  (∀ h hi, (h, hi) ∈ kvs → frame_infos_ r !! h = Some hi) →
  (fid = -1 ∨ ∃ fi, frame_infos_ r !! fid = Some fi ∧ evictable_ fi = true) →
  evict_scan r kvs fid = -1
  ∨ ∃ fi, frame_infos_ r !! evict_scan r kvs fid = Some fi ∧ evictable_ fi = true.
Proof.
  induction kvs as [|[g gi] kvs IH]; intros fid Hin Hfid; [done|].
  simpl. apply IH.
  - intros h hi Hh. apply Hin. apply elem_of_cons. by right.
  - unfold evict_visit. simpl. destruct (evictable_ gi) eqn:Hg; [|done].
    destruct ((fid =? -1) || cmp r g fid); [|done].
    right. exists gi. split; [|done]. apply Hin. apply elem_of_cons. by left.
Qed.

Lemma Evict_count_any r : count_inv r → count_inv (Evict r).2.
Proof.
  intros [Hc Hs]. unfold Evict.
  destruct (evict_scan_pick r (map_to_list (frame_infos_ r)) (-1)) as [He | (fi & Hf & He)].
  - intros h hi Hh. by apply elem_of_map_to_list.
  - by left.
  - by rewrite He.
  - destruct (Z.eqb_spec (evict_scan r (map_to_list (frame_infos_ r)) (-1)) (-1));
      [done|].
    unfold count_inv. simpl. by apply (erase_evictable_count _ _ fi).
Qed.

Lemma RecordAccess_size_field r f :
  replacer_size_ (RecordAccess r f) = replacer_size_ r.
Proof. unfold RecordAccess. by destruct (_ && _). Qed.

Lemma serve_count r q : count_inv r → count_inv (serve r q).
Proof.
  intros HI. destruct q as [f|f b| |f]; simpl.
  - by apply RecordAccess_count.
  - by apply SetEvictable_count.
  - by apply Evict_count_any.
  - destruct (Remove r f) as [r'|] eqn:Hr; [|done]. by apply (Remove_count r f).
Qed.

(** X1.  Whatever calls a replacer of capacity [num_frames] has served,
    [Size] is the number of records whose flag is set and the replacer
    tracks at most [num_frames] frames. *)
Theorem size_counts_evictable num_frames k r :
  0 ≤ num_frames < 2 ^ 64 → served num_frames k r →
  Size r = Z.of_nat (evictable_count (frame_infos_ r))
  ∧ Z.of_nat (size (frame_infos_ r)) ≤ num_frames
  ∧ replacer_size_ r = num_frames.
Proof.
  intros Hn Hs.
  assert (count_inv r ∧ replacer_size_ r = num_frames) as [[H1 H2] H3].
  { induction Hs as [|r q _ [IH1 IH2]].
    - split; [by apply new_replacer_count|done].
    - split; [by apply serve_count|]. rewrite <- IH2.
      destruct q as [f|f b| |f]; simpl.
      + apply RecordAccess_size_field.
      + unfold SetEvictable. by destruct (_ !! _).
      + unfold Evict. by destruct (_ =? _).
      + unfold Remove. destruct (_ !! _) as [fi|]; [|done]. by destruct (evictable_ fi). }
  split; [done|]. split; [lia|done].
Qed.

Lemma fold_touch_served n k l : ∀ r,
  served n k r → served n k (fold_left touch l r).
Proof.
  induction l as [|f l IH]; intros r Hr; [done|]. simpl. apply IH.
  apply (served_call n k _ (ReqSetEvictable f true)).
  by apply (served_call n k _ (ReqRecordAccess f)).
Qed.

Lemma fold_touch_count l : ∀ r, count_inv r → count_inv (fold_left touch l r).
Proof.
  induction l as [|f l IH]; intros r Hr; [done|]. simpl. apply IH.
  by apply SetEvictable_count, RecordAccess_count.
Qed.

Lemma size_counts_evictable_witness :
  0 ≤ 7 < 2 ^ 64 ∧ served 7 2 s1_state
  ∧ Size s1_state = Z.of_nat (evictable_count (frame_infos_ s1_state)).
Proof.
  assert (Hs : served 7 2 s1_state)
    by (apply fold_touch_served, served_new).
  split; [lia|]. split; [exact Hs|].
  exact (proj1 (size_counts_evictable 7 2 s1_state ltac:(lia) Hs)).
Defined.

Lemma no_evictable_count (m : gmap Z FrameInfo) :
  evictable_count m = 0%nat ↔ ∀ g gi, m !! g = Some gi → evictable_ gi = false.
Proof.
  unfold evictable_count. rewrite map_size_empty_iff, map_empty_filter. split.
  - intros H g gi Hg. specialize (H g gi Hg). simpl in H. by destruct (evictable_ gi).
  - intros H g gi Hg. simpl. rewrite (H g gi Hg). discriminate.
Qed.

(** X2.  On a replacer whose records are well formed and whose count is
    right, [Evict] returns a frame exactly when [Size] is positive; it then
    lowers [Size] by one, erases the record of the frame it returns and
    leaves every other record as it was. *)
Theorem evict_iff_size r :
  wf_infos r → count_inv r →
  ((Evict r).1 = None ↔ Size r = 0)
  ∧ ((Evict r).1 = None → (Evict r).2 = r)
  ∧ ∀ f, (Evict r).1 = Some f →
      Size (Evict r).2 = Size r - 1
      ∧ frame_infos_ (Evict r).2 !! f = None
      ∧ ∀ g, g ≠ f → frame_infos_ (Evict r).2 !! g = frame_infos_ r !! g.
Proof.
  intros Hwf [Hc Hs]. unfold Size. rewrite Hc.
  destruct (Evict_cases r Hwf) as [[-> Hnone] | (f & fi & -> & Hf & He & _)]; simpl.
  - split; [|split; [done|by intros f [=]]].
    split; [intros _|done]. apply no_evictable_count in Hnone. lia.
  - pose proof (evictable_count_delete _ _ _ Hf) as Hcnt. rewrite He in Hcnt.
    simpl in Hcnt. split; [split; [done|lia]|]. split; [done|].
    intros f' [= <-].
    destruct (erase_evictable_count _ _ fi _ _ Hf He Hc Hs) as [Hw _].
    split; [rewrite Hw; lia|]. split; [apply lookup_delete_eq|].
    intros g Hg. by apply lookup_delete_ne.
Qed.

Lemma s1_state_count : count_inv s1_state.
Proof. apply fold_touch_count, new_replacer_count. lia. Qed.

Lemma evict_iff_size_witness :
  wf_infos s1_state ∧ count_inv s1_state
  ∧ ((Evict s1_state).1 = None ↔ Size s1_state = 0).
Proof.
  split; [exact s1_state_wf|]. split; [exact s1_state_count|].
  exact (proj1 (evict_iff_size s1_state s1_state_wf s1_state_count)).
Defined.

(** X3.  [Remove] throws exactly when the frame is tracked and its flag is
    not set.  Otherwise the frame is untracked afterwards, every other
    record is as it was, and, on a replacer whose count is right, [Size]
    has gone down by one if the frame was tracked and is unchanged if it
    was not. *)
Theorem remove_effect r f :
  count_inv r →
  (Remove r f = None
   ↔ ∃ fi, frame_infos_ r !! f = Some fi ∧ evictable_ fi = false)
  ∧ ∀ r', Remove r f = Some r' →
      frame_infos_ r' !! f = None
      ∧ (∀ g, g ≠ f → frame_infos_ r' !! g = frame_infos_ r !! g)
      ∧ Size r' = (if bool_decide (frame_infos_ r !! f = None) then Size r else Size r - 1)
      ∧ count_inv r'.
Proof.
  intros HI. pose proof HI as [Hc Hs]. unfold Remove.
  destruct (frame_infos_ r !! f) as [fi|] eqn:Hf.
  - destruct (evictable_ fi) eqn:He; simpl.
    + split; [split; [done|by intros (? & [= <-] & ?); congruence]|].
      intros r' [= <-]. simpl.
      destruct (erase_evictable_count _ _ fi _ _ Hf He Hc Hs) as [Hw Hs'].
      pose proof (evictable_count_delete _ _ _ Hf) as Hcnt. rewrite He in Hcnt.
      simpl in Hcnt. split; [apply lookup_delete_eq|].
      split; [intros g Hg; by apply lookup_delete_ne|].
      unfold Size. simpl. split; [rewrite Hw, Hc; lia|]. by split.
    + split; [split; [intros _; by exists fi|done]|]. by intros r' [=].
  - split; [split; [done|by intros (? & [=] & _)]|].
    by intros r' [= <-].
Qed.

Lemma remove_effect_witness :
  count_inv s1_state
  ∧ ∀ r', Remove s1_state 3 = Some r' →
      frame_infos_ r' !! 3 = None ∧ Size r' = Size s1_state - 1.
Proof.
  split; [exact s1_state_count|]. intros r' Hr.
  destruct (proj2 (remove_effect s1_state 3 s1_state_count) r' Hr) as (H1 & _ & H3 & _).
  split; [exact H1|]. exact H3.
Defined.

(** *** Timestamps *)

Lemma fresh_new n k : fresh_inv (new_replacer n k).
Proof.
  split; [done|]. split; intros f; intros; simplify_map_eq.
Qed.

Lemma fresh_erase r r' f :
  fresh_inv r → frame_infos_ r' = delete f (frame_infos_ r) →
  current_timestamp_ r' = current_timestamp_ r → fresh_inv r'.
Proof.
  intros (H0 & H1 & H2) Hm Ht. unfold fresh_inv. rewrite Hm, Ht.
  split; [done|]. split.
  - intros g gi [_ Hg]%lookup_delete_Some. by apply (H1 g).
  - intros g h gi hi t [_ Hg]%lookup_delete_Some [_ Hh]%lookup_delete_Some.
    by apply (H2 g h gi hi t).
Qed.

Lemma fresh_SetEvictable r f b : fresh_inv r → fresh_inv (SetEvictable r f b).
Proof.
  intros (H0 & H1 & H2). unfold SetEvictable.
  destruct (frame_infos_ r !! f) as [fi|] eqn:Hf; [|done].
  assert (Hsame : ∀ g gi,
    <[f := {| time_sequence_ := time_sequence_ fi; evictable_ := b |}]>
      (frame_infos_ r) !! g = Some gi →
    ∃ gi0, frame_infos_ r !! g = Some gi0 ∧ time_sequence_ gi = time_sequence_ gi0).
  { intros g gi [[<- <-] | [_ Hg]]%lookup_insert_Some; eauto. }
  split; [done|]. split; simpl.
  - intros g gi (gi0 & Hg & ->)%Hsame. by apply (H1 g).
  - intros g h gi hi t (gi0 & Hg & ->)%Hsame (hi0 & Hh & ->)%Hsame.
    by apply (H2 g h gi0 hi0 t).
Qed.

Lemma tail_elem_of (l : list Z) t : t ∈ tail l → t ∈ l.
Proof. destruct l; simpl; [done|]. intros. apply elem_of_cons. by right. Qed.

Lemma fresh_RecordAccess r f :
  fresh_inv r → current_timestamp_ r < 2 ^ 64 - 1 → fresh_inv (RecordAccess r f).
Proof.
  intros (H0 & H1 & H2) Hnow. unfold RecordAccess.
  destruct (_ && _); [done|].
  set (fi := info_of (frame_infos_ r) f).
  set (q := if seq_size fi =? k_ r then tail (time_sequence_ fi) else time_sequence_ fi).
  assert (Hq : ∀ t, t ∈ q → t ∈ time_sequence_ fi).
  { intros t. unfold q. destruct (_ =? _); [apply tail_elem_of|done]. }
  assert (Hfi : StronglySorted Z.lt (time_sequence_ fi)
                ∧ Forall (λ t, 0 ≤ t < current_timestamp_ r) (time_sequence_ fi)).
  { unfold fi, info_of. destruct (frame_infos_ r !! f) as [fi0|] eqn:Hf; simpl.
    - by apply (H1 f).
    - split; constructor. }
  destruct Hfi as [Hsorted Hbelow]. rewrite Forall_forall in Hbelow.
  assert (Hqs : StronglySorted Z.lt q).
  { unfold q. destruct (_ =? _); [|done].
    destruct (time_sequence_ fi); simpl; [done|]. by inversion Hsorted. }
  assert (Hw : wrap64 (current_timestamp_ r + 1) = current_timestamp_ r + 1)
    by (apply wrap64_small; lia).
  assert (Hown : ∀ g gi t, g ≠ f → frame_infos_ r !! g = Some gi →
            t ∈ time_sequence_ gi → t ∈ q ++ [current_timestamp_ r] → False).
  { intros g gi t Hne Hg Ht [Htq | ->%list_elem_of_singleton]%elem_of_app.
    - apply Hq in Htq. unfold fi, info_of in Htq.
      destruct (frame_infos_ r !! f) as [fi0|] eqn:Hf; simpl in Htq.
      + by apply Hne, (H2 g f gi fi0 t).
      + by apply elem_of_nil in Htq.
    - destruct (H1 g gi Hg) as [_ Hb]. rewrite Forall_forall in Hb.
      specialize (Hb _ Ht). lia. }
  unfold fresh_inv. simpl. rewrite Hw. split; [lia|]. split.
  - intros g gi [[<- <-] | [Hne Hg]]%lookup_insert_Some; simpl.
    + split.
      * apply StronglySorted_app_2; [|done|repeat constructor].
        intros t1 t2 Ht1 ->%list_elem_of_singleton.
        specialize (Hbelow _ (Hq _ Ht1)). lia.
      * apply Forall_forall.
        intros t [Ht | ->%list_elem_of_singleton]%elem_of_app; [|lia].
        specialize (Hbelow _ (Hq _ Ht)). lia.
    + destruct (H1 g gi Hg) as [Hs Hb]. split; [done|].
      eapply Forall_impl; [exact Hb|]. simpl. intros; lia.
  - intros g h gi hi t [[<- <-] | [Hg1 Hg]]%lookup_insert_Some
                       [[<- <-] | [Hh1 Hh]]%lookup_insert_Some; simpl; intros Ht1 Ht2.
    + done.
    + exfalso. apply (Hown h hi t); [congruence|done..].
    + exfalso. apply (Hown g gi t); [congruence|done..].
    + by apply (H2 g h gi hi t).
Qed.

Lemma timestamps_step r q :
  fresh_inv r → current_timestamp_ r < 2 ^ 64 - 1 →
  fresh_inv (serve r q)
  ∧ current_timestamp_ r ≤ current_timestamp_ (serve r q) ≤ current_timestamp_ r + 1.
Proof.
  intros HI Hnow. destruct q as [f|f b| |f]; simpl.
  - split; [by apply fresh_RecordAccess|].
    unfold RecordAccess. destruct (_ && _); simpl; [lia|].
    destruct HI as [H0 _]. rewrite wrap64_small; lia.
  - split; [by apply fresh_SetEvictable|].
    unfold SetEvictable. destruct (_ !! _); simpl; lia.
  - unfold Evict. destruct (_ =? _); simpl; [split; [done|lia]|].
    split; [by apply (fresh_erase r _ (evict_scan r (map_to_list (frame_infos_ r)) (-1)))|lia].
  - unfold Remove. destruct (frame_infos_ r !! f) as [fi|]; simpl; [|split; [done|lia]].
    destruct (evictable_ fi); simpl; [|split; [done|lia]].
    split; [by apply (fresh_erase r _ f)|lia].
Qed.

(** X4.  Every call keeps the timestamps fresh, as long as the counter has
    not run through its 64 bits: each history is strictly increasing and
    below the counter, no timestamp is recorded for two frames, and the
    counter does not go back. *)
Theorem timestamps_fresh r q :
  fresh_inv r → current_timestamp_ r < 2 ^ 64 - 1 →
  fresh_inv (serve r q) ∧ current_timestamp_ r ≤ current_timestamp_ (serve r q).
Proof.
  intros HI Hnow. destruct (timestamps_step r q HI Hnow) as [H1 H2].
  split; [done|lia].
Qed.

(** *** The victim does not depend on the order of iteration *)

Lemma victim_le_antisym k a b :
  victim_le k a b → victim_le k b a → seq_front a = seq_front b.
Proof. unfold victim_le. lia. Qed.

Lemma front_elem_of r f fi :
  wf_infos r → frame_infos_ r !! f = Some fi → seq_front fi ∈ time_sequence_ fi.
Proof.
  intros Hwf Hf. destruct (Hwf _ _ Hf) as [_ Hs]. unfold seq_size, seq_front in *.
  destruct (time_sequence_ fi); simpl in *; [lia|]. apply elem_of_cons. by left.
Qed.

(** X5.  On a well-formed replacer with fresh timestamps the frame that the
    scan of [Evict] ends on is the same in whatever order the records are
    visited. *)
Theorem victim_any_order r kvs :
  wf_infos r → fresh_inv r → kvs ≡ₚ map_to_list (frame_infos_ r) →
  evict_scan r kvs (-1) = evict_scan r (map_to_list (frame_infos_ r)) (-1).
Proof.
  intros Hwf (_ & _ & Hdisj) Hperm.
  assert (Hin : ∀ h hi, (h, hi) ∈ kvs ↔ frame_infos_ r !! h = Some hi).
  { intros h hi. rewrite Hperm. apply elem_of_map_to_list. }
  pose proof (evict_scan_inv r kvs [] (-1) Hwf) as Ha. simpl in Ha.
  specialize (Ha (λ h hi Hh, proj1 (Hin h hi) Hh)).
  pose proof (Evict_scan_result r Hwf) as Hb.
  assert (Hnil : scan_inv r [] (-1)).
  { left. split; [done|]. intros ?? H. by apply elem_of_nil in H. }
  specialize (Ha Hnil).
  destruct Ha as [[-> Hna] | (Hane & fa & Hfa & Hea & Hma)],
           Hb as [[-> Hnb] | (Hbne & fb & Hfb & Heb & Hmb)].
  - done.
  - rewrite (Hna (evict_scan r (map_to_list (frame_infos_ r)) (-1)) fb) in Heb;
      [done|]. by apply Hin.
  - rewrite (Hnb (evict_scan r kvs (-1)) fa) in Hea; [done|].
    by apply elem_of_map_to_list.
  - set (a := evict_scan r kvs (-1)) in *.
    set (b := evict_scan r (map_to_list (frame_infos_ r)) (-1)) in *.
    apply (Hdisj a b fa fb (seq_front fa) Hfa Hfb).
    + by apply (front_elem_of r a fa).
    + rewrite (victim_le_antisym (k_ r) fa fb).
      * by apply (front_elem_of r b fb).
      * apply (Hma b fb); [by apply Hin|done].
      * apply (Hmb a fa); [by apply elem_of_map_to_list|done].
Qed.

Lemma fold_touch_fresh l : ∀ r,
  fresh_inv r → current_timestamp_ r + Z.of_nat (length l) < 2 ^ 64 →
  fresh_inv (fold_left touch l r).
Proof.
  induction l as [|f l IH]; intros r Hr Hnow; [done|]. simpl in *.
  destruct (timestamps_step r (ReqRecordAccess f) Hr ltac:(lia)) as [H1 H2].
  apply IH.
  - by apply fresh_SetEvictable.
  - unfold touch, SetEvictable. simpl in H2. destruct (_ !! _); simpl; lia.
Qed.

Lemma s1_state_fresh : fresh_inv s1_state.
Proof. apply fold_touch_fresh; [apply fresh_new|]. simpl. lia. Qed.

Lemma timestamps_fresh_witness :
  fresh_inv s1_state ∧ current_timestamp_ s1_state < 2 ^ 64 - 1
  ∧ current_timestamp_ s1_state = 13
  ∧ time_sequence_ <$> frame_infos_ s1_state !! 3 = Some [2; 8]
  ∧ fresh_inv (serve s1_state (ReqRecordAccess 3))
  ∧ current_timestamp_ s1_state ≤ current_timestamp_ (serve s1_state (ReqRecordAccess 3)).
Proof.
  assert (Hc : current_timestamp_ s1_state < 2 ^ 64 - 1) by (vm_compute; reflexivity).
  split; [exact s1_state_fresh|]. split; [exact Hc|].
  split; [vm_compute; reflexivity|]. split; [vm_compute; reflexivity|].
  exact (timestamps_fresh s1_state (ReqRecordAccess 3) s1_state_fresh Hc).
Defined.

Lemma victim_any_order_witness :
  wf_infos s1_state ∧ fresh_inv s1_state
  ∧ reverse (map_to_list (frame_infos_ s1_state)) ≡ₚ map_to_list (frame_infos_ s1_state)
  ∧ evict_scan s1_state (reverse (map_to_list (frame_infos_ s1_state))) (-1)
    = evict_scan s1_state (map_to_list (frame_infos_ s1_state)) (-1).
Proof.
  split; [exact s1_state_wf|]. split; [exact s1_state_fresh|].
  split; [apply reverse_Permutation|].
  exact (victim_any_order s1_state _ s1_state_wf s1_state_fresh
           (reverse_Permutation _)).
Defined.



End ReplacerFacts.

Module DirectoryFacts.
Import Directory.

(** *** Low bits *)

Lemma ones_eq d : ones d = N.ones (N.of_nat d).
Proof. unfold ones, N.ones. by rewrite N.sub_1_r. Qed.

Lemma low_bits_mod x d : low_bits x d = (x mod 2 ^ N.of_nat d)%N.
Proof. unfold low_bits. by rewrite ones_eq, N.land_ones. Qed.

Lemma pow2_pos (n : N) : (0 < 2 ^ n)%N.
Proof. apply N.neq_0_lt_0, N.pow_nonzero. discriminate. Qed.

Lemma low_bits_lt x d : (low_bits x d < 2 ^ N.of_nat d)%N.
Proof. rewrite low_bits_mod. apply N.mod_lt. pose proof (pow2_pos (N.of_nat d)). lia. Qed.

Lemma low_bits_small x d : (x < 2 ^ N.of_nat d)%N → low_bits x d = x.
Proof. intros Hx. rewrite low_bits_mod. by apply N.mod_small. Qed.

Lemma pow2_split (d g : nat) :
  (d ≤ g)%nat → (2 ^ N.of_nat g = 2 ^ N.of_nat (g - d) * 2 ^ N.of_nat d)%N.
Proof. intros Hle. rewrite <- N.pow_add_r. f_equal. lia. Qed.

(** Adding a multiple of [2^g] does not touch the low [d ≤ g] bits. *)
Lemma low_bits_add_pow x c d g :
  (d ≤ g)%nat → low_bits (x + c * 2 ^ N.of_nat g) d = low_bits x d.
Proof.
  intros Hle. rewrite !low_bits_mod, (pow2_split d g Hle), N.mul_assoc.
  apply N.Div0.mod_add.
Qed.

Lemma low_bits_low x d g :
  (d ≤ g)%nat → low_bits (low_bits x g) d = low_bits x d.
Proof.
  intros Hle. rewrite (low_bits_mod x g).
  rewrite (N.Div0.div_mod x (2 ^ N.of_nat g)) at 2.
  rewrite N.add_comm, N.mul_comm. symmetry. by apply low_bits_add_pow.
Qed.

(** One more bit: the next residue is the old one, or the old one plus
    [2^d]. *)
Lemma low_bits_step x d :
  ∃ c, (c < 2)%N ∧ low_bits x (S d) = (low_bits x d + 2 ^ N.of_nat d * c)%N.
Proof.
  exists ((x / 2 ^ N.of_nat d) mod 2)%N. split; [by apply N.mod_lt|].
  rewrite !low_bits_mod.
  replace (N.of_nat (S d)) with (N.succ (N.of_nat d)) by lia.
  rewrite N.pow_succ_r', (N.mul_comm 2). apply N.Div0.mod_mul_r.
Qed.

Lemma low_bits_stay x d r :
  (r < 2 ^ N.of_nat d)%N → low_bits x (S d) = r → low_bits x d = r.
Proof.
  intros Hr Hx. rewrite <- (low_bits_low x d (S d)) by lia.
  rewrite Hx. by apply low_bits_small.
Qed.

Lemma low_bits_move x d r :
  (r < 2 ^ N.of_nat d)%N →
  (low_bits x d = r ∧ low_bits x (S d) ≠ r)
  ↔ low_bits x (S d) = (r + 2 ^ N.of_nat d)%N.
Proof.
  intros Hr. destruct (low_bits_step x d) as (c & Hc & Hstep).
  pose proof (low_bits_lt x d) as Hlt.
  assert (c = 0 ∨ c = 1)%N as [-> | ->] by lia; rewrite Hstep; lia.
Qed.

Lemma pow2_nat (d : nat) : N.of_nat (2 ^ d) = (2 ^ N.of_nat d)%N.
Proof. by rewrite Nat2N.inj_pow. Qed.

Lemma low_bits_index x d : (N.to_nat (low_bits x d) < 2 ^ d)%nat.
Proof. pose proof (low_bits_lt x d). rewrite <- pow2_nat in H. lia. Qed.

Lemma pow2_le (d g : nat) : (d ≤ g)%nat → (2 ^ N.of_nat d ≤ 2 ^ N.of_nat g)%N.
Proof. intros. apply N.pow_le_mono_r; lia. Qed.

(** The [int] mask is defined up to depth 30, and not beyond. *)
Lemma mask_Some d : (d ≤ 30)%nat → mask d = Some (ones d).
Proof. intros Hd. unfold mask. destruct (Nat.ltb_spec d 31); [done|lia]. Qed.

Lemma mask_None d : (30 < d)%nat → mask d = None.
Proof. intros Hd. unfold mask. destruct (Nat.ltb_spec d 31); [lia|done]. Qed.

Section TableFacts.
Context {K : Type} `{EqDecision K} {V : Type}.
Variable hash : K → N.
Variable bucket_size : nat.

Implicit Types (l : list (K * V)) (k key : K) (v value : V).
Implicit Types (t : Table K V) (b : Bucket K V).

(** *** Buckets *)

Lemma bucket_find_None l key : bucket_find l key = None ↔ key ∉ l.*1.
Proof.
  induction l as [|[k v] l IH]; simpl.
  - split; [intros _; apply not_elem_of_nil | done].
  - destruct (decide (k = key)) as [->|Hne].
    + split; [done|]. intros Hn. destruct Hn. apply elem_of_cons. by left.
    + rewrite IH, not_elem_of_cons.
      split; [intros ?; split; [congruence|done] | by intros [_ ?]].
Qed.

Lemma bucket_find_Some l key v :
  bucket_find l key = Some v → (key, v) ∈ l.
Proof.
  induction l as [|[k v'] l IH]; simpl; [done|].
  destruct (decide (k = key)) as [->|Hne].
  - intros [= ->]. apply elem_of_cons. by left.
  - intros Hf. apply elem_of_cons. right. by apply IH.
Qed.

Lemma bucket_update_None l key value :
  bucket_update l key value = None ↔ key ∉ l.*1.
Proof.
  induction l as [|[k v] l IH]; simpl.
  - split; [intros _; apply not_elem_of_nil | done].
  - destruct (decide (k = key)) as [->|Hne].
    + split; [done|]. intros Hn. destruct Hn. apply elem_of_cons. by left.
    + rewrite fmap_None, IH, not_elem_of_cons.
      split; [intros ?; split; [congruence|done] | by intros [_ ?]].
Qed.

Lemma bucket_update_Some l key value l' :
  bucket_update l key value = Some l' →
  bucket_find l' key = Some value
  ∧ l'.*1 = l.*1
  ∧ (∀ k', k' ≠ key → bucket_find l' k' = bucket_find l k')
  ∧ (∀ k' v', (k', v') ∈ l' → k' ∈ l.*1).
Proof.
  revert l'. induction l as [|[k v] l IH]; simpl; intros l'; [done|].
  destruct (decide (k = key)) as [->|Hne].
  - intros [= <-]. simpl. rewrite decide_True by done.
    repeat split; [|].
    + intros k' Hk'. by rewrite !decide_False by done.
    + intros k' v' [[= -> ->] | Hin]%elem_of_cons; apply elem_of_cons;
        [by left|right]. by apply (list_elem_of_fmap_2 fst _ (k', v')).
  - intros (l0 & Hl0 & ->)%fmap_Some. destruct (IH _ Hl0) as (Hf & Hk & Ho & Hm).
    simpl. rewrite decide_False by done. repeat split; [done|by f_equal| |].
    + intros k' Hk'. destruct (decide (k = k')); [done|]. by apply Ho.
    + intros k' v' [[= -> ->] | Hin]%elem_of_cons; apply elem_of_cons;
        [by left|right]. by apply (Hm k' v').
Qed.

Lemma bucket_find_snoc l key value k' :
  key ∉ l.*1 →
  bucket_find (l ++ [(key, value)]) k'
  = if decide (key = k') then Some value else bucket_find l k'.
Proof.
  induction l as [|[k v] l IH]; simpl; [done|].
  intros [Hk Hl]%not_elem_of_cons.
  destruct (decide (k = k')) as [->|Hne].
  - by rewrite decide_False by done.
  - by apply IH.
Qed.

(** What [Bucket::Insert] does, by its answer. *)
Lemma bucket_insert_true l key value l' :
  bucket_insert bucket_size l key value = (true, l') →
  bucket_find l' key = Some value
  ∧ (∀ k', k' ≠ key → bucket_find l' k' = bucket_find l k')
  ∧ ((l'.*1) = (l.*1)
     ∨ ((key ∉ (l.*1)) ∧ l' = l ++ [(key, value)] ∧ (length l < bucket_size)%nat)).
Proof.
  unfold bucket_insert, IsFull.
  destruct (bucket_update l key value) as [l0|] eqn:Hu.
  - intros [= <-]. destruct (bucket_update_Some _ _ _ _ Hu) as (Hf & Hk & Ho & _).
    repeat split; [done..|by left].
  - apply bucket_update_None in Hu.
    destruct (Nat.leb_spec bucket_size (length l)); [done|]. intros [= <-].
    repeat split.
    + rewrite bucket_find_snoc by done. by rewrite decide_True.
    + intros k' Hk'. rewrite bucket_find_snoc by done. by rewrite decide_False.
    + by right.
Qed.

Lemma bucket_insert_false l key value l' :
  bucket_insert bucket_size l key value = (false, l') →
  l' = l ∧ (key ∉ (l.*1)) ∧ (bucket_size ≤ length l)%nat.
Proof.
  unfold bucket_insert, IsFull.
  destruct (bucket_update l key value) as [l0|] eqn:Hu; [done|].
  apply bucket_update_None in Hu.
  destruct (Nat.leb_spec bucket_size (length l)); [|done]. by intros [= <-].
Qed.

Lemma bucket_insert_cases l key value :
  (∃ l', bucket_update l key value = Some l'
         ∧ bucket_insert bucket_size l key value = (true, l'))
  ∨ ((key ∉ (l.*1)) ∧ (length l < bucket_size)%nat
     ∧ bucket_insert bucket_size l key value = (true, l ++ [(key, value)]))
  ∨ ((key ∉ (l.*1)) ∧ (bucket_size ≤ length l)%nat
     ∧ bucket_insert bucket_size l key value = (false, l)).
Proof.
  unfold bucket_insert, IsFull.
  destruct (bucket_update l key value) as [l0|] eqn:Hu; [left; eauto|right].
  apply bucket_update_None in Hu.
  destruct (Nat.leb_spec bucket_size (length l)); [right|left]; done.
Qed.

Lemma bucket_remove_spec l key :
  NoDup l.*1 →
  bucket_find (bucket_remove l key).2 key = None
  ∧ (∀ k', k' ≠ key → bucket_find (bucket_remove l key).2 k' = bucket_find l k')
  ∧ (∀ kv, kv ∈ (bucket_remove l key).2 → kv ∈ l)
  ∧ NoDup (bucket_remove l key).2.*1
  ∧ (length (bucket_remove l key).2 ≤ length l)%nat.
Proof.
  induction l as [|[k v] l IH]; simpl; intros Hnd.
  - repeat split; [done|constructor|done].
  - apply NoDup_cons in Hnd as [Hk Hnd]. destruct (IH Hnd) as (Hf & Ho & Hs & Hn & Hl).
    destruct (decide (k = key)) as [->|Hne]; simpl.
    + repeat split; [by apply bucket_find_None| | |done|lia].
      * intros k' Hk'. by rewrite decide_False by done.
      * intros kv Hkv. apply elem_of_cons. by right.
    + destruct (bucket_remove l key) as [found r] eqn:Hr. simpl in *.
      rewrite decide_False by done. repeat split; [done| | | |lia].
      * intros k' Hk'. destruct (decide (k = k')); [done|]. by apply Ho.
      * intros kv [->|Hin]%elem_of_cons; apply elem_of_cons; [by left|right].
        by apply Hs.
      * apply NoDup_cons. split; [|done]. intros Hin.
        apply list_elem_of_fmap in Hin as ([k1 v1] & -> & Hin). simpl in Hk.
        apply Hk. apply (list_elem_of_fmap_2 fst _ _ (Hs _ Hin)).
Qed.

Local Open Scope nat_scope.

Local Abbreviation Inv := (Inv hash bucket_size).
Local Abbreviation bucket_ok := (bucket_ok hash bucket_size).
Local Abbreviation slot := (slot hash).
Local Abbreviation IndexOf := (IndexOf hash).
Local Abbreviation Find := (Find hash).
Local Abbreviation Remove := (Remove hash).
Local Abbreviation Insert := (Insert hash bucket_size).
Local Abbreviation Insert_turn := (Insert_turn hash bucket_size).
Local Abbreviation stays := (stays (V:=V) hash).
Local Abbreviation split_table := (split_table hash).
Local Abbreviation turn_case := (turn_case hash bucket_size).
Local Abbreviation turn_done := (turn_done hash bucket_size).
Local Abbreviation turn_double := (turn_double hash bucket_size).
Local Abbreviation turn_split := (turn_split hash bucket_size).
Local Abbreviation progress := (progress hash).

(** *** The invariant, operation by operation *)

Lemma bucket_ok_with_store t st p b r :
  bucket_ok (with_store t st) p b r ↔ bucket_ok t p b r.
Proof. split; intros []; by constructor. Qed.

Lemma IndexOf_slot t key :
  global_depth_ t ≤ 30 → IndexOf t key = Some (slot t key).
Proof. intros Hg. unfold Directory.IndexOf. by rewrite mask_Some. Qed.

Lemma IndexOf_deep t key : 30 < global_depth_ t → IndexOf t key = None.
Proof. intros Hg. unfold Directory.IndexOf. by rewrite mask_None. Qed.

Lemma Inv_new_table : Inv (@new_table K V).
Proof.
  constructor; simpl; [done| | |done|lia].
  - intros [|i] p Hi; simplify_eq/=. lia.
  - intros [|p] b Hp; simplify_eq/=. exists 0%N. constructor; simpl.
    + lia.
    + lia.
    + intros i Hi. assert (i = 0) as -> by lia. done.
    + intros k v Hin. by apply elem_of_nil in Hin.
    + constructor.
    + lia.
Qed.

Lemma slot_lt t key : Inv t → slot t key < length (dir_ t).
Proof. intros HI. rewrite (inv_length _ _ _ HI). apply low_bits_index. Qed.

Lemma target_exists t key :
  Inv t → ∃ p b, dir_ t !! slot t key = Some p ∧ store_ t !! p = Some b.
Proof.
  intros HI. destruct (lookup_lt_is_Some_2 _ _ (slot_lt t key HI)) as [p Hp].
  destruct (lookup_lt_is_Some_2 _ _ (inv_dir _ _ _ HI _ _ Hp)) as [b Hb].
  by exists p, b.
Qed.

Lemma bucket_at_eq t i p b :
  dir_ t !! i = Some p → store_ t !! p = Some b → bucket_at t i = Some (p, b).
Proof. intros Hp Hb. unfold bucket_at. rewrite Hp. simpl. by rewrite Hb. Qed.

(** The key's own hash has the residue of the bucket it is sent to. *)
Lemma target_residue t key p b r :
  Inv t → dir_ t !! slot t key = Some p → bucket_ok t p b r →
  low_bits (hash key) (depth_ b) = r.
Proof.
  intros HI Hp Hok.
  pose proof (proj1 (ok_slots _ _ _ _ _ _ Hok _ (slot_lt t key HI)) Hp) as Hr.
  unfold Directory.slot in Hr. rewrite N2Nat.id in Hr.
  rewrite <- Hr. symmetry. apply low_bits_low. by destruct Hok.
Qed.

Lemma Inv_set_list t p b l' :
  Inv t → store_ t !! p = Some b →
  (∀ r k v, bucket_ok t p b r → (k, v) ∈ l' →
            low_bits (hash k) (depth_ b) = r) →
  NoDup (l'.*1) → length l' ≤ bucket_size →
  Inv (with_store t (<[p := {| depth_ := depth_ b; list_ := l' |}]> (store_ t))).
Proof.
  intros [Hl Hd Hb Hc Hg] Hp Hkeys Hnd Hlen. constructor; simpl; [| | | |done].
  - done.
  - intros i q Hi. rewrite length_insert. eauto.
  - intros q b' [(-> & <- & Hlt) | (Hne & Hq)]%list_lookup_insert_Some.
    + destruct (Hb _ _ Hp) as [r Hok]. exists r. apply bucket_ok_with_store.
      pose proof (Hkeys r) as Hk. destruct Hok. constructor; simpl; try done.
      intros k v Hin. apply (Hk k v); [by constructor|done].
    + destruct (Hb _ _ Hq) as [r Hok]. exists r. by apply bucket_ok_with_store.
  - by rewrite length_insert.
Qed.

Lemma doubled_lookup t i :
  Inv t → i < length (dir_ t ++ dir_ t) →
  ∃ j, j < length (dir_ t) ∧ (dir_ t ++ dir_ t) !! i = dir_ t !! j
       ∧ ∀ d, d ≤ global_depth_ t →
           low_bits (N.of_nat i) d = low_bits (N.of_nat j) d.
Proof.
  intros HI Hi. rewrite length_app in Hi.
  destruct (decide (i < length (dir_ t))) as [Hlt|Hge].
  - exists i. split; [done|]. split; [by apply lookup_app_l|done].
  - exists (i - length (dir_ t)). split; [lia|]. split; [apply lookup_app_r; lia|].
    intros d Hd.
    replace (N.of_nat i)
      with (N.of_nat (i - length (dir_ t)) + 1 * 2 ^ N.of_nat (global_depth_ t))%N.
    + by apply low_bits_add_pow.
    + rewrite <- pow2_nat, <- (inv_length _ _ _ HI). lia.
Qed.

Lemma Inv_double t : Inv t → global_depth_ t < 30 → Inv (doubled t).
Proof.
  intros HI Hg. pose proof HI as [Hl Hd Hb Hc _]. constructor; simpl; [| | | |lia].
  - rewrite length_app, Hl. lia.
  - intros i q [Hi|[_ Hi]]%lookup_app_Some; eauto.
  - intros q b Hq. destruct (Hb _ _ Hq) as [r Hok]. exists r.
    destruct Hok as [H1 H2 H3 H4 H5 H6]. constructor; simpl; try done; [lia|].
    intros i Hi. destruct (doubled_lookup t i HI Hi) as (j & Hj & -> & Hlow).
    rewrite (Hlow _ H1). by apply H3.
  - done.
Qed.

Lemma split_items_spec d r items : ∀ nb,
  NoDup ((nb ++ items).*1) → length nb + length items ≤ bucket_size →
  split_items hash bucket_size (ones d) r items nb
  = (filter (stays d r) items, nb ++ filter (λ kv, ¬ stays d r kv) items).
Proof.
  induction items as [|[k v] items IH]; intros nb Hnd Hlen; simpl.
  - by rewrite app_nil_r.
  - simpl in Hlen. destruct (N.eqb_spec (N.land (hash k) (ones d)) r) as [He|He].
    + rewrite IH.
      * rewrite filter_cons_True by done.
        rewrite (filter_cons_False (λ kv, ¬ stays d r kv)); [done|].
        intros Hn. by apply Hn.
      * rewrite fmap_app in *. simpl in Hnd.
        apply NoDup_app in Hnd as (H1 & H2 & H3). apply NoDup_cons in H3 as [_ H3].
        apply NoDup_app. repeat split; [done| |done].
        intros x Hx Hx'. apply (H2 x Hx). apply elem_of_cons. by right.
      * lia.
    + assert (Hk : k ∉ nb.*1).
      { rewrite fmap_app in Hnd. apply NoDup_app in Hnd as (_ & H2 & _).
        intros Hin. apply (H2 k Hin). simpl. apply elem_of_cons. by left. }
      assert (Hins : bucket_insert bucket_size nb k v = (true, nb ++ [(k, v)])).
      { unfold bucket_insert, IsFull.
        rewrite (proj2 (bucket_update_None nb k v) Hk).
        destruct (Nat.leb_spec bucket_size (length nb)); [lia|done]. }
      rewrite Hins. simpl. rewrite IH.
      * rewrite filter_cons_False by done.
        rewrite (filter_cons_True (λ kv, ¬ stays d r kv)) by done.
        by rewrite <- app_assoc.
      * by rewrite <- app_assoc.
      * rewrite length_app. simpl. lia.
Qed.

Lemma Redistribute_split t p b r :
  store_ t !! p = Some b → bucket_ok t p b r → list_ b ≠ [] → depth_ b < 30 →
  RedistributeBucket hash bucket_size
    (with_store t (<[p := {| depth_ := S (depth_ b); list_ := list_ b |}]> (store_ t))) p
  = Some (split_table t p b r).
Proof.
  intros Hp Hok Hne Hd30. unfold RedistributeBucket. simpl.
  rewrite list_lookup_insert_eq by (by eapply lookup_lt_Some). simpl.
  rewrite !mask_Some by lia. simpl.
  destruct (list_ b) as [|[k0 v0] rest] eqn:Hl; [done|].
  assert (Hr : N.land (hash k0) (ones (depth_ b)) = r).
  { apply (ok_keys _ _ _ _ _ _ Hok k0 v0). rewrite Hl. apply elem_of_cons. by left. }
  rewrite Hr, <- Hl.
  rewrite split_items_spec.
  - unfold split_table. simpl. by rewrite length_insert, list_insert_insert_eq.
  - simpl. by destruct Hok.
  - simpl. by destruct Hok.
Qed.

Lemma moves_slot_spec d r i :
  (r < 2 ^ N.of_nat d)%N →
  moves_slot (ones d) (ones (S d)) r i = true
  ↔ low_bits (N.of_nat i) (S d) = (r + 2 ^ N.of_nat d)%N.
Proof.
  intros Hr. rewrite <- (low_bits_move _ d r Hr). unfold moves_slot, low_bits.
  rewrite andb_true_iff, negb_true_iff, N.eqb_eq, N.eqb_neq. done.
Qed.

Lemma split_dir_lookup t p b r i q :
  dir_ t !! i = Some q →
  dir_ (split_table t p b r) !! i
  = Some (if moves_slot (ones (depth_ b)) (ones (S (depth_ b))) r i
          then length (store_ t) else q).
Proof. intros Hq. simpl. by rewrite list_lookup_imap, Hq. Qed.

Lemma split_store_lookup t p b r q b' :
  store_ t !! p = Some b →
  store_ (split_table t p b r) !! q = Some b' ↔
    (q = p ∧ b' = {| depth_ := S (depth_ b);
                     list_ := filter (stays (S (depth_ b)) r) (list_ b) |})
    ∨ (q ≠ p ∧ store_ t !! q = Some b')
    ∨ (q = length (store_ t)
       ∧ b' = {| depth_ := S (depth_ b);
                 list_ := filter (λ kv, ¬ stays (S (depth_ b)) r kv) (list_ b) |}).
Proof.
  intros Hp. pose proof (lookup_lt_Some _ _ _ Hp) as Hlt. simpl.
  rewrite lookup_app_Some, list_lookup_insert_Some, length_insert.
  rewrite list_lookup_singleton_Some. split.
  - intros [[(-> & <- & _) | (Hne & Hq)] | (Hge & Hz & <-)].
    + by left.
    + right. by left.
    + right. right. split; [lia|done].
  - intros [(-> & ->) | [(Hne & Hq) | (-> & ->)]].
    + left. left. done.
    + left. right. split; [congruence|done].
    + right. split; [lia|]. split; [lia|done].
Qed.

Lemma Inv_split t p b r :
  Inv t → store_ t !! p = Some b → bucket_ok t p b r →
  depth_ b < global_depth_ t → Inv (split_table t p b r).
Proof.
  intros HI Hp Hok Hdepth. pose proof HI as [Hl Hd Hb Hc].
  pose proof (lookup_lt_Some _ _ _ Hp) as Hplt.
  pose proof Hok as [O1 O2 O3 O4 O5 O6].
  assert (Hmv : ∀ i, moves_slot (ones (depth_ b)) (ones (S (depth_ b))) r i = true
                 ↔ low_bits (N.of_nat i) (S (depth_ b)) = (r + 2 ^ N.of_nat (depth_ b))%N)
    by (intros i; by apply moves_slot_spec).
  assert (Hpow : (2 ^ N.of_nat (S (depth_ b)) = 2 * 2 ^ N.of_nat (depth_ b))%N).
  { replace (N.of_nat (S (depth_ b))) with (N.succ (N.of_nat (depth_ b))) by lia.
    apply N.pow_succ_r'. }
  constructor.
  - simpl. by rewrite length_imap.
  - intros i q Hi. simpl in Hi. rewrite list_lookup_imap in Hi.
    destruct (dir_ t !! i) as [q0|] eqn:Hq0; simplify_eq/=.
    rewrite length_app, length_insert. simpl. specialize (Hd _ _ Hq0).
    destruct (moves_slot _ _ _ _); lia.
  - intros q b' Hq. apply (split_store_lookup t p b r q b' Hp) in Hq.
    destruct Hq as [(-> & ->) | [(Hne & Hq) | (-> & ->)]].
    + (* the bucket that was split keeps residue [r] *)
      exists r. constructor; simpl.
      * lia.
      * lia.
      * intros i Hi. rewrite length_imap in Hi.
        destruct (lookup_lt_is_Some_2 _ _ Hi) as [q0 Hq0].
        rewrite list_lookup_imap, Hq0. simpl.
        destruct (moves_slot _ _ _ i) eqn:Hm.
        -- apply Hmv in Hm. split; [intros [= ?]; lia | intros ?; lia].
        -- split.
           ++ intros [= ->]. apply (O3 i Hi) in Hq0.
              destruct (low_bits_step (N.of_nat i) (depth_ b)) as (c & Hc2 & Hst).
              assert (c = 0 ∨ c = 1)%N as [-> | ->] by lia; [lia|].
              assert (moves_slot (ones (depth_ b)) (ones (S (depth_ b))) r i = true)
                by (apply Hmv; lia).
              congruence.
           ++ intros Hr. apply low_bits_stay in Hr; [|done].
              apply (O3 i Hi) in Hr. congruence.
      * intros k v [Hs _]%list_elem_of_filter. exact Hs.
      * apply (sublist_NoDup _ (list_ b).*1); [done|].
        apply fmap_sublist, sublist_filter.
      * pose proof (length_filter (stays (S (depth_ b)) r) (list_ b)). lia.
    + (* the other buckets keep their slots *)
      destruct (Hb _ _ Hq) as [r' Hok']. exists r'.
      destruct Hok' as [P1 P2 P3 P4 P5 P6]. constructor; simpl; try done.
      intros i Hi. rewrite length_imap in Hi.
      destruct (lookup_lt_is_Some_2 _ _ Hi) as [q0 Hq0].
      rewrite list_lookup_imap, Hq0. simpl.
      destruct (moves_slot _ _ _ i) eqn:Hm.
      -- apply Hmv in Hm. apply (proj2 (low_bits_move _ _ r O2)) in Hm as [Hm _].
         apply (O3 i Hi) in Hm. rewrite <- (P3 i Hi).
         pose proof (lookup_lt_Some _ _ _ Hq).
         split; [intros [= ?]; lia | intros ?; congruence].
      -- rewrite <- (P3 i Hi). by rewrite Hq0.
    + (* the new bucket takes residue [r + 2^d] *)
      exists (r + 2 ^ N.of_nat (depth_ b))%N. constructor; simpl.
      * lia.
      * lia.
      * intros i Hi. rewrite length_imap in Hi.
        destruct (lookup_lt_is_Some_2 _ _ Hi) as [q0 Hq0].
        rewrite list_lookup_imap, Hq0. simpl. rewrite <- Hmv.
        destruct (moves_slot _ _ _ i); [done|].
        specialize (Hd _ _ Hq0). split; [intros [= ?]; lia | done].
      * intros k v [Hs Hin]%list_elem_of_filter.
        apply (proj1 (low_bits_move _ _ r O2)). split; [by apply (O4 k v)|exact Hs].
      * apply (sublist_NoDup _ (list_ b).*1); [done|].
        apply fmap_sublist, sublist_filter.
      * pose proof (length_filter (λ kv, ¬ stays (S (depth_ b)) r kv) (list_ b)). lia.
  - simpl. rewrite length_app, length_insert. simpl. lia.
  - simpl. apply (inv_depth _ _ _ HI).
Qed.

(** *** One turn of the loop of [Insert] *)

Lemma Insert_turn_case t key value :
  1 ≤ bucket_size → Inv t → turn_case t key value (Insert_turn t key value).
Proof.
  intros Hsz HI. destruct (target_exists t key HI) as (p & b & Hp & Hb).
  destruct (inv_buckets _ _ _ HI _ _ Hb) as [r Hok].
  pose proof (inv_depth _ _ _ HI) as Hg. pose proof (ok_depth _ _ _ _ _ _ Hok) as Hdg.
  unfold Directory.Insert_turn. rewrite (IndexOf_slot t key Hg). simpl.
  rewrite (bucket_at_eq _ _ _ _ Hp Hb).
  destruct (bucket_insert bucket_size (list_ b) key value) as [[|] l'] eqn:Hins.
  - by apply (turn_done t key value p b r l').
  - apply bucket_insert_false in Hins as (-> & Hk & Hfull).
    destruct (Nat.eqb_spec (depth_ b) (global_depth_ t)) as [He|Hne].
    + by apply (turn_double t key value p b r).
    + rewrite (Redistribute_split t p b r Hb Hok).
      * apply (turn_split t key value p b r); try done. lia.
      * intros Hnil. rewrite Hnil in Hfull. simpl in Hfull. lia.
      * lia.
Qed.

(** A table deeper than 30 stops the loop: the shift of [IndexOf] is
    undefined. *)
Lemma Insert_turn_deep t key value :
  30 < global_depth_ t → Insert_turn t key value = Stuck.
Proof. intros Hg. unfold Directory.Insert_turn. by rewrite (IndexOf_deep t key Hg). Qed.

Lemma Insert_Some_depth fuel t key value t' :
  Insert fuel t key value = Some t' → global_depth_ t ≤ 30.
Proof.
  destruct fuel as [|fuel]; [done|]. simpl.
  destruct (decide (global_depth_ t ≤ 30)) as [|Hg]; [done|].
  rewrite Insert_turn_deep by lia. done.
Qed.

Lemma turn_done_keys t key value p b r l' :
  Inv t → dir_ t !! slot t key = Some p → store_ t !! p = Some b →
  bucket_ok t p b r →
  bucket_insert bucket_size (list_ b) key value = (true, l') →
  Inv (with_store t (<[p := {| depth_ := depth_ b; list_ := l' |}]> (store_ t))).
Proof.
  intros HI Hp Hb Hok Hins.
  pose proof (target_residue t key p b r HI Hp Hok) as Hres.
  pose proof Hok as [O1 O2 O3 O4 O5 O6].
  destruct (bucket_insert_cases (list_ b) key value)
    as [(l0 & Hu & Hc) | [(Hk & Hlen & Hc) | (_ & _ & Hc)]];
    rewrite Hc in Hins;
    [injection Hins as <- | injection Hins as <- | discriminate].
  - destruct (bucket_update_Some _ _ _ _ Hu) as (_ & Hkeys & _ & Hmem).
    apply Inv_set_list; [done..| |by rewrite Hkeys|].
    + intros r' k v Hok' Hin.
      assert (r' = r) as ->.
      { rewrite <- Hres. symmetry. by apply (target_residue t key p b). }
      destruct (decide (k = key)) as [->|Hne]; [done|].
      apply (Hmem k v) in Hin. apply list_elem_of_fmap in Hin as ([k1 v1] & -> & Hin).
      by apply (O4 k1 v1).
    + rewrite <- (length_fmap fst), Hkeys, length_fmap. done.
  - apply Inv_set_list; [done..| | |].
    + intros r' k v Hok' [Hin | Hin%list_elem_of_singleton]%elem_of_app.
      * by apply (ok_keys _ _ _ _ _ _ Hok' k v).
      * injection Hin as -> ->. by apply (target_residue t key p b).
    + rewrite fmap_app. apply NoDup_app. repeat split; [done| |].
      * intros x Hx Hx'%list_elem_of_singleton. simpl in Hx'. by subst.
      * simpl. apply NoDup_singleton.
    + rewrite length_app. simpl. lia.
Qed.

Lemma Inv_turn t key value :
  Inv t → ∀ tn, turn_case t key value tn →
  match tn with
  | Done t' => Inv t'
  | Again t' => global_depth_ t' ≤ 30 → Inv t'
  | Stuck => False
  end.
Proof.
  intros HI tn [p b r l' Hp Hb Hok Hins | p b r Hp Hb Hok _ _ _ | p b r Hp Hb Hok _ _ Hd].
  - by apply (turn_done_keys t key value p b r).
  - simpl. intros Hg. apply Inv_double; [done|lia].
  - intros _. by apply Inv_split.
Qed.

(** *** What [Find] sees *)

Lemma Find_eq t k p b :
  global_depth_ t ≤ 30 →
  dir_ t !! slot t k = Some p → store_ t !! p = Some b →
  Find t k = bucket_find (list_ b) k.
Proof.
  intros Hg Hp Hb. unfold Directory.Find. rewrite (IndexOf_slot t k Hg). simpl.
  by rewrite (bucket_at_eq _ _ _ _ Hp Hb).
Qed.

Lemma Find_set_list t p b l' k :
  Inv t → store_ t !! p = Some b →
  Find (with_store t (<[p := {| depth_ := depth_ b; list_ := l' |}]> (store_ t))) k
  = if decide (dir_ t !! slot t k = Some p) then bucket_find l' k else Find t k.
Proof.
  intros HI Hb. destruct (target_exists t k HI) as (q & bq & Hq & Hbq).
  pose proof (lookup_lt_Some _ _ _ Hb) as Hlt.
  pose proof (inv_depth _ _ _ HI) as Hg.
  destruct (decide (dir_ t !! slot t k = Some p)) as [Hp|Hnp].
  - apply (Find_eq _ k p {| depth_ := depth_ b; list_ := l' |}); [done|done|].
    simpl. by apply list_lookup_insert_eq.
  - rewrite (Find_eq t k q bq Hg Hq Hbq).
    apply (Find_eq _ k q bq); [done|done|]. simpl.
    rewrite list_lookup_insert_ne; [done|congruence].
Qed.

Lemma bucket_find_filter (P : K * V → Prop) `{∀ kv, Decision (P kv)} l k :
  (∀ v, P (k, v)) → bucket_find (filter P l) k = bucket_find l k.
Proof.
  intros HP. induction l as [|[k1 v1] l IH]; [done|].
  destruct (decide (P (k1, v1))) as [Hy|Hn].
  - rewrite filter_cons_True by done. simpl. by rewrite IH.
  - rewrite filter_cons_False by done. simpl.
    destruct (decide (k1 = k)) as [->|_]; [|done]. destruct Hn. apply HP.
Qed.

Lemma doubled_target t k :
  Inv t → dir_ (doubled t) !! slot (doubled t) k = dir_ t !! slot t k.
Proof.
  intros HI.
  assert (Hlt : slot (doubled t) k < length (dir_ (doubled t))).
  { simpl. rewrite length_app, (inv_length _ _ _ HI).
    pose proof (low_bits_index (hash k) (S (global_depth_ t))) as Hi.
    unfold Directory.slot. simpl in *. lia. }
  simpl in *.
  destruct (doubled_lookup t _ HI Hlt) as (j & Hj & -> & Hlow). f_equal.
  specialize (Hlow (global_depth_ t) (le_n _)).
  unfold Directory.slot in *. simpl in Hlow. rewrite N2Nat.id in Hlow.
  fold (low_bits (hash k) (S (global_depth_ t))) in Hlow.
  rewrite low_bits_low in Hlow by lia.
  rewrite (low_bits_small (N.of_nat j)) in Hlow.
  - fold (low_bits (hash k) (global_depth_ t)). rewrite Hlow. lia.
  - rewrite <- pow2_nat, <- (inv_length _ _ _ HI). lia.
Qed.

Lemma Find_doubled t k :
  Inv t → global_depth_ t < 30 → Find (doubled t) k = Find t k.
Proof.
  intros HI Hg. destruct (target_exists t k HI) as (q & bq & Hq & Hbq).
  rewrite (Find_eq t k q bq (inv_depth _ _ _ HI) Hq Hbq).
  apply (Find_eq _ k q bq); [simpl; lia| |done].
  by rewrite doubled_target.
Qed.

(** Where [k] goes after the split of [p]. *)
Lemma split_target t p b r k q bq :
  Inv t → store_ t !! p = Some b → bucket_ok t p b r →
  depth_ b < global_depth_ t →
  dir_ t !! slot t k = Some q → store_ t !! q = Some bq →
  ∃ q' bq', dir_ (split_table t p b r) !! slot (split_table t p b r) k = Some q'
    ∧ store_ (split_table t p b r) !! q' = Some bq'
    ∧ bucket_find (list_ bq') k = bucket_find (list_ bq) k
    ∧ depth_ bq' = (if decide (q = p) then S (depth_ bq) else depth_ bq)
    ∧ length (list_ bq') ≤ length (list_ bq).
Proof.
  intros HI Hb Hok Hd Hq Hbq. pose proof Hok as [O1 O2 O3 O4 O5 O6].
  pose proof (slot_lt t k HI) as Hlt.
  pose proof (lookup_lt_Some _ _ _ Hb) as Hplt.
  pose proof (lookup_lt_Some _ _ _ Hbq) as Hqlt.
  assert (Hidx : low_bits (N.of_nat (slot t k)) (S (depth_ b))
                 = low_bits (hash k) (S (depth_ b))).
  { unfold Directory.slot. rewrite N2Nat.id. apply low_bits_low. lia. }
  change (slot (split_table t p b r) k) with (slot t k).
  rewrite (split_dir_lookup t p b r _ q Hq).
  destruct (moves_slot _ _ _ (slot t k)) eqn:Hm.
  - apply moves_slot_spec in Hm; [|done]. rewrite Hidx in Hm.
    pose proof (proj2 (low_bits_move _ _ r O2) Hm) as [Hm1 Hm2].
    assert (q = p) as ->.
    { assert (dir_ t !! slot t k = Some p) as Hp; [|congruence].
      apply (O3 _ Hlt). rewrite <- Hm1. unfold Directory.slot.
      rewrite N2Nat.id. apply low_bits_low. lia. }
    assert (bq = b) as -> by congruence.
    eexists _, _. split; [done|]. split.
    { apply (split_store_lookup t p b r); [done|]. right. right. done. }
    simpl. rewrite decide_True by done. repeat split.
    + apply bucket_find_filter. intros v. unfold stays. simpl. lia.
    + apply length_filter.
  - destruct (decide (q = p)) as [->|Hne].
    + assert (bq = b) as -> by congruence.
      eexists _, _. split; [done|]. split.
      { apply (split_store_lookup t p b r); [done|]. left. done. }
      simpl. repeat split; [|apply length_filter].
      apply bucket_find_filter. intros v. unfold stays. simpl.
      apply (O3 _ Hlt) in Hq.
      assert (Hq' : low_bits (hash k) (depth_ b) = r).
      { rewrite <- Hq. unfold Directory.slot. rewrite N2Nat.id.
        symmetry. apply low_bits_low. lia. }
      destruct (low_bits_step (hash k) (depth_ b)) as (c & Hc2 & Hst).
      assert (c = 0 ∨ c = 1)%N as [-> | ->] by lia; [lia|].
      assert (moves_slot (ones (depth_ b)) (ones (S (depth_ b))) r (slot t k) = true);
        [|congruence].
      apply moves_slot_spec; [done|]. rewrite Hidx. lia.
    + exists q, bq. split; [done|]. split.
      { apply (split_store_lookup t p b r); [done|]. right. left. done. }
      done.
Qed.

Lemma Find_split t p b r k :
  Inv t → store_ t !! p = Some b → bucket_ok t p b r →
  depth_ b < global_depth_ t → Find (split_table t p b r) k = Find t k.
Proof.
  intros HI Hb Hok Hd. destruct (target_exists t k HI) as (q & bq & Hq & Hbq).
  destruct (split_target t p b r k q bq HI Hb Hok Hd Hq Hbq)
    as (q' & bq' & Hq' & Hbq' & Hfind & _).
  pose proof (inv_depth _ _ _ HI) as Hg.
  by rewrite (Find_eq (split_table t p b r) k q' bq' Hg Hq' Hbq'),
    (Find_eq t k q bq Hg Hq Hbq).
Qed.

(** A turn that goes round again leaves every binding where it was; the
    turn that ends the loop binds [key] and leaves the other keys. *)
Lemma Find_turn t key value tn :
  Inv t → turn_case t key value tn → ∀ k,
  match tn with
  | Done t' => Find t' k = if decide (k = key) then Some value else Find t k
  | Again t' => global_depth_ t' ≤ 30 → Find t' k = Find t k
  | Stuck => False
  end.
Proof.
  intros HI [p b r l' Hp Hb Hok Hins | p b r Hp Hb Hok _ _ _ | p b r Hp Hb Hok _ _ Hd] k.
  - rewrite (Find_set_list t p b l' k HI Hb).
    destruct (bucket_insert_true _ _ _ _ Hins) as (Hf & Ho & _).
    destruct (decide (k = key)) as [->|Hne].
    + by rewrite decide_True.
    + destruct (decide _) as [Hkp|]; [|done].
      by rewrite (Find_eq t k p b (inv_depth _ _ _ HI) Hkp Hb), Ho.
  - simpl. intros Hg. apply Find_doubled; [done|lia].
  - intros _. by apply Find_split.
Qed.

(** *** [Insert] and [Remove] as a whole *)

Lemma Insert_sound fuel : ∀ t key value t',
  1 ≤ bucket_size → Inv t → Insert fuel t key value = Some t' →
  Inv t' ∧ ∀ k, Find t' k = if decide (k = key) then Some value else Find t k.
Proof.
  induction fuel as [|fuel IH]; intros t key value t' Hsz HI Hins; [done|].
  simpl in Hins. pose proof (Insert_turn_case t key value Hsz HI) as Hc.
  pose proof (Inv_turn t key value HI _ Hc) as Hinv.
  pose proof (Find_turn t key value _ HI Hc) as Hfind.
  destruct (Insert_turn t key value) as [t1|t1|].
  - injection Hins as <-. done.
  - pose proof (Insert_Some_depth fuel t1 key value t' Hins) as Hg.
    destruct (IH t1 key value t' Hsz (Hinv Hg) Hins) as [HI' Hf]. split; [done|].
    intros k. by rewrite Hf, Hfind.
  - done.
Qed.

Lemma Remove_eq t key p b :
  global_depth_ t ≤ 30 →
  dir_ t !! slot t key = Some p → store_ t !! p = Some b →
  Remove t key
  = ((bucket_remove (list_ b) key).1,
     with_store t (<[p := {| depth_ := depth_ b;
                             list_ := (bucket_remove (list_ b) key).2 |}]> (store_ t))).
Proof.
  intros Hg Hp Hb. unfold Directory.Remove. rewrite (IndexOf_slot t key Hg). simpl.
  rewrite (bucket_at_eq _ _ _ _ Hp Hb).
  by destruct (bucket_remove (list_ b) key).
Qed.

Lemma Inv_Remove t key : Inv t → Inv (Remove t key).2.
Proof.
  intros HI. destruct (target_exists t key HI) as (p & b & Hp & Hb).
  rewrite (Remove_eq t key p b (inv_depth _ _ _ HI) Hp Hb). simpl.
  destruct (inv_buckets _ _ _ HI _ _ Hb) as [r Hok].
  destruct (bucket_remove_spec (list_ b) key (ok_nodup _ _ _ _ _ _ Hok))
    as (_ & _ & Hsub & Hnd & Hlen).
  apply Inv_set_list; [done..| |done|].
  - intros r' k v Hok' Hin. apply (ok_keys _ _ _ _ _ _ Hok' k v). by apply Hsub.
  - pose proof (ok_length _ _ _ _ _ _ Hok). lia.
Qed.

Lemma Find_Remove t key k :
  Inv t → Find (Remove t key).2 k = if decide (k = key) then None else Find t k.
Proof.
  intros HI. destruct (target_exists t key HI) as (p & b & Hp & Hb).
  rewrite (Remove_eq t key p b (inv_depth _ _ _ HI) Hp Hb). simpl.
  destruct (inv_buckets _ _ _ HI _ _ Hb) as [r Hok].
  destruct (bucket_remove_spec (list_ b) key (ok_nodup _ _ _ _ _ _ Hok))
    as (Hgone & Hother & _).
  rewrite (Find_set_list t p b _ k HI Hb).
  destruct (decide (k = key)) as [->|Hne].
  - by rewrite decide_True.
  - destruct (decide _) as [Hkp|]; [|done].
    by rewrite (Find_eq t k p b (inv_depth _ _ _ HI) Hkp Hb), Hother.
Qed.

Lemma reachable_Inv t : 1 ≤ bucket_size → reachable hash bucket_size t → Inv t.
Proof.
  intros Hsz Hr. induction Hr as [|t fuel key value t' _ IH Hins|t key _ IH].
  - apply Inv_new_table.
  - by destruct (Insert_sound fuel t key value t' Hsz IH Hins).
  - by apply Inv_Remove.
Qed.

Lemma Inv_shape t : Inv t → directory_shape t.
Proof.
  intros HI. split; [by destruct HI|]. intros p b Hb.
  destruct (inv_buckets _ _ _ HI _ _ Hb) as [r [O1 _ O3 _ _ _]]. split; [done|].
  intros i j Hi Hj.
  rewrite (proj1 (O3 i (lookup_lt_Some _ _ _ Hi)) Hi).
  by rewrite (proj1 (O3 j (lookup_lt_Some _ _ _ Hj)) Hj).
Qed.

(** *** Termination of the loop *)

Lemma separated_turn W t key value tn :
  separated hash W t key → turn_case t key value tn →
  match tn with Again t' => separated hash W t' key | _ => True end.
Proof.
  intros Hsep [p b r l' Hp Hb Hok Hins | p b r Hp Hb Hok _ _ _ | p b r Hp Hb Hok _ _ Hd];
    [done|done|].
  intros q bq k v Hq Hin.
  apply (split_store_lookup t p b r q bq Hb) in Hq
    as [(-> & ->) | [(Hne & Hq) | (-> & ->)]]; simpl in Hin.
  - apply list_elem_of_filter in Hin as [_ Hin]. by apply (Hsep p b k v).
  - by apply (Hsep q bq k v).
  - apply list_elem_of_filter in Hin as [_ Hin]. by apply (Hsep p b k v).
Qed.

(** A bucket that refuses [key] is shallower than the width at which the
    hash tells [key] from the stored keys. *)
Lemma full_bucket_shallow W t key p b r :
  1 ≤ bucket_size → Inv t → separated hash W t key →
  dir_ t !! slot t key = Some p → store_ t !! p = Some b →
  bucket_ok t p b r →
  key ∉ (list_ b).*1 → bucket_size ≤ length (list_ b) → depth_ b < W.
Proof.
  intros Hsz HI Hsep Hp Hb Hok Hk Hfull.
  destruct (decide (depth_ b < W)) as [|Hge]; [done|]. exfalso.
  destruct (list_ b) as [|[k0 v0] rest] eqn:Hl; [simpl in Hfull; lia|].
  assert (Hin : (k0, v0) ∈ list_ b) by (rewrite Hl; apply elem_of_cons; by left).
  apply Hk. simpl. apply elem_of_cons. left. symmetry.
  apply (Hsep p b k0 v0 Hb Hin).
  rewrite <- (low_bits_low (hash k0) W (depth_ b)) by lia.
  rewrite <- (low_bits_low (hash key) W (depth_ b)) by lia.
  by rewrite (ok_keys _ _ _ _ _ _ Hok k0 v0 Hin), (target_residue t key p b r HI Hp Hok).
Qed.

Lemma target_depth_eq t key p b :
  dir_ t !! slot t key = Some p → store_ t !! p = Some b →
  target_depth hash t key = depth_ b ∧ target_pointer hash t key = p.
Proof.
  intros Hp Hb. unfold target_depth, target_pointer.
  by rewrite (bucket_at_eq _ _ _ _ Hp Hb), Hp.
Qed.

Lemma progress_turn t key value t' :
  Inv t → turn_case t key value (Again t') → progress t t' key.
Proof.
  intros HI Hc. inversion Hc as [| p b r Hp Hb Hok _ _ Hd | p b r Hp Hb Hok _ _ Hd]; subst.
  - left. destruct (target_depth_eq t key p b Hp Hb) as [-> _].
    split; [done|]. split; [|done].
    apply (target_depth_eq (doubled t) key p b); [|done].
    by rewrite doubled_target.
  - right. destruct (target_depth_eq t key p b Hp Hb) as [-> ->].
    destruct (split_target t p b r key p b HI Hb Hok Hd Hp Hb)
      as (q' & bq' & Hq' & Hbq' & _ & Hdep & Hlen).
    destruct (target_depth_eq _ key q' bq' Hq' Hbq') as [-> ->].
    rewrite decide_True in Hdep by done.
    split; [done|]. split; [done|].
    unfold load. rewrite Hb, Hbq'.
    assert (store_ (split_table t p b r) !! p
            = Some {| depth_ := S (depth_ b);
                      list_ := filter (stays (S (depth_ b)) r) (list_ b) |}) as ->.
    { apply (split_store_lookup t p b r); [done|]. by left. }
    simpl. split; [apply length_filter|done].
Qed.

Lemma Insert_enough W G key value :
  1 ≤ bucket_size → W ≤ G → G ≤ 30 → ∀ fuel t,
  Inv t → separated hash W t key → global_depth_ t ≤ G →
  (G - global_depth_ t) + (G - target_depth hash t key) < fuel →
  ∃ t', Insert fuel t key value = Some t' ∧ global_depth_ t' ≤ G.
Proof.
  intros Hsz HW HG30. induction fuel as [|fuel IH]; intros t HI Hsep HG Hfuel; [lia|].
  simpl. pose proof (Insert_turn_case t key value Hsz HI) as Hc.
  pose proof (Inv_turn t key value HI _ Hc) as Hinv.
  pose proof (separated_turn W t key value _ Hsep Hc) as Hsep'.
  destruct (Insert_turn t key value) as [t1|t1|] eqn:Ht; [| |done].
  { exists t1. split; [done|]. by inversion Hc; subst. }
  pose proof (progress_turn t key value t1 HI Hc) as Hprog.
  assert (Hdepth : target_depth hash t key ≤ global_depth_ t).
  { destruct (target_exists t key HI) as (p & b & Hp & Hb).
    destruct (target_depth_eq t key p b Hp Hb) as [-> _].
    destruct (inv_buckets _ _ _ HI _ _ Hb) as [r Hok]. by destruct Hok. }
  assert (Hg1 : global_depth_ t1 ≤ G).
  { inversion Hc as [| p b r Hp Hb Hok Hk Hfull Hd | p b r Hp Hb Hok _ _ Hd]; subst.
    + pose proof (full_bucket_shallow W t key p b r Hsz HI Hsep Hp Hb Hok Hk Hfull).
      simpl. lia.
    + done. }
  apply IH; [apply Hinv; lia|done|done|].
  - destruct Hprog as [(Hg & Hd & _) | (Hg & Hd & _)]; rewrite Hg, Hd.
    + inversion Hc as [| p b r Hp Hb Hok Hk Hfull Hd' | p b r Hp Hb Hok _ _ Hd']; subst.
      * pose proof (full_bucket_shallow W t key p b r Hsz HI Hsep Hp Hb Hok Hk Hfull).
        lia.
      * simpl in Hg. lia.
    + inversion Hc as [| p b r Hp Hb Hok Hk Hfull Hd' | p b r Hp Hb Hok _ _ Hd']; subst.
      * simpl in Hg. lia.
      * destruct (target_depth_eq t key p b Hp Hb) as [Htd _]. lia.
Qed.

(** *** A key that the masks cannot tell from a full bucket *)

Lemma filter_all (P : K * V → Prop) `{∀ kv, Decision (P kv)} l :
  (∀ kv, kv ∈ l → P kv) → filter P l = l.
Proof.
  induction l as [|kv l IH]; intros Hall; [done|].
  rewrite filter_cons_True by (apply Hall, elem_of_cons; by left).
  f_equal. apply IH. intros x Hx. apply Hall, elem_of_cons. by right.
Qed.

(** When the keys of the bucket that is split agree with [key] on one
    more bit, they all go where [key] goes. *)
Lemma split_target_same t p b r key :
  Inv t → store_ t !! p = Some b → bucket_ok t p b r →
  depth_ b < global_depth_ t → dir_ t !! slot t key = Some p →
  (∀ k v, (k, v) ∈ list_ b →
     low_bits (hash k) (S (depth_ b)) = low_bits (hash key) (S (depth_ b))) →
  ∃ q' bq', dir_ (split_table t p b r) !! slot (split_table t p b r) key = Some q'
    ∧ store_ (split_table t p b r) !! q' = Some bq'
    ∧ list_ bq' = list_ b.
Proof.
  intros HI Hb Hok Hd Hq Hall. pose proof Hok as [O1 O2 O3 O4 O5 O6].
  pose proof (slot_lt t key HI) as Hlt.
  assert (Hidx : low_bits (N.of_nat (slot t key)) (S (depth_ b))
                 = low_bits (hash key) (S (depth_ b))).
  { unfold Directory.slot. rewrite N2Nat.id. apply low_bits_low. lia. }
  change (slot (split_table t p b r) key) with (slot t key).
  rewrite (split_dir_lookup t p b r _ p Hq).
  pose proof (pow2_pos (N.of_nat (depth_ b))) as Hpos.
  destruct (moves_slot _ _ _ (slot t key)) eqn:Hm.
  - apply moves_slot_spec in Hm; [|done]. rewrite Hidx in Hm.
    eexists _, _. split; [done|]. split.
    { apply (split_store_lookup t p b r); [done|]. right. right. done. }
    simpl. apply filter_all. intros [k v] Hin. unfold Directory.stays. simpl.
    rewrite (Hall k v Hin), Hm. lia.
  - eexists _, _. split; [done|]. split.
    { apply (split_store_lookup t p b r); [done|]. left. done. }
    simpl. apply filter_all. intros [k v] Hin. unfold Directory.stays. simpl.
    rewrite (Hall k v Hin).
    apply (O3 _ Hlt) in Hq.
    assert (Hq' : low_bits (hash key) (depth_ b) = r).
    { rewrite <- Hq. unfold Directory.slot. rewrite N2Nat.id.
      symmetry. apply low_bits_low. lia. }
    destruct (low_bits_step (hash key) (depth_ b)) as (c & Hc2 & Hst).
    assert (c = 0 ∨ c = 1)%N as [-> | ->] by lia; [lia|].
    assert (moves_slot (ones (depth_ b)) (ones (S (depth_ b))) r (slot t key) = true);
      [|congruence].
    apply moves_slot_spec; [done|]. rewrite Hidx. lia.
Qed.

Lemma crowded_turn t key value :
  1 ≤ bucket_size → Inv t → crowded hash bucket_size t key →
  match Insert_turn t key value with
  | Done _ => False
  | Again t' => crowded hash bucket_size t' key
  | Stuck => True
  end.
Proof.
  intros Hsz HI (p & b & Hp & Hb & Hk & Hfull & Hall).
  pose proof (Insert_turn_case t key value Hsz HI) as Hc.
  inversion Hc as [p0 b0 r l' Hp0 Hb0 Hok Hins Ht | p0 b0 r Hp0 Hb0 Hok _ _ _ Ht
                   | p0 b0 r Hp0 Hb0 Hok _ _ Hd Ht];
    assert (p0 = p) as -> by congruence; assert (b0 = b) as -> by congruence.
  - destruct (bucket_insert_cases (list_ b) key value)
      as [(l0 & Hu & _) | [(_ & Hlen & _) | (_ & _ & Hf)]].
    + pose proof (proj2 (bucket_update_None (list_ b) key value) Hk). congruence.
    + lia.
    + congruence.
  - exists p, b. split; [by rewrite doubled_target|]. done.
  - destruct (split_target_same t p b r key HI Hb Hok Hd Hp) as (q' & bq' & Hq' & Hbq' & Hl).
    { intros k v Hin. pose proof (inv_depth _ _ _ HI).
      rewrite <- (low_bits_low (hash k) (S (depth_ b)) 30) by lia.
      rewrite <- (low_bits_low (hash key) (S (depth_ b)) 30) by lia.
      by rewrite (Hall k v Hin). }
    exists q', bq'. rewrite Hl. done.
Qed.

Lemma passes_step t t1 key value t' :
  Insert_turn t key value = Again t1 →
  passes hash bucket_size t1 key value t' → passes hash bucket_size t key value t'.
Proof.
  intros Ht Hp. induction Hp as [|t2 t3 _ IH Ht2].
  - by apply (passes_next hash bucket_size t key value t); [apply passes_first|].
  - by apply (passes_next hash bucket_size t key value t2).
Qed.

Lemma crowded_stuck key value : 1 ≤ bucket_size → ∀ m t,
  Inv t → crowded hash bucket_size t key →
  (31 - global_depth_ t) + (31 - target_depth hash t key) ≤ m →
  ∃ t', passes hash bucket_size t key value t' ∧ global_depth_ t' = 31
        ∧ Insert_turn t' key value = Stuck.
Proof.
  intros Hsz. induction m as [|m IH]; intros t HI Hcr Hm.
  { pose proof (inv_depth _ _ _ HI). lia. }
  pose proof (crowded_turn t key value Hsz HI Hcr) as Hct.
  pose proof (Insert_turn_case t key value Hsz HI) as Hc.
  pose proof (Inv_turn t key value HI _ Hc) as Hinv.
  pose proof (inv_depth _ _ _ HI) as Hg.
  destruct (Insert_turn t key value) as [t1|t1|] eqn:Ht; [done| |by destruct Hc].
  pose proof (progress_turn t key value t1 HI Hc) as Hprog.
  assert (Hdepth : target_depth hash t key ≤ global_depth_ t).
  { destruct (target_exists t key HI) as (p & b & Hp & Hb).
    destruct (target_depth_eq t key p b Hp Hb) as [-> _].
    destruct (inv_buckets _ _ _ HI _ _ Hb) as [r Hok]. by destruct Hok. }
  destruct (decide (global_depth_ t1 ≤ 30)) as [Hg1|Hg1].
  - destruct (IH t1 (Hinv Hg1) Hct) as (t' & Hp' & Hd' & Hs').
    { destruct Hprog as [(E1 & E2 & _) | (E1 & E2 & _)]; rewrite E1, E2; lia. }
    exists t'. split; [by apply (passes_step t t1)|done].
  - exists t1. split; [|split].
    + by apply (passes_next hash bucket_size t key value t); [apply passes_first|].
    + destruct Hprog as [(E1 & _) | (E1 & _)]; lia.
    + apply Insert_turn_deep. lia.
Qed.

Lemma crowded_None key value : 1 ≤ bucket_size → ∀ fuel t,
  Inv t → crowded hash bucket_size t key → Insert fuel t key value = None.
Proof.
  intros Hsz. induction fuel as [|fuel IH]; intros t HI Hcr; [done|]. simpl.
  pose proof (crowded_turn t key value Hsz HI Hcr) as Hct.
  pose proof (Insert_turn_case t key value Hsz HI) as Hc.
  pose proof (Inv_turn t key value HI _ Hc) as Hinv.
  destruct (Insert_turn t key value) as [t1|t1|]; [done| |done].
  destruct (Insert fuel t1 key value) as [t'|] eqn:Hins; [|done].
  pose proof (Insert_Some_depth fuel t1 key value t' Hins) as Hg.
  by rewrite (IH t1 (Hinv Hg) Hct) in Hins.
Qed.

Lemma Insert_all_reachable fuel kvs : ∀ t t',
  reachable hash bucket_size t →
  Directory.Insert_all hash bucket_size fuel t kvs = Some t' →
  reachable hash bucket_size t'.
Proof.
  induction kvs as [|[k v] kvs IH]; intros t t' Hr; simpl; [by intros [= <-]|].
  destruct (Insert fuel t k v) as [t1|] eqn:Hins; [|done]. simpl.
  apply IH. by apply (reach_insert hash bucket_size t fuel k v).
Qed.

(** ** C4: the shape of the directory *)

(** C4.  After every sequence of [Insert], [Remove] and [Find] on a table
    of capacity at least one, the directory has [2 ^ global_depth_]
    slots, every bucket has a local depth of at most the global depth, and
    any two slots that reference one bucket agree in their low
    [depth_] bits. *)
Theorem directory_invariant t :
  1 ≤ bucket_size → reachable hash bucket_size t → directory_shape t.
Proof. intros Hsz Hr. by apply Inv_shape, reachable_Inv. Qed.

(** ** C3: [Find] after [Insert] and [Remove] *)

(** C3.  On every table reached by a sequence of operations (capacity at
    least one) and for every key: [Insert] of a key that the hash tells
    from the stored keys within [W ≤ 30] bits (the depths at which the
    [int] masks are defined) returns, within
    [2 * max global_depth_ W + 1] turns, a table where [Find] gives the
    inserted value; whenever [Insert] returns, [Find] gives the inserted
    value; an [Insert] on a key that is present returns in one turn,
    leaves the directory as it is, and [Find] gives the new value; after
    [Remove], [Find] gives nothing. *)
Theorem find_after_update t key value :
  1 ≤ bucket_size → reachable hash bucket_size t →
  (∀ W, W ≤ 30 → separated hash W t key →
     ∃ t', Insert (2 * Nat.max (global_depth_ t) W + 1) t key value = Some t'
           ∧ Find t' key = Some value)
  ∧ (∀ fuel t', Insert fuel t key value = Some t' → Find t' key = Some value)
  ∧ (∀ v0, Find t key = Some v0 →
       ∃ t', Insert 1 t key value = Some t' ∧ dir_ t' = dir_ t
             ∧ Find t' key = Some value)
  ∧ Find (Remove t key).2 key = None.
Proof.
  intros Hsz Hr. pose proof (reachable_Inv t Hsz Hr) as HI.
  assert (Hret : ∀ fuel t', Insert fuel t key value = Some t' →
                            Find t' key = Some value).
  { intros fuel t' Hins.
    destruct (Insert_sound fuel t key value t' Hsz HI Hins) as [_ Hf].
    by rewrite Hf, decide_True. }
  split; [|split; [done|split]].
  - intros W HW Hsep. pose proof (inv_depth _ _ _ HI) as Hg.
    destruct (Insert_enough W (Nat.max (global_depth_ t) W) key value Hsz
                (Nat.le_max_r _ _) ltac:(lia)
                (2 * Nat.max (global_depth_ t) W + 1) t HI Hsep
                (Nat.le_max_l _ _)) as (t' & Ht' & _); [lia|].
    exists t'. split; [done|]. by apply (Hret _ _ Ht').
  - intros v0 Hfind.
    pose proof (Insert_turn_case t key value Hsz HI) as Hc.
    assert (Hpresent : ∀ p b, dir_ t !! slot t key = Some p →
              store_ t !! p = Some b → key ∉ (list_ b).*1 → False).
    { intros p b Hp Hb Hk.
      rewrite (Find_eq t key p b (inv_depth _ _ _ HI) Hp Hb) in Hfind.
      apply bucket_find_None in Hk. congruence. }
    assert (∃ t', Insert 1 t key value = Some t' ∧ dir_ t' = dir_ t) as (t' & Ht' & Hdir).
    { simpl. inversion Hc as [p b r l' Hp Hb Hok Hins Ht | p b r Hp Hb Hok Hk _ _ Ht
                             | p b r Hp Hb Hok Hk _ _ Ht].
      - by eexists.
      - destruct (Hpresent p b Hp Hb Hk).
      - destruct (Hpresent p b Hp Hb Hk). }
    exists t'. split; [done|]. split; [done|]. by apply (Hret 1 t').
  - by rewrite Find_Remove, decide_True.
Qed.

(** ** C5: the loop of [Insert] ends *)

(** C5, amended.  On every table that satisfies the directory invariant
    (every reachable table does, and every table the loop goes through),
    with capacity at least one and a hash that tells the inserted key from
    the stored keys within [W ≤ 30] bits (the depths at which the [int]
    masks are defined), [Insert] returns within
    [2 * max global_depth_ W + 1] turns, with a global depth of at most
    [max global_depth_ W]; a turn that goes round again either raises
    [global_depth_] by one and leaves the buckets alone, or raises by one
    the local depth of the bucket the key is sent to without adding to the
    entries of the bucket that was full, and hands the next turn a table
    with the same three properties. *)
Theorem insert_terminates W t key value :
  1 ≤ bucket_size → W ≤ 30 → Inv t → separated hash W t key →
  (∃ t', Insert (2 * Nat.max (global_depth_ t) W + 1) t key value = Some t'
         ∧ global_depth_ t' ≤ Nat.max (global_depth_ t) W)
  ∧ (∀ t', Insert_turn t key value = Again t' →
       progress t t' key ∧ Inv t' ∧ separated hash W t' key).
Proof.
  intros Hsz HW HI Hsep. pose proof (inv_depth _ _ _ HI) as Hg. split.
  - apply (Insert_enough W (Nat.max (global_depth_ t) W) key value Hsz
             (Nat.le_max_r _ _) ltac:(lia) _ t HI Hsep (Nat.le_max_l _ _)). lia.
  - intros t' Ht'. pose proof (Insert_turn_case t key value Hsz HI) as Hc.
    rewrite Ht' in Hc. split; [by apply (progress_turn t key value)|]. split.
    + apply (Inv_turn t key value HI _ Hc).
      inversion Hc as [| p b r Hp Hb Hok Hk Hfull Hd | p b r Hp Hb Hok _ _ Hd]; subst;
        [|done].
      pose proof (full_bucket_shallow W t key p b r Hsz HI Hsep Hp Hb Hok Hk Hfull).
      simpl. lia.
    + apply (separated_turn W t key value _ Hsep Hc).
Qed.

End TableFacts.

(** *** The concrete tables *)

Lemma two_keys_reachable : reachable id_hash 2 two_keys.
Proof.
  apply (reach_insert id_hash 2
           {| global_depth_ := 0; num_buckets_ := 1; dir_ := [0%nat];
              store_ := [ {| depth_ := 0; list_ := [(0, 100)]%N |} ] |}
           1 4%N 104%N).
  - apply (reach_insert id_hash 2 new_table 1 0%N 100%N); [apply reach_new|].
    vm_compute. reflexivity.
  - vm_compute. reflexivity.
Qed.

Lemma two_keys_separated : separated id_hash 4 two_keys 8%N.
Proof.
  intros [|p] b k v Hp Hin Hlow; simplify_eq/=.
  apply elem_of_cons in Hin as [[= -> ->] | Hin]; [vm_compute in Hlow; discriminate|].
  apply elem_of_cons in Hin as [[= -> ->] | Hin]; [vm_compute in Hlow; discriminate|].
  by apply elem_of_nil in Hin.
Qed.

Lemma grown_table_reachable : reachable id_hash 2 grown_table.
Proof.
  apply (Insert_all_reachable id_hash 2 8 grown_keys new_table);
    [apply reach_new | vm_compute; reflexivity].
Qed.

Lemma directory_invariant_witness :
  (1 ≤ 2)%nat ∧ reachable id_hash 2 grown_table
  ∧ Insert_all id_hash 2 8 new_table grown_keys = Some grown_table
  ∧ global_depth_ grown_table = 2%nat ∧ dir_ grown_table = [0; 1; 2; 1]%nat
  ∧ (depth_ <$> store_ grown_table) = [2; 1; 2]%nat
  ∧ directory_shape grown_table.
Proof.
  split; [lia|]. split; [exact grown_table_reachable|].
  split; [vm_compute; reflexivity|]. do 3 (split; [reflexivity|]).
  apply (directory_invariant id_hash 2 grown_table); [lia | exact grown_table_reachable].
Defined.

Lemma find_after_update_witness :
  (1 ≤ 2)%nat ∧ reachable id_hash 2 two_keys
  ∧ (∃ t', Insert id_hash 2 (2 * Nat.max (global_depth_ two_keys) 4 + 1)
             two_keys 8%N 108%N = Some t'
           ∧ Find id_hash t' 8%N = Some 108%N)
  ∧ (∀ fuel t', Insert id_hash 2 fuel two_keys 8%N 108%N = Some t' →
                Find id_hash t' 8%N = Some 108%N)
  ∧ Find id_hash (Remove id_hash two_keys 8%N).2 8%N = None.
Proof.
  split; [lia|]. split; [exact two_keys_reachable|].
  pose proof (find_after_update id_hash 2 two_keys 8%N 108%N
                ltac:(lia) two_keys_reachable) as (H1 & H2 & _ & H4).
  split; [exact (H1 4%nat ltac:(lia) two_keys_separated) | split; [exact H2 | exact H4]].
Defined.

Lemma insert_terminates_witness :
  (1 ≤ 2)%nat ∧ (4 ≤ 30)%nat ∧ Inv id_hash 2 two_keys
  ∧ separated id_hash 4 two_keys 8%N
  ∧ ∃ t', Insert id_hash 2 (2 * Nat.max (global_depth_ two_keys) 4 + 1)
            two_keys 8%N 108%N = Some t'
          ∧ (global_depth_ t' ≤ Nat.max (global_depth_ two_keys) 4)%nat.
Proof.
  assert (HI : Inv id_hash 2 two_keys)
    by (apply reachable_Inv; [lia | exact two_keys_reachable]).
  split; [lia|]. split; [lia|]. split; [exact HI|]. split; [exact two_keys_separated|].
  exact (proj1 (insert_terminates id_hash 2 4 two_keys 8%N 108%N
                  ltac:(lia) ltac:(lia) HI two_keys_separated)).
Defined.

(** C5 as stated fails.  Key 8 arrives at the reachable table [two_keys]
    (capacity 2, keys 0 and 4).  The first turn doubles the directory; the
    second turn splits bucket 0, and both keys stay in it: [global_depth_]
    is still 1 and the bucket that was full still holds two entries. *)
Lemma split_keeps_load_counterexample :
  reachable id_hash 2 two_keys
  ∧ Insert_turn id_hash 2 two_keys 8%N 108%N = Again two_keys_doubled
  ∧ Insert_turn id_hash 2 two_keys_doubled 8%N 108%N = Again two_keys_split
  ∧ global_depth_ two_keys_split = global_depth_ two_keys_doubled
  ∧ target_pointer id_hash two_keys_doubled 8%N = 0%nat
  ∧ load two_keys_doubled 0 = 2%nat
  ∧ load two_keys_split 0 = 2%nat.
Proof.
  split; [exact two_keys_reachable|]. vm_compute. repeat split.
Qed.

(** Scenario S2 of the specification. *)
Example s2_growth :
  s2_table = Some {| global_depth_ := 1; num_buckets_ := 2; dir_ := [0; 1]%nat;
                     store_ := [ {| depth_ := 1; list_ := [(0, 100); (2, 102)]%N |};
                                 {| depth_ := 1; list_ := [(1, 101)]%N |} ] |}.
Proof. vm_compute. reflexivity. Qed.


(** ** Further properties of the table *)

Section TableMore.
Context {K : Type} `{EqDecision K} {V : Type}.
Variable hash : K → N.
Variable bucket_size : nat.

Implicit Types (l : list (K * V)) (k key : K) (v value : V).
Implicit Types (t : Table K V) (b : Bucket K V).

Local Open Scope nat_scope.

Local Abbreviation Inv := (Inv hash bucket_size).
Local Abbreviation bucket_ok := (bucket_ok hash bucket_size).
Local Abbreviation slot := (slot hash).
Local Abbreviation IndexOf := (IndexOf hash).
Local Abbreviation Find := (Find hash).
Local Abbreviation Remove := (Remove hash).
Local Abbreviation Insert := (Insert hash bucket_size).
Local Abbreviation Insert_turn := (Insert_turn hash bucket_size).
Local Abbreviation reachable := (reachable hash bucket_size).
Local Abbreviation turn_case := (turn_case hash bucket_size).
Local Abbreviation split_table := (split_table hash).

Lemma bucket_find_NoDup l k v :
  NoDup (l.*1) → (k, v) ∈ l → bucket_find l k = Some v.
Proof.
  induction l as [|[k1 v1] l IH]; simpl; intros Hnd Hin.
  - by apply elem_of_nil in Hin.
  - apply NoDup_cons in Hnd as [Hk Hnd].
    apply elem_of_cons in Hin as [[= -> ->] | Hin].
    + by rewrite decide_True.
    + destruct (decide (k1 = k)) as [->|Hne]; [|by apply IH].
      destruct Hk. by apply (list_elem_of_fmap_2 fst _ (k, v)).
Qed.

(** Under the invariant the buckets hold what [Find] finds. *)
Lemma stored_Find t k v : Inv t → stored t k v ↔ Find t k = Some v.
Proof.
  intros HI. split.
  - intros (p & b & Hb & Hin).
    destruct (inv_buckets _ _ _ HI _ _ Hb) as [r Hok].
    pose proof Hok as [O1 O2 O3 O4 O5 O6].
    assert (Hp : dir_ t !! slot t k = Some p).
    { apply (O3 _ (slot_lt hash bucket_size t k HI)).
      unfold Directory.slot. rewrite N2Nat.id.
      fold (low_bits (hash k) (global_depth_ t)).
      rewrite low_bits_low by done. by apply (O4 k v). }
    rewrite (Find_eq hash t k p b (inv_depth _ _ _ HI) Hp Hb).
    by apply bucket_find_NoDup.
  - intros Hf. destruct (target_exists hash bucket_size t k HI) as (p & b & Hp & Hb).
    rewrite (Find_eq hash t k p b (inv_depth _ _ _ HI) Hp Hb) in Hf.
    exists p, b. split; [done|].
    by apply bucket_find_Some.
Qed.

Lemma GetLocalDepth_set_list t p b l' i :
  store_ t !! p = Some b →
  GetLocalDepth (with_store t (<[p := {| depth_ := depth_ b; list_ := l' |}]> (store_ t))) i
  = GetLocalDepth t i.
Proof.
  intros Hb. unfold GetLocalDepth, bucket_at. simpl.
  destruct (dir_ t !! i) as [q|]; simpl; [|done].
  destruct (decide (q = p)) as [->|Hne].
  - rewrite list_lookup_insert_eq by (by eapply lookup_lt_Some). by rewrite Hb.
  - by rewrite list_lookup_insert_ne.
Qed.

(** X7.  On a reachable table, when [Insert] returns, the buckets hold the
    inserted pair, every pair they held under another key, and nothing
    else; [Find] gives for every other key what it gave before. *)
Theorem insert_contents t fuel key value t' :
  1 ≤ bucket_size → reachable t → Insert fuel t key value = Some t' →
  (∀ k v, stored t' k v ↔ (k = key ∧ v = value) ∨ (k ≠ key ∧ stored t k v))
  ∧ ∀ k, k ≠ key → Find t' k = Find t k.
Proof.
  intros Hsz Hr Hins. pose proof (reachable_Inv hash bucket_size t Hsz Hr) as HI.
  destruct (Insert_sound hash bucket_size fuel t key value t' Hsz HI Hins) as [HI' Hf].
  split.
  - intros k v. rewrite (stored_Find t' k v HI'), (stored_Find t k v HI), Hf.
    destruct (decide (k = key)) as [->|Hne].
    + split; [intros [= ->]; by left | intros [[_ ->]|[? _]]; done].
    + split; [by right | intros [[? _]|[_ ?]]; done].
  - intros k Hne. by rewrite Hf, decide_False.
Qed.

Lemma bucket_remove_found l key :
  (bucket_remove l key).1 = true ↔ key ∈ l.*1.
Proof.
  induction l as [|[k v] l IH]; simpl.
  - split; [done|]. intros H. by apply elem_of_nil in H.
  - destruct (decide (k = key)) as [->|Hne]; simpl.
    + split; [intros _; apply elem_of_cons; by left|done].
    + destruct (bucket_remove l key) as [found r]. simpl in *.
      rewrite IH, elem_of_cons. split; [by right|]. intros [?|?]; [congruence|done].
Qed.

(** X8.  On a reachable table [Remove] answers true exactly when the key
    was bound; afterwards [Find] gives nothing for the key and, for every
    other key, what it gave before; the directory, the global depth, the
    number of buckets and the depth of every bucket are as they were. *)
Theorem remove_is_map_delete t key :
  1 ≤ bucket_size → reachable t →
  ((Remove t key).1 = true ↔ is_Some (Find t key))
  ∧ (∀ k, Find (Remove t key).2 k = if decide (k = key) then None else Find t k)
  ∧ dir_ (Remove t key).2 = dir_ t
  ∧ GetGlobalDepth (Remove t key).2 = GetGlobalDepth t
  ∧ GetNumBuckets (Remove t key).2 = GetNumBuckets t
  ∧ ∀ i, GetLocalDepth (Remove t key).2 i = GetLocalDepth t i.
Proof.
  intros Hsz Hr. pose proof (reachable_Inv hash bucket_size t Hsz Hr) as HI.
  destruct (target_exists hash bucket_size t key HI) as (p & b & Hp & Hb).
  split; [|split; [intros k; by apply (Find_Remove hash bucket_size)|]].
  - rewrite (Remove_eq hash t key p b (inv_depth _ _ _ HI) Hp Hb),
      (Find_eq hash t key p b (inv_depth _ _ _ HI) Hp Hb). simpl.
    rewrite bucket_remove_found, <- not_eq_None_Some.
    rewrite (bucket_find_None (list_ b) key).
    split; [tauto|]. intros Hn. by destruct (decide (key ∈ (list_ b).*1)).
  - rewrite (Remove_eq hash t key p b (inv_depth _ _ _ HI) Hp Hb). simpl.
    do 3 (split; [done|]).
    intros i. destruct (bucket_remove (list_ b) key) as [found l'].
    by apply GetLocalDepth_set_list.
Qed.

(** X9.  On a reachable table a pair is in some bucket exactly when [Find]
    gives its value for its key: no entry sits in a bucket that the
    directory does not lead its key to, and a key has one value. *)
Theorem stored_iff_found t k v :
  1 ≤ bucket_size → reachable t →
  (stored t k v ↔ Find t k = Some v)
  ∧ ∀ v', stored t k v → stored t k v' → v = v'.
Proof.
  intros Hsz Hr. pose proof (reachable_Inv hash bucket_size t Hsz Hr) as HI.
  split; [by apply stored_Find|].
  intros v' H1%(stored_Find _ _ _ HI) H2%(stored_Find _ _ _ HI). congruence.
Qed.

(** X10.  On a reachable table [GetNumBuckets] is the number of buckets,
    every bucket is referenced by a slot of the directory, so there are at
    most [2 ^ GetGlobalDepth] of them, and [GetLocalDepth] of a slot is at
    most [GetGlobalDepth]. *)
Theorem buckets_counted t :
  1 ≤ bucket_size → reachable t →
  GetNumBuckets t = length (store_ t)
  ∧ (∀ p, p < length (store_ t) → ∃ i, dir_ t !! i = Some p)
  ∧ GetNumBuckets t ≤ 2 ^ GetGlobalDepth t
  ∧ ∀ i, i < 2 ^ GetGlobalDepth t →
      ∃ d, GetLocalDepth t i = Some d ∧ d ≤ GetGlobalDepth t.
Proof.
  intros Hsz Hr. pose proof (reachable_Inv hash bucket_size t Hsz Hr) as HI.
  pose proof HI as [Hl Hd Hb Hc].
  assert (Href : ∀ p, p < length (store_ t) → ∃ i, dir_ t !! i = Some p).
  { intros p Hp. destruct (lookup_lt_is_Some_2 _ _ Hp) as [b Hpb].
    destruct (Hb _ _ Hpb) as [r [O1 O2 O3 _ _ _]].
    exists (N.to_nat r). apply O3.
    - rewrite Hl. pose proof (pow2_le _ _ O1) as Hle. rewrite <- !pow2_nat in Hle.
      rewrite <- pow2_nat in O2. lia.
    - rewrite N2Nat.id. by apply low_bits_small. }
  split; [done|]. split; [done|]. split.
  - unfold GetNumBuckets, GetGlobalDepth. rewrite Hc, <- Hl.
    assert (length (seq 0 (length (store_ t))) ≤ length (dir_ t)) as Hle;
      [|by rewrite length_seq in Hle].
    apply submseteq_length, NoDup_submseteq; [apply NoDup_seq|].
    intros p Hp%elem_of_seq. destruct (Href p) as [i Hi]; [lia|].
    by apply (list_elem_of_lookup_2 _ i).
  - intros i Hi. unfold GetGlobalDepth in *. rewrite <- Hl in Hi.
    destruct (lookup_lt_is_Some_2 _ _ Hi) as [p Hp].
    destruct (lookup_lt_is_Some_2 _ _ (Hd _ _ Hp)) as [b Hpb].
    exists (depth_ b). unfold GetLocalDepth. rewrite (bucket_at_eq t i p b Hp Hpb).
    split; [done|]. destruct (Hb _ _ Hpb) as [r Hok]. by destruct Hok.
Qed.

(** X11.  On a reachable table no bucket holds more pairs than
    [bucket_size], no bucket holds a key twice, and the keys of a bucket
    have the same low [depth_] bits of their hashes, which are those of
    every directory slot that leads to the bucket. *)
Theorem buckets_bounded t :
  1 ≤ bucket_size → reachable t →
  ∀ p b, store_ t !! p = Some b →
    length (list_ b) ≤ bucket_size
    ∧ NoDup (list_ b).*1
    ∧ ∀ k v i, (k, v) ∈ list_ b → dir_ t !! i = Some p →
        low_bits (hash k) (depth_ b) = low_bits (N.of_nat i) (depth_ b).
Proof.
  intros Hsz Hr p b Hb. pose proof (reachable_Inv hash bucket_size t Hsz Hr) as HI.
  destruct (inv_buckets _ _ _ HI _ _ Hb) as [r [O1 O2 O3 O4 O5 O6]].
  split; [done|]. split; [done|]. intros k v i Hin Hi.
  rewrite (O4 k v Hin). symmetry. apply O3; [by eapply lookup_lt_Some|done].
Qed.

Lemma grown_refl t : grown t t.
Proof. repeat split; try done. intros p b Hb. by exists b. Qed.

Lemma grown_trans t1 t2 t3 : grown t1 t2 → grown t2 t3 → grown t1 t3.
Proof.
  intros (A1 & A2 & A3 & A4) (B1 & B2 & B3 & B4).
  split; [lia|]. split; [lia|]. split; [lia|].
  intros p b Hb. destruct (A4 _ _ Hb) as (b2 & Hb2 & Hd2).
  destruct (B4 _ _ Hb2) as (b3 & Hb3 & Hd3). exists b3. split; [done|lia].
Qed.

Lemma grown_turn t key value tn :
  turn_case t key value tn →
  match tn with Done t' | Again t' => grown t t' | Stuck => False end.
Proof.
  intros [p b r l' Hp Hb Hok Hins | p b r Hp Hb Hok _ _ _ | p b r Hp Hb Hok _ _ Hd].
  - do 3 (split; [done|]). simpl. intros q bq Hq.
    destruct (decide (q = p)) as [->|Hne].
    + rewrite list_lookup_insert_eq by (by eapply lookup_lt_Some).
      eexists. split; [done|]. simpl. by simplify_eq.
    + rewrite list_lookup_insert_ne by done. by exists bq.
  - split; [simpl; lia|]. split; [done|]. split; [simpl; rewrite length_app; lia|].
    intros q bq Hq. by exists bq.
  - split; [done|]. split; [simpl; lia|]. split; [simpl; by rewrite length_imap|].
    simpl. intros q bq Hq. pose proof (lookup_lt_Some _ _ _ Hq) as Hlt.
    rewrite lookup_app_l by (by rewrite length_insert).
    destruct (decide (q = p)) as [->|Hne].
    + rewrite list_lookup_insert_eq by done.
      eexists. split; [done|]. simpl. simplify_eq. lia.
    + rewrite list_lookup_insert_ne by done. by exists bq.
Qed.

Lemma Insert_grown fuel : ∀ t key value t',
  1 ≤ bucket_size → Inv t → Insert fuel t key value = Some t' → grown t t'.
Proof.
  induction fuel as [|fuel IH]; intros t key value t' Hsz HI Hins; [done|].
  simpl in Hins. pose proof (Insert_turn_case hash bucket_size t key value Hsz HI) as Hc.
  pose proof (Inv_turn hash bucket_size t key value HI _ Hc) as Hinv.
  pose proof (grown_turn t key value _ Hc) as Hg.
  destruct (Directory.Insert_turn hash bucket_size t key value) as [t1|t1|]; [|..|done].
  - by simplify_eq.
  - pose proof (Insert_Some_depth hash bucket_size fuel t1 key value t' Hins) as Hd.
    eapply grown_trans; [done|]. eapply IH; [done|by apply Hinv|done].
Qed.

(** X12.  [Insert] only ever grows the table: when it returns, the global
    depth, the number of buckets and the directory are no smaller than
    before, and every bucket is where it was and at least as deep.  When
    the bucket the key is sent to holds the key or has room, the
    directory, the global depth, the number of buckets and every local
    depth are as they were. *)
Theorem insert_grows t fuel key value t' :
  1 ≤ bucket_size → Inv t → Insert fuel t key value = Some t' →
  grown t t'
  ∧ ∀ i p b, IndexOf t key = Some i → dir_ t !! i = Some p → store_ t !! p = Some b →
      key ∈ (list_ b).*1 ∨ length (list_ b) < bucket_size →
      dir_ t' = dir_ t ∧ GetGlobalDepth t' = GetGlobalDepth t
      ∧ GetNumBuckets t' = GetNumBuckets t
      ∧ ∀ i, GetLocalDepth t' i = GetLocalDepth t i.
Proof.
  intros Hsz HI Hins. split; [by eapply Insert_grown|].
  intros i p b Hidx Hp Hb Hroom. destruct fuel as [|fuel]; [done|]. simpl in Hins.
  unfold Directory.Insert_turn in Hins. rewrite Hidx in Hins. simpl in Hins.
  rewrite (bucket_at_eq t _ p b Hp Hb) in Hins.
  destruct (bucket_insert_cases bucket_size (list_ b) key value)
    as [(l' & _ & Hi) | [(_ & _ & Hi) | (Hk & Hfull & _)]].
  - rewrite Hi in Hins. simplify_eq. do 3 (split; [done|]).
    intros j. by apply GetLocalDepth_set_list.
  - rewrite Hi in Hins. simplify_eq. do 3 (split; [done|]).
    intros j. by apply GetLocalDepth_set_list.
  - destruct Hroom as [?|?]; [done|lia].
Qed.

Lemma passes_cases t key value t' :
  1 ≤ bucket_size → Inv t → passes hash bucket_size t key value t' →
  Inv t' ∨ global_depth_ t' = 31.
Proof.
  intros Hsz HI Hp. induction Hp as [|t1 t2 _ IH Ht]; [by left|].
  destruct IH as [HI1 | Hdeep].
  - pose proof (Insert_turn_case hash bucket_size t1 key value Hsz HI1) as Hc.
    pose proof (Inv_turn hash bucket_size t1 key value HI1 _ Hc) as Hinv.
    rewrite Ht in Hc, Hinv.
    destruct (decide (global_depth_ t2 ≤ 30)) as [Hd|Hd]; [left; by apply Hinv|right].
    pose proof (inv_depth _ _ _ HI1).
    inversion Hc as [| p b r _ _ _ _ _ _ | p b r _ _ _ _ _ _]; subst; simpl in *; lia.
  - rewrite (Insert_turn_deep hash bucket_size t1 key value) in Ht by lia. done.
Qed.

(** X22.  On a reachable table the global depth is at most 30, so that
    the shift of [IndexOf] is defined, the index is inside the directory
    and the slot leads to a bucket: [Find] and [Remove] read a bucket.
    The loop of [Insert] reaches what C++ leaves undefined exactly when
    it has raised the global depth to 31, where the shift of [IndexOf]
    leaves the [int]; in no other turn does it index outside the
    directory, shift by a negative count or out of the [int], or take the
    front of an empty list in [RedistributeBucket]. *)
Theorem no_undefined_access t key value :
  1 ≤ bucket_size → reachable t →
  global_depth_ t ≤ 30
  ∧ (∃ i p b, IndexOf t key = Some i ∧ dir_ t !! i = Some p ∧ store_ t !! p = Some b)
  ∧ ∀ t', passes hash bucket_size t key value t' →
      (Insert_turn t' key value = Stuck ↔ global_depth_ t' = 31).
Proof.
  intros Hsz Hr. pose proof (reachable_Inv hash bucket_size t Hsz Hr) as HI.
  pose proof (inv_depth _ _ _ HI) as Hg. split; [done|]. split.
  - destruct (target_exists hash bucket_size t key HI) as (p & b & Hp & Hb).
    exists (slot t key), p, b. split; [by apply IndexOf_slot|done].
  - intros t' Hp. destruct (passes_cases t key value t' Hsz HI Hp) as [HI' | Hdeep].
    + pose proof (Insert_turn_case hash bucket_size t' key value Hsz HI') as Hc.
      pose proof (Inv_turn hash bucket_size t' key value HI' _ Hc) as Hinv.
      pose proof (inv_depth _ _ _ HI'). split; [|lia].
      intros Hs. by rewrite Hs in Hinv.
    + split; [done|]. intros _. apply Insert_turn_deep. lia.
Qed.

(** X24.  A key that the hash does not tell, within its low 30 bits, from
    the keys of the full bucket it is sent to cannot be inserted: the
    loop of [Insert] splits and doubles until the global depth is 31,
    where the shift of [IndexOf] is undefined; [Insert] returns after no
    number of turns. *)
Theorem insert_reaches_undefined t key value :
  1 ≤ bucket_size → Inv t → crowded hash bucket_size t key →
  (∀ fuel, Insert fuel t key value = None)
  ∧ ∃ t', passes hash bucket_size t key value t' ∧ global_depth_ t' = 31
          ∧ Insert_turn t' key value = Stuck.
Proof.
  intros Hsz HI Hcr. split.
  - intros fuel. by apply (crowded_None hash bucket_size).
  - by apply (crowded_stuck hash bucket_size key value Hsz _ t HI Hcr (le_n _)).
Qed.

End TableMore.

Lemma insert_contents_witness :
  (1 ≤ 2)%nat ∧ reachable id_hash 2 two_keys
  ∧ ∃ t', Insert id_hash 2 9 two_keys 8%N 108%N = Some t'
     ∧ (∀ k v, stored t' k v ↔ (k = 8%N ∧ v = 108%N) ∨ (k ≠ 8%N ∧ stored two_keys k v))
     ∧ ∀ k, k ≠ 8%N → Find id_hash t' k = Find id_hash two_keys k.
Proof.
  split; [lia|]. split; [exact two_keys_reachable|]. eexists.
  split; [vm_compute; reflexivity|].
  apply (insert_contents id_hash 2 two_keys 9 8%N 108%N);
    [lia | exact two_keys_reachable | vm_compute; reflexivity].
Defined.

Lemma remove_is_map_delete_witness :
  (1 ≤ 2)%nat ∧ reachable id_hash 2 two_keys
  ∧ ((Remove id_hash two_keys 4%N).1 = true ↔ is_Some (Find id_hash two_keys 4%N))
  ∧ (∀ k, Find id_hash (Remove id_hash two_keys 4%N).2 k
          = if decide (k = 4%N) then None else Find id_hash two_keys k)
  ∧ dir_ (Remove id_hash two_keys 4%N).2 = dir_ two_keys
  ∧ GetGlobalDepth (Remove id_hash two_keys 4%N).2 = GetGlobalDepth two_keys
  ∧ GetNumBuckets (Remove id_hash two_keys 4%N).2 = GetNumBuckets two_keys
  ∧ ∀ i, GetLocalDepth (Remove id_hash two_keys 4%N).2 i = GetLocalDepth two_keys i.
Proof.
  split; [lia|]. split; [exact two_keys_reachable|].
  apply (remove_is_map_delete id_hash 2 two_keys 4%N); [lia | exact two_keys_reachable].
Defined.

Lemma stored_iff_found_witness :
  (1 ≤ 2)%nat ∧ reachable id_hash 2 two_keys
  ∧ (stored two_keys 4%N 104%N ↔ Find id_hash two_keys 4%N = Some 104%N)
  ∧ ∀ v', stored two_keys 4%N 104%N → stored two_keys 4%N v' → 104%N = v'.
Proof.
  split; [lia|]. split; [exact two_keys_reachable|].
  apply (stored_iff_found id_hash 2 two_keys 4%N 104%N); [lia | exact two_keys_reachable].
Defined.

Lemma buckets_counted_witness :
  (1 ≤ 2)%nat ∧ reachable id_hash 2 grown_table
  ∧ GetNumBuckets grown_table = 3%nat ∧ GetGlobalDepth grown_table = 2%nat
  ∧ GetLocalDepth grown_table 3 = Some 1%nat
  ∧ GetNumBuckets grown_table = length (store_ grown_table)
  ∧ (∀ p, (p < length (store_ grown_table))%nat → ∃ i, dir_ grown_table !! i = Some p)
  ∧ (GetNumBuckets grown_table ≤ 2 ^ GetGlobalDepth grown_table)%nat
  ∧ ∀ i, (i < 2 ^ GetGlobalDepth grown_table)%nat →
      ∃ d, GetLocalDepth grown_table i = Some d ∧ (d ≤ GetGlobalDepth grown_table)%nat.
Proof.
  split; [lia|]. split; [exact grown_table_reachable|]. do 3 (split; [reflexivity|]).
  apply (buckets_counted id_hash 2 grown_table); [lia | exact grown_table_reachable].
Defined.

Lemma buckets_bounded_witness :
  (1 ≤ 2)%nat ∧ reachable id_hash 2 two_keys
  ∧ ∀ p b, store_ two_keys !! p = Some b →
      (length (list_ b) ≤ 2)%nat ∧ NoDup (list_ b).*1.
Proof.
  split; [lia|]. split; [exact two_keys_reachable|]. intros p b Hb.
  destruct (buckets_bounded id_hash 2 two_keys ltac:(lia) two_keys_reachable p b Hb)
    as (E1 & E2 & _).
  split; [exact E1 | exact E2].
Defined.

Lemma insert_grows_witness :
  (1 ≤ 2)%nat ∧ Inv id_hash 2 two_keys
  ∧ ∃ t', Insert id_hash 2 9 two_keys 8%N 108%N = Some t' ∧ grown two_keys t'.
Proof.
  assert (HI : Inv id_hash 2 two_keys)
    by (apply reachable_Inv; [lia | exact two_keys_reachable]).
  split; [lia|]. split; [exact HI|]. eexists. split; [vm_compute; reflexivity|].
  apply (insert_grows id_hash 2 two_keys 9 8%N 108%N);
    [lia | exact HI | vm_compute; reflexivity].
Defined.


Lemma one_key_reachable : reachable id_hash 1 one_key.
Proof.
  apply (reach_insert id_hash 1 new_table 1 0%N 100%N); [apply reach_new|].
  vm_compute. reflexivity.
Qed.

Lemma one_key_crowded : crowded id_hash 1 one_key 1073741824%N.
Proof.
  exists 0%nat, {| depth_ := 0; list_ := [(0, 100)]%N |}.
  split; [vm_compute; reflexivity|]. split; [reflexivity|]. split.
  { simpl. intros Hin%list_elem_of_singleton. discriminate. }
  split; [simpl; lia|].
  intros k v Hin%list_elem_of_singleton. injection Hin as -> ->.
  vm_compute. reflexivity.
Qed.

Lemma insert_reaches_undefined_witness :
  (1 ≤ 1)%nat ∧ reachable id_hash 1 one_key ∧ Inv id_hash 1 one_key
  ∧ crowded id_hash 1 one_key 1073741824%N
  ∧ (∀ fuel, Insert id_hash 1 fuel one_key 1073741824%N 7%N = None)
  ∧ ∃ t', passes id_hash 1 one_key 1073741824%N 7%N t' ∧ global_depth_ t' = 31%nat
          ∧ Insert_turn id_hash 1 t' 1073741824%N 7%N = Stuck.
Proof.
  assert (HI : Inv id_hash 1 one_key)
    by (apply reachable_Inv; [lia | exact one_key_reachable]).
  split; [lia|]. split; [exact one_key_reachable|]. split; [exact HI|].
  split; [exact one_key_crowded|].
  exact (insert_reaches_undefined id_hash 1 one_key 1073741824%N 7%N ltac:(lia) HI
           one_key_crowded).
Defined.

Lemma no_undefined_access_witness :
  (1 ≤ 2)%nat ∧ reachable id_hash 2 grown_table
  ∧ IndexOf id_hash grown_table 5%N = Some 1%nat
  ∧ Insert_turn id_hash 2 grown_table 5%N 105%N = Again grown_table_split
  ∧ num_buckets_ grown_table_split = S (num_buckets_ grown_table)
  ∧ (Insert_turn id_hash 2 grown_table_split 5%N 105%N = Stuck
     ↔ global_depth_ grown_table_split = 31%nat).
Proof.
  assert (Ht : Insert_turn id_hash 2 grown_table 5%N 105%N = Again grown_table_split)
    by (vm_compute; reflexivity).
  split; [lia|]. split; [exact grown_table_reachable|].
  split; [vm_compute; reflexivity|]. split; [exact Ht|]. split; [reflexivity|].
  destruct (no_undefined_access id_hash 2 grown_table 5%N 105%N ltac:(lia)
              grown_table_reachable) as (_ & _ & E).
  apply E. eapply passes_next; [apply passes_first | exact Ht].
Defined.

End DirectoryFacts.

Module PoolFacts.
Import Replacer ReplacerFacts Pool.

Arguments zeroed : simpl never.

(** *** Frames of the array *)

Lemma page_at_set_page s f pg g :
  0 ≤ f → 0 ≤ g → (Z.to_nat f < length (pages_ s))%nat →
  page_at (set_page s f pg) g = if decide (f = g) then pg else page_at s g.
Proof.
  intros Hf Hg Hlt. unfold page_at, set_page. simpl.
  destruct (decide (f = g)) as [->|Hne].
  - by rewrite list_lookup_insert_eq.
  - rewrite list_lookup_insert_ne; [done|lia].
Qed.

(** A write that keeps the identity and the pin count of the frame it
    lands on, wherever it lands, keeps them everywhere. *)
Lemma page_at_overwrite s f pg g :
  page_id_ pg = page_id_ (page_at s f) → pin_count_ pg = pin_count_ (page_at s f) →
  page_id_ (page_at (set_page s f pg) g) = page_id_ (page_at s g)
  ∧ pin_count_ (page_at (set_page s f pg) g) = pin_count_ (page_at s g).
Proof.
  intros Hid Hpin. unfold page_at, set_page in *. simpl.
  destruct (decide (Z.to_nat f = Z.to_nat g)) as [He|Hne].
  - rewrite <- He. destruct (decide (Z.to_nat f < length (pages_ s))%nat) as [Hlt|Hge].
    + by rewrite list_lookup_insert_eq.
    + by rewrite list_insert_ge by lia.
  - by rewrite list_lookup_insert_ne.
Qed.

(** *** The replacer under [RecordAccess]; [SetEvictable] *)

Lemma RecordAccess_fields r f :
  k_ (RecordAccess r f) = k_ r ∧ replacer_size_ (RecordAccess r f) = replacer_size_ r.
Proof. unfold RecordAccess. by destruct (_ && _). Qed.

Lemma SetEvictable_fields r f b :
  k_ (SetEvictable r f b) = k_ r ∧ replacer_size_ (SetEvictable r f b) = replacer_size_ r.
Proof. unfold SetEvictable. by destruct (_ !! _). Qed.

Lemma SetEvictable_infos r f b fi :
  frame_infos_ r !! f = Some fi →
  frame_infos_ (SetEvictable r f b)
  = <[f := {| time_sequence_ := time_sequence_ fi; evictable_ := b |}]> (frame_infos_ r).
Proof. intros Hf. unfold SetEvictable. by rewrite Hf. Qed.

(** The access is recorded when the frame is tracked or the replacer has
    room; the frame is then tracked and not evictable. *)
Lemma touch_infos r f :
  is_Some (frame_infos_ r !! f) ∨ replacer_size_ r ≠ Z.of_nat (size (frame_infos_ r)) →
  ∃ fi, frame_infos_ (SetEvictable (RecordAccess r f) f false)
        = <[f := fi]> (frame_infos_ r)
        ∧ evictable_ fi = false.
Proof.
  intros Hroom.
  assert (∃ fi, frame_infos_ (RecordAccess r f) = <[f := fi]> (frame_infos_ r))
    as [fi Hfi].
  { unfold RecordAccess.
    destruct (bool_decide _ && _) eqn:Hdrop; [|by eexists].
    apply andb_true_iff in Hdrop as [Hnone%bool_decide_eq_true Hfull%Z.eqb_eq].
    destruct Hroom as [[? Hsome]|Hne]; congruence. }
  exists {| time_sequence_ := time_sequence_ fi; evictable_ := false |}.
  split; [|done].
  rewrite (SetEvictable_infos _ f false fi) by (by rewrite Hfi, lookup_insert_eq).
  by rewrite Hfi, insert_insert_eq.
Qed.

Lemma touch_wf r f :
  1 ≤ k_ r → f ≠ -1 → wf_infos r → wf_infos (SetEvictable (RecordAccess r f) f false).
Proof. intros. by apply SetEvictable_wf, RecordAccess_wf. Qed.

Lemma touch_fields r f :
  k_ (SetEvictable (RecordAccess r f) f false) = k_ r
  ∧ replacer_size_ (SetEvictable (RecordAccess r f) f false) = replacer_size_ r.
Proof.
  destruct (SetEvictable_fields (RecordAccess r f) f false) as [-> ->].
  apply RecordAccess_fields.
Qed.

(** *** The invariant holds of a new pool *)

Lemma new_pool_inv n k : 1 ≤ k → pool_inv (new_pool n k).
Proof.
  intros Hk. constructor; simpl.
  - apply length_replicate.
  - done.
  - done.
  - apply new_replacer_wf.
  - intros f fi Hf. by rewrite lookup_empty in Hf.
  - rewrite map_size_empty, length_fmap, length_seq. lia.
  - apply NoDup_fmap_2; [apply Nat2Z.inj'|apply NoDup_seq].
  - intros f (i & -> & Hi%elem_of_seq)%list_elem_of_fmap.
    split; [lia|]. split; [apply lookup_empty|]. intros p. by rewrite lookup_empty.
  - intros p f Hp. by rewrite lookup_empty in Hp.
Qed.

(** *** Frame acquisition *)

Lemma acquire_frame_Some s f s1 :
  acquire_frame s = Some (f, s1) →
  acquired s f s1
  ∧ pool_size_ s1 = pool_size_ s ∧ pages_ s1 = pages_ s
  ∧ next_page_id_ s1 = next_page_id_ s.
Proof.
  unfold acquire_frame. destruct (free_list_ s) as [|f0 rest] eqn:Hfree.
  - destruct (Evict (replacer_ s)) as [[f0|] r'] eqn:Hev; [|done].
    change (page_at (set_replacer s r') f0) with (page_at s f0).
    intros [= -> <-].
    destruct (is_dirty_ (page_at s f)) eqn:Hd; (split; [|done]);
      apply from_replacer; try done; simpl; rewrite ?Hd; try done.
    by rewrite <- app_assoc.
  - intros [= -> <-]. split; [|done]. by apply from_free_list.
Qed.

Lemma acquire_frame_None s :
  acquire_frame s = None → free_list_ s = [] ∧ (Evict (replacer_ s)).1 = None.
Proof.
  unfold acquire_frame. destruct (free_list_ s); [|done].
  by destruct (Evict (replacer_ s)) as [[f0|] r'].
Qed.

(** *** The invariant, call by call *)

(** The invariant reads the frames, the table, the replacer and the free
    list; the disk, the trace and the page-id counter are not part of it. *)
Lemma pool_inv_core s s' :
  pool_size_ s' = pool_size_ s → pages_ s' = pages_ s →
  page_table_ s' = page_table_ s → replacer_ s' = replacer_ s →
  free_list_ s' = free_list_ s → pool_inv s → pool_inv s'.
Proof.
  destruct s, s'. simpl. intros -> -> -> -> -> [H1 H2 H3 H4 H5 H6 H7 H8 H9].
  constructor; done.
Qed.

(** Frame writes that keep every identity and pin count keep the
    invariant. *)
Lemma pool_inv_pages s s' :
  pool_size_ s' = pool_size_ s → length (pages_ s') = length (pages_ s) →
  (∀ g, page_id_ (page_at s' g) = page_id_ (page_at s g)
        ∧ pin_count_ (page_at s' g) = pin_count_ (page_at s g)) →
  page_table_ s' = page_table_ s → replacer_ s' = replacer_ s →
  free_list_ s' = free_list_ s → pool_inv s → pool_inv s'.
Proof.
  intros Hn Hlen Hpg Ht Hr Hf [H1 H2 H3 H4 H5 H6 H7 H8 H9].
  constructor; rewrite ?Hn, ?Ht, ?Hr, ?Hf, ?Hlen; try done.
  intros p f Hp. destruct (Hpg f) as [-> ->]. by apply H9.
Qed.

Lemma clear_first_dirty_inv s : pool_inv s → pool_inv (clear_first_dirty s).
Proof.
  apply pool_inv_pages; try done.
  - simpl. apply length_insert.
  - intros g. by apply page_at_overwrite.
Qed.

Lemma WritePage_inv s p d : pool_inv s → pool_inv (WritePage s p d).
Proof. by apply pool_inv_core. Qed.

(** The victim the replacer names in a pool that satisfies the invariant. *)
Lemma Evict_victim s f r' :
  pool_inv s → Evict (replacer_ s) = (Some f, r') →
  ∃ fi, frame_infos_ (replacer_ s) !! f = Some fi ∧ evictable_ fi = true
        ∧ frame_infos_ r' = delete f (frame_infos_ (replacer_ s))
        ∧ k_ r' = k_ (replacer_ s) ∧ replacer_size_ r' = replacer_size_ (replacer_ s).
Proof.
  intros HI Hev.
  destruct (Evict_cases (replacer_ s) (pi_wf _ HI)) as [[Hn _] | (f' & fi & He & Hf & Hfe & _)].
  - congruence.
  - rewrite He in Hev. injection Hev as <- <-. by exists fi.
Qed.

Lemma acquire_inv s f s1 :
  pool_inv s → acquire_frame s = Some (f, s1) → pool_inv s1 ∧ loose s1 f.
Proof.
  intros HI Hacq. destruct (acquire_frame_Some s f s1 Hacq) as (Hhow & Hn & Hpg & _).
  pose proof HI as [H1 H2 H3 H4 H5 H6 H7 H8 H9].
  assert (Hat : ∀ g, page_at s1 g = page_at s g) by (intros g; unfold page_at; by rewrite Hpg).
  destruct Hhow as [Hfree Hr Ht _ | Hfree Hfree1 Hev Ht _].
  - rewrite Hfree in H6, H7, H8. apply NoDup_cons in H7 as [Hnotin Hnd].
    simpl in H6. split.
    + constructor; rewrite ?Hn, ?Hpg, ?Hr, ?Ht; try done; [lia| |].
      * intros g Hg. apply H8. apply elem_of_cons. by right.
      * intros p g Hp. rewrite Hat. by apply H9.
    + destruct (H8 f) as (Hrange & Hunt & Hunb); [apply elem_of_cons; by left|].
      constructor; rewrite ?Hn, ?Hr, ?Ht; try done. lia.
  - destruct (Evict_victim s f _ HI Hev) as (fi & Hf & Hfe & Hdel & Hk & Hsz).
    pose proof (size_delete_tracked _ _ _ Hf) as Hsize.
    assert (Hown : ∀ p, page_table_ s !! p = Some f → p = page_id_ (page_at s f)).
    { intros p Hp. by destruct (H9 _ _ Hp) as (_ & <- & _). }
    split.
    + constructor; rewrite ?Hn, ?Hpg, ?Ht, ?Hfree1, ?Hdel, ?Hk, ?Hsz; try done.
      * by apply (delete_wf (replacer_ s) f).
      * intros g gi [_ Hg]%lookup_delete_Some. by apply (H5 g gi).
      * simpl. lia.
      * constructor.
      * intros g Hg. by apply elem_of_nil in Hg.
      * intros p g [Hne Hp]%lookup_delete_Some. rewrite Hat.
        destruct (H9 _ _ Hp) as (Hr & Hid & Hpin & gi & Hgi & Hge).
        do 3 (split; [done|]). exists gi. split; [|done].
        rewrite lookup_delete_ne; [done|]. intros <-. by apply Hne, eq_sym, Hown.
    + constructor; rewrite ?Hn, ?Ht, ?Hfree1, ?Hdel.
      * by apply (H5 f fi).
      * apply lookup_delete_eq.
      * intros p [Hne Hp]%lookup_delete_Some. by apply Hne, eq_sym, Hown.
      * apply not_elem_of_nil.
      * simpl. lia.
Qed.

(** A loose frame is bound to [p], pinned once and recorded. *)
Lemma install_inv s1 f p s2 pg :
  pool_inv s1 → loose s1 f →
  pool_size_ s2 = pool_size_ s1 → pages_ s2 = pages_ s1 →
  page_table_ s2 = <[p := f]> (page_table_ s1) →
  replacer_ s2 = replacer_ s1 → free_list_ s2 = free_list_ s1 →
  page_id_ pg = p → pin_count_ pg = 1 →
  pool_inv (touch_pinned (set_page s2 f pg) f).
Proof.
  intros [H1 H2 H3 H4 H5 H6 H7 H8 H9] [L1 L2 L3 L4 L5] Hn Hpg Ht Hr Hf Hid Hpin.
  destruct (touch_infos (replacer_ s1) f) as (fi & Hfi & Hfe); [right; lia|].
  destruct (touch_fields (replacer_ s1) f) as [Hk Hsz].
  assert (Hat : ∀ g, 0 ≤ g →
            page_at (touch_pinned (set_page s2 f pg) f) g
            = if decide (f = g) then pg else page_at s1 g).
  { intros g Hg. change (page_at (touch_pinned (set_page s2 f pg) f) g)
      with (page_at (set_page s2 f pg) g).
    rewrite page_at_set_page; [|lia|done|rewrite Hpg; lia].
    destruct (decide (f = g)); [done|]. unfold page_at. by rewrite Hpg. }
  constructor; simpl; rewrite ?Hn, ?Hpg, ?Ht, ?Hr, ?Hf, ?Hfi, ?Hk, ?Hsz; try done.
  - by rewrite length_insert.
  - apply touch_wf; [done|lia|done].
  - intros g gi [[<- _] | [_ Hg]]%lookup_insert_Some; [done|by apply (H5 g gi)].
  - rewrite map_size_insert_None by done. lia.
  - intros g Hg. destruct (H8 g Hg) as (Hrange & Hunt & Hunb).
    assert (g ≠ f) by (intros ->; done).
    split; [done|]. split; [by rewrite lookup_insert_ne|].
    intros q [[_ ?] | [_ Hq]]%lookup_insert_Some; [done|by apply (Hunb q)].
  - intros q g [[<- <-] | [Hne Hq]]%lookup_insert_Some.
    + rewrite Hat by lia. rewrite decide_True by done.
      do 2 (split; [done|]). split; [lia|]. exists fi.
      split; [apply lookup_insert_eq|]. by rewrite Hfe, Hpin.
    + destruct (H9 _ _ Hq) as (Hrange & Hid' & Hpin' & gi & Hgi & Hge).
      assert (f ≠ g) by (intros ->; by apply (L3 q)).
      rewrite Hat by lia. rewrite decide_False by done.
      do 3 (split; [done|]). exists gi. split; [by rewrite lookup_insert_ne|done].
Qed.

(** The pin count of a bound frame changes, and its flag with it. *)
Lemma repin_inv s p f pg fi' s' :
  pool_inv s → page_table_ s !! p = Some f →
  pool_size_ s' = pool_size_ s → pages_ s' = <[Z.to_nat f := pg]> (pages_ s) →
  page_table_ s' = page_table_ s → free_list_ s' = free_list_ s →
  frame_infos_ (replacer_ s') = <[f := fi']> (frame_infos_ (replacer_ s)) →
  k_ (replacer_ s') = k_ (replacer_ s) →
  replacer_size_ (replacer_ s') = replacer_size_ (replacer_ s) →
  wf_infos (replacer_ s') →
  page_id_ pg = p → 0 ≤ pin_count_ pg → evictable_ fi' = (pin_count_ pg =? 0) →
  pool_inv s'.
Proof.
  intros [H1 H2 H3 H4 H5 H6 H7 H8 H9] Hp Hn Hpg Ht Hf Hfi Hk Hsz Hwf Hid Hpin Hfe.
  destruct (H9 _ _ Hp) as (Hrange & _ & _ & fi & Hfi0 & _).
  assert (Hat : ∀ g, 0 ≤ g → page_at s' g = if decide (f = g) then pg else page_at s g).
  { intros g Hg. unfold page_at. rewrite Hpg.
    destruct (decide (f = g)) as [<-|Hne].
    - rewrite list_lookup_insert_eq; [done|lia].
    - rewrite list_lookup_insert_ne; [done|lia]. }
  constructor; rewrite ?Hn, ?Hpg, ?Ht, ?Hf, ?Hfi, ?Hk, ?Hsz; try done.
  - by rewrite length_insert.
  - intros g gi [[<- _] | [_ Hg]]%lookup_insert_Some; [done|by apply (H5 g gi)].
  - rewrite map_size_insert_Some by (by rewrite Hfi0). done.
  - intros g Hg. destruct (H8 g Hg) as (Hr & Hunt & Hunb).
    split; [done|]. split; [|done].
    rewrite lookup_insert_ne; [done|]. intros ->. congruence.
  - intros q g Hq. destruct (H9 _ _ Hq) as (Hr & Hid' & Hpin' & gi & Hgi & Hge).
    rewrite Hat by lia. destruct (decide (f = g)) as [<-|Hne].
    + split; [done|]. split.
      { destruct (H9 _ _ Hp) as (_ & Hidp & _). congruence. }
      split; [done|]. exists fi'. split; [apply lookup_insert_eq|done].
    + do 3 (split; [done|]). exists gi. split; [by rewrite lookup_insert_ne|done].
Qed.

Lemma NewPgImp_inv s : pool_inv s → pool_inv (NewPgImp s).2.
Proof.
  intros HI. unfold NewPgImp.
  destruct (acquire_frame s) as [[f s1]|] eqn:Hacq; [|done].
  destruct (acquire_inv s f s1 HI Hacq) as [HI1 Hloose]. simpl.
  by apply (install_inv s1 f (next_page_id_ s1)).
Qed.

Lemma FetchPgImp_inv s p a s' :
  pool_inv s → FetchPgImp s p = Ret a s' → pool_inv s'.
Proof.
  intros HI. unfold FetchPgImp, table_Find.
  destruct (p =? INVALID_PAGE_ID); [done|].
  destruct (page_table_ s !! p) as [f|] eqn:Hp.
  - intros [= _ <-].
    destruct (pi_bound _ HI _ _ Hp) as (Hrange & Hid & Hpin & fi & Hfi & Hfe).
    destruct (touch_infos (replacer_ s) f) as (fi' & Hfi' & Hfe');
      [left; by rewrite Hfi|].
    destruct (touch_fields (replacer_ s) f) as [Hk Hsz].
    eapply (repin_inv s p f _ fi' _ HI Hp); simpl; try done.
    + apply touch_wf; [by destruct HI|lia|by destruct HI].
    + change (page_at (touch_pinned s f) f) with (page_at s f). simpl. lia.
    + change (page_at (touch_pinned s f) f) with (page_at s f). simpl.
      rewrite Hfe'. symmetry. apply Z.eqb_neq. lia.
  - destruct (acquire_frame s) as [[f s1]|] eqn:Hacq; [|by intros [= _ <-]].
    destruct (acquire_inv s f s1 HI Hacq) as [HI1 Hloose]. simpl.
    intros [= _ <-]. by apply (install_inv s1 f p).
Qed.

Lemma UnpinPgImp_inv s p d : pool_inv s → pool_inv (UnpinPgImp s p d).2.
Proof.
  intros HI. unfold UnpinPgImp, table_Find.
  destruct (page_table_ s !! p) as [f|] eqn:Hp; [|done].
  destruct (Z.eqb_spec (pin_count_ (page_at s f)) 0) as [|Hpin]; [done|]. simpl.
  destruct (pi_bound _ HI _ _ Hp) as (Hrange & Hid & Hpin0 & fi & Hfi & Hfe).
  rewrite page_at_set_page;
    [|lia|lia|rewrite (pi_pages _ HI); lia]. rewrite decide_True by done. simpl.
  destruct (Z.eqb_spec (pin_count_ (page_at s f) - 1) 0) as [Hz|Hnz].
  - eapply (repin_inv s p f _ {| time_sequence_ := time_sequence_ fi; evictable_ := true |}
              _ HI Hp); simpl; try done.
    + by apply SetEvictable_infos.
    + apply SetEvictable_fields.
    + apply SetEvictable_fields.
    + apply SetEvictable_wf. by destruct HI.
    + simpl. lia.
    + simpl. symmetry. by apply Z.eqb_eq.
  - eapply (repin_inv s p f _ fi _ HI Hp); simpl; try done.
    + by rewrite insert_id.
    + by destruct HI.
    + simpl. lia.
    + simpl. rewrite Hfe. apply Z.eqb_neq in Hpin, Hnz. congruence.
Qed.

Lemma FlushPgImp_inv s p : pool_inv s → pool_inv (FlushPgImp s p).2.
Proof.
  intros HI. unfold FlushPgImp. destruct (table_Find s p); [|done].
  by apply clear_first_dirty_inv, WritePage_inv.
Qed.

Lemma FlushAllPgsImp_inv s : pool_inv s → pool_inv (FlushAllPgsImp s).
Proof.
  unfold FlushAllPgsImp. generalize (seq 0 (pool_size_ s)). intros l. revert s.
  induction l as [|i l IH]; intros s HI; [done|]. simpl. apply IH.
  unfold flush_frame. destruct (table_Find s _); [|done].
  by apply clear_first_dirty_inv, WritePage_inv.
Qed.

(** [DeletePgImp] never meets the [throw] of [Remove], and keeps the
    invariant. *)
Lemma DeletePgImp_inv s p :
  pool_inv s →
  ∃ b s', DeletePgImp s p = Ret b s' ∧ pool_inv s'.
Proof.
  intros HI. unfold DeletePgImp, table_Find.
  assert (HI0 : pool_inv (DeallocatePage s p)) by (by apply (pool_inv_core s)).
  change (page_table_ (DeallocatePage s p)) with (page_table_ s).
  destruct (page_table_ s !! p) as [f|] eqn:Hp; [|by eexists _, _].
  change (page_at (DeallocatePage s p) f) with (page_at s f).
  destruct (Z.ltb_spec 0 (pin_count_ (page_at s f))) as [|Hpin]; [by eexists _, _|].
  set (s1 := if is_dirty_ (page_at s f)
             then clear_first_dirty
                    (WritePage (DeallocatePage s p) (page_id_ (page_at s f))
                       (data_ (page_at s f)))
             else DeallocatePage s p).
  assert (HI1 : pool_inv s1).
  { unfold s1. destruct (is_dirty_ _); [|done].
    by apply clear_first_dirty_inv, WritePage_inv. }
  assert (page_table_ s1 = page_table_ s ∧ replacer_ s1 = replacer_ s
          ∧ free_list_ s1 = free_list_ s ∧ pool_size_ s1 = pool_size_ s)
    as (Ht & Hr & Hfl & Hn) by (unfold s1; by destruct (is_dirty_ _)).
  rewrite <- Ht in Hp. clearbody s1.
  destruct (pi_bound _ HI1 _ _ Hp) as (Hrange & Hid & Hpin0 & fi & Hfi & Hfe).
  assert (Hpz : pin_count_ (page_at s1 f) = 0).
  { destruct (pi_bound _ HI _ _ ltac:(by rewrite <- Ht)) as (_ & _ & Hge & _).
    destruct (Z.eqb_spec (pin_count_ (page_at s1 f)) 0); [done|].
    (* the flag of [f] is the same in [s] and [s1] *)
    destruct (pi_bound _ HI _ _ ltac:(by rewrite <- Ht)) as (_ & _ & _ & fi0 & Hfi0 & Hfe0).
    rewrite Hr in Hfi. assert (fi0 = fi) as -> by congruence.
    rewrite Hfe in Hfe0. symmetry in Hfe0. apply Z.eqb_neq in Hfe0. lia. }
  unfold Remove. rewrite Hfi, Hfe, Hpz. simpl.
  eexists _, _. split; [reflexivity|].
  pose proof HI1 as [H1 H2 H3 H4 H5 H6 H7 H8 H9].
  pose proof (size_delete_tracked _ _ _ Hfi) as Hsize.
  assert (Hown : ∀ q, page_table_ s1 !! q = Some f → q = p).
  { intros q Hq. destruct (H9 _ _ Hq) as (_ & <- & _). done. }
  assert (Hnf : f ∉ free_list_ s1).
  { intros Hin. destruct (H8 f Hin) as (_ & _ & Hunb). by apply (Hunb p). }
  constructor; simpl; try done.
  - by apply (delete_wf (replacer_ s1) f).
  - intros g gi [_ Hg]%lookup_delete_Some. by apply (H5 g gi).
  - rewrite length_app. simpl. lia.
  - apply NoDup_app. split; [done|]. split; [|apply NoDup_singleton].
    intros g Hg ->%list_elem_of_singleton. done.
  - intros g [Hg | ->%list_elem_of_singleton]%elem_of_app.
    + destruct (H8 g Hg) as (Hr' & Hunt & Hunb). split; [done|].
      split; [by apply lookup_delete_None; right|].
      intros q [_ Hq]%lookup_delete_Some. by apply (Hunb q).
    + split; [done|]. split; [apply lookup_delete_eq|].
      intros q [Hne Hq]%lookup_delete_Some. by apply Hne, eq_sym, Hown.
  - intros q g [Hne Hq]%lookup_delete_Some.
    destruct (H9 _ _ Hq) as (Hr' & Hid' & Hpin' & gi & Hgi & Hge).
    do 3 (split; [done|]). exists gi. split; [|done].
    rewrite lookup_delete_ne; [done|]. intros <-. by apply Hne, eq_sym, Hown.
Qed.

Lemma after_inv s c s' : pool_inv s → after s c = Some s' → pool_inv s'.
Proof.
  intros HI. destruct c as [|p|p d|p| |p]; simpl.
  - intros [= <-]. by apply NewPgImp_inv.
  - destruct (FetchPgImp s p) as [a s1|s1|] eqn:Hf; [|exfalso|done].
    + intros [= <-]. by apply (FetchPgImp_inv s p a).
    + unfold FetchPgImp in Hf. destruct (p =? INVALID_PAGE_ID); [done|].
      destruct (table_Find s p); [done|]. by destruct (acquire_frame s) as [[??]|].
  - intros [= <-]. by apply UnpinPgImp_inv.
  - intros [= <-]. by apply FlushPgImp_inv.
  - intros [= <-]. by apply FlushAllPgsImp_inv.
  - destruct (DeletePgImp_inv s p HI) as (b & s1 & -> & HI1). by intros [= <-].
Qed.

Lemma reachable_inv n k s : 1 ≤ k → reachable n k s → pool_inv s.
Proof.
  intros Hk Hr. induction Hr as [|s c s' _ IH Hc]; [by apply new_pool_inv|].
  by apply (after_inv s c).
Qed.

(** ** C10: an unpinned resident frame is evictable *)

(** C10.  In every state reached from a new pool ([replacer_k ≥ 1]) by
    [NewPgImp], [FetchPgImp], [UnpinPgImp], [FlushPgImp], [FlushAllPgsImp]
    and [DeletePgImp], a frame that the page table binds and whose pin
    count is zero has a record in the replacer that is marked evictable;
    and [DeletePgImp] returns on every page id: the [throw] of
    [LRUKReplacer::Remove] is not met. *)
Theorem unpinned_resident_evictable n k s :
  1 ≤ k → reachable n k s →
  (∀ p f, page_table_ s !! p = Some f → pin_count_ (page_at s f) = 0 →
          is_evictable (replacer_ s) f = true)
  ∧ (∀ p, ∃ b s', DeletePgImp s p = Ret b s').
Proof.
  intros Hk Hr. pose proof (reachable_inv n k s Hk Hr) as HI. split.
  - intros p f Hp Hpin.
    destruct (pi_bound _ HI _ _ Hp) as (_ & _ & _ & fi & Hfi & Hfe).
    unfold is_evictable. by rewrite Hfi, Hfe, Hpin.
  - intros p. destruct (DeletePgImp_inv s p HI) as (b & s' & Hd & _). eauto.
Qed.

Lemma one_page_unpinned_reachable : reachable 2 2 one_page_unpinned.
Proof.
  apply (reach_call 2 2 one_page (CallUnpin 0 false)); [|reflexivity].
  apply (reach_call 2 2 (new_pool 2 2) CallNew); [apply reach_new|reflexivity].
Qed.

Lemma unpinned_resident_evictable_witness :
  1 ≤ 2 ∧ reachable 2 2 one_page_unpinned
  ∧ (∀ p f, page_table_ one_page_unpinned !! p = Some f →
            pin_count_ (page_at one_page_unpinned f) = 0 →
            is_evictable (replacer_ one_page_unpinned) f = true)
  ∧ (∀ p, ∃ b s', DeletePgImp one_page_unpinned p = Ret b s').
Proof.
  split; [lia|]. split; [exact one_page_unpinned_reachable|].
  apply (unpinned_resident_evictable 2 2 one_page_unpinned);
    [lia | exact one_page_unpinned_reachable].
Defined.

(** ** C6: [UnpinPgImp] *)

(** C6.  In a pool that satisfies the invariant, [UnpinPgImp] returns false
    exactly when the page is not resident or the pin count of its frame is
    zero, and then leaves the state as it was; otherwise it returns true,
    the pin count is one less, the dirty flag is the old flag or-ed with the
    argument, the frame is marked evictable in the replacer (by
    [SetEvictable]) exactly when the pin count has reached zero, and
    nothing else changes. *)
Theorem unpin_page_spec s p d :
  pool_inv s →
  ((UnpinPgImp s p d).1 = false
   ↔ page_table_ s !! p = None
     ∨ ∃ f, page_table_ s !! p = Some f ∧ pin_count_ (page_at s f) = 0)
  ∧ ((UnpinPgImp s p d).1 = false → (UnpinPgImp s p d).2 = s)
  ∧ (∀ f, page_table_ s !! p = Some f → pin_count_ (page_at s f) ≠ 0 →
       let s' := (UnpinPgImp s p d).2 in
       (UnpinPgImp s p d).1 = true
       ∧ pin_count_ (page_at s' f) = pin_count_ (page_at s f) - 1
       ∧ is_dirty_ (page_at s' f) = is_dirty_ (page_at s f) || d
       ∧ page_id_ (page_at s' f) = page_id_ (page_at s f)
       ∧ data_ (page_at s' f) = data_ (page_at s f)
       ∧ (∀ g, 0 ≤ g → g ≠ f → page_at s' g = page_at s g)
       ∧ replacer_ s' = (if pin_count_ (page_at s f) - 1 =? 0
                         then SetEvictable (replacer_ s) f true
                         else replacer_ s)
       ∧ (is_evictable (replacer_ s') f = true ↔ pin_count_ (page_at s' f) = 0)
       ∧ page_table_ s' = page_table_ s ∧ free_list_ s' = free_list_ s
       ∧ trace_ s' = trace_ s ∧ disk_ s' = disk_ s).
Proof.
  intros HI. unfold UnpinPgImp, table_Find.
  destruct (page_table_ s !! p) as [f|] eqn:Hp.
  2:{ simpl. split; [split; [by left|done]|]. split; [done|]. by intros f [=]. }
  destruct (pi_bound _ HI _ _ Hp) as (Hrange & Hid & Hpin0 & fi & Hfi & Hfe).
  assert (Hlt : (Z.to_nat f < length (pages_ s))%nat) by (rewrite (pi_pages _ HI); lia).
  destruct (Z.eqb_spec (pin_count_ (page_at s f)) 0) as [Hz|Hnz].
  { simpl. split; [split; [intros _; right; by exists f|done]|].
    split; [done|]. intros f' [= <-] Hne. done. }
  rewrite page_at_set_page by lia. rewrite decide_True by done. simpl.
  split; [split; [done|]|].
  { intros [[=] | (f' & [= <-] & Hz)]. done. }
  split; [done|]. intros f' [= <-] _.
  set (pg := {| data_ := data_ (page_at s f); page_id_ := page_id_ (page_at s f);
                pin_count_ := pin_count_ (page_at s f) - 1;
                is_dirty_ := is_dirty_ (page_at s f) || d |}).
  assert (Hat : ∀ g, 0 ≤ g →
            page_at (set_page s f pg) g = if decide (f = g) then pg else page_at s g)
    by (intros; apply page_at_set_page; lia).
  assert (Hs : ∀ r g, page_at (set_replacer (set_page s f pg) r) g
                      = page_at (set_page s f pg) g) by done.
  destruct (Z.eqb_spec (pin_count_ (page_at s f) - 1) 0) as [Hz|Hnz'];
    rewrite ?Hs, !(Hat f) by lia; rewrite decide_True by done;
    (split; [done|]); do 4 (split; [done|]);
    (split; [intros g Hg Hne; rewrite ?Hs, Hat by lia;
             by rewrite decide_False by done|]);
    (split; [done|]); (split; [|done]).
  - unfold is_evictable. simpl.
    rewrite (SetEvictable_infos _ f true fi Hfi), lookup_insert_eq. done.
  - unfold is_evictable. simpl. rewrite Hfi, Hfe. split; [done|lia].
Qed.

Lemma one_page_inv : pool_inv one_page.
Proof. apply NewPgImp_inv, new_pool_inv. lia. Qed.

Lemma unpin_page_spec_witness :
  pool_inv one_page
  ∧ page_table_ one_page !! 0 = Some 0
  ∧ pin_count_ (page_at one_page 0) ≠ 0
  ∧ (UnpinPgImp one_page 0 true).1 = true
  ∧ pin_count_ (page_at (UnpinPgImp one_page 0 true).2 0)
    = pin_count_ (page_at one_page 0) - 1
  ∧ is_dirty_ (page_at (UnpinPgImp one_page 0 true).2 0)
    = is_dirty_ (page_at one_page 0) || true.
Proof.
  assert (Hp : page_table_ one_page !! 0 = Some 0) by (vm_compute; reflexivity).
  assert (Hn : pin_count_ (page_at one_page 0) ≠ 0) by (vm_compute; discriminate).
  destruct (unpin_page_spec one_page 0 true one_page_inv) as (_ & _ & H).
  destruct (H 0 Hp Hn) as (H1 & H2 & H3 & _).
  split; [exact one_page_inv|]. split; [exact Hp|]. split; [exact Hn|].
  split; [exact H1|]. split; [exact H2|exact H3].
Defined.

(** ** C7: [DeletePgImp] *)

(** C7.  In a pool that satisfies the invariant, [DeletePgImp] first hands
    the page id to [DeallocatePage], resident or not.  It then returns true
    with nothing else done when the page is not resident; returns false,
    the binding in place, when the frame is pinned; and for an unpinned
    resident frame writes the buffer to disk if the frame is dirty, erases
    the record of the frame in the replacer, appends the frame to the free
    list, removes the binding and returns true. *)
Theorem delete_page_spec s p :
  pool_inv s →
  match page_table_ s !! p with
  | None => DeletePgImp s p = Ret true (DeallocatePage s p)
  | Some f =>
      if 0 <? pin_count_ (page_at s f)
      then DeletePgImp s p = Ret false (DeallocatePage s p)
           ∧ page_table_ (DeallocatePage s p) !! p = Some f
      else ∃ s', DeletePgImp s p = Ret true s'
             ∧ trace_ s' = trace_ s ++ [EvDeallocate p]
                           ++ (if is_dirty_ (page_at s f)
                               then [EvWritePage p (data_ (page_at s f))] else [])
                           ++ [EvTableRemove p]
             ∧ disk_ s' = (if is_dirty_ (page_at s f)
                           then <[p := data_ (page_at s f)]> (disk_ s) else disk_ s)
             ∧ frame_infos_ (replacer_ s') = delete f (frame_infos_ (replacer_ s))
             ∧ page_table_ s' = delete p (page_table_ s)
             ∧ free_list_ s' = free_list_ s ++ [f]
  end
  ∧ trace_ (DeallocatePage s p) = trace_ s ++ [EvDeallocate p].
Proof.
  intros HI. split; [|done]. unfold DeletePgImp, table_Find.
  change (page_table_ (DeallocatePage s p)) with (page_table_ s).
  destruct (page_table_ s !! p) as [f|] eqn:Hp; [|done].
  change (page_at (DeallocatePage s p) f) with (page_at s f).
  destruct (Z.ltb_spec 0 (pin_count_ (page_at s f))) as [|Hpin]; [done|].
  destruct (pi_bound _ HI _ _ Hp) as (Hrange & Hid & Hpin0 & fi & Hfi & Hfe).
  assert (Hev : evictable_ fi = true) by (rewrite Hfe; apply Z.eqb_eq; lia).
  rewrite Hid.
  destruct (is_dirty_ (page_at s f)); simpl; unfold Remove; simpl;
    rewrite Hfi, Hev; simpl; eexists; (split; [reflexivity|]); simpl;
    rewrite <- ?app_assoc; done.
Qed.

Lemma delete_page_spec_witness :
  pool_inv one_page_unpinned
  ∧ page_table_ one_page_unpinned !! 0 = Some 0
  ∧ ∃ s', DeletePgImp one_page_unpinned 0 = Ret true s'
          ∧ page_table_ s' = delete 0 (page_table_ one_page_unpinned)
          ∧ free_list_ s' = free_list_ one_page_unpinned ++ [0].
Proof.
  assert (HI : pool_inv one_page_unpinned) by (apply UnpinPgImp_inv, one_page_inv).
  assert (Hp : page_table_ one_page_unpinned !! 0 = Some 0) by (vm_compute; reflexivity).
  split; [exact HI|]. split; [exact Hp|].
  pose proof (proj1 (delete_page_spec one_page_unpinned 0 HI)) as H.
  destruct H as (s' & H1 & _ & _ & _ & H5 & H6).
  exists s'. split; [exact H1|]. split; [exact H5|exact H6].
Defined.

(** ** C8: write-back of a victim *)

(** C8.  When [NewPgImp] or [FetchPgImp] (on a page that is not resident)
    finds the free list empty and the replacer names a victim, the calls it
    makes are, in order: [WritePage] of the victim's page id and buffer if
    and only if the victim's dirty flag is set at that moment; the removal
    of the victim's page id from the page table; the insertion of the new
    binding (and, for [FetchPgImp], the read).  A clean victim adds no
    write, and the disk is untouched. *)
Theorem eviction_write_back s f r' :
  free_list_ s = [] → Evict (replacer_ s) = (Some f, r') →
  let victim := page_at s f in
  let write_back :=
    if is_dirty_ victim then [EvWritePage (page_id_ victim) (data_ victim)] else [] in
  let disk' :=
    if is_dirty_ victim then <[page_id_ victim := data_ victim]> (disk_ s) else disk_ s in
  (NewPgImp s).1 = Some (next_page_id_ s, f)
  ∧ trace_ (NewPgImp s).2
    = trace_ s ++ write_back
      ++ [EvTableRemove (page_id_ victim); EvTableInsert (next_page_id_ s) f]
  ∧ disk_ (NewPgImp s).2 = disk'
  ∧ ∀ p, p ≠ INVALID_PAGE_ID → page_table_ s !! p = None →
      ∃ s', FetchPgImp s p = Ret (Some f) s'
        ∧ trace_ s' = trace_ s ++ write_back
                      ++ [EvTableRemove (page_id_ victim); EvTableInsert p f;
                          EvReadPage p]
        ∧ disk_ s' = disk'.
Proof.
  intros Hfree Hev. cbv zeta.
  assert (Hacq : ∃ s1, acquire_frame s = Some (f, s1)
            ∧ next_page_id_ s1 = next_page_id_ s
            ∧ trace_ s1 = trace_ s
                ++ (if is_dirty_ (page_at s f)
                    then [EvWritePage (page_id_ (page_at s f)) (data_ (page_at s f))]
                    else [])
                ++ [EvTableRemove (page_id_ (page_at s f))]
            ∧ disk_ s1 = (if is_dirty_ (page_at s f)
                          then <[page_id_ (page_at s f) := data_ (page_at s f)]> (disk_ s)
                          else disk_ s)).
  { unfold acquire_frame. rewrite Hfree, Hev.
    change (page_at (set_replacer s r') f) with (page_at s f).
    eexists. split; [reflexivity|].
    destruct (is_dirty_ (page_at s f)); simpl; rewrite <- ?app_assoc; done. }
  destruct Hacq as (s1 & Hacq & Hnext & Htr & Hdisk).
  split; [|split; [|split]].
  - unfold NewPgImp. by rewrite Hacq, Hnext.
  - unfold NewPgImp. rewrite Hacq. simpl. rewrite Htr, Hnext.
    by rewrite <- !app_assoc.
  - unfold NewPgImp. rewrite Hacq. simpl. done.
  - intros p Hp Hnone. unfold FetchPgImp, table_Find.
    rewrite (proj2 (Z.eqb_neq _ _) Hp), Hnone, Hacq. simpl.
    eexists. split; [reflexivity|]. simpl. rewrite Htr. split; [|done].
    by rewrite <- !app_assoc.
Qed.

Lemma eviction_write_back_witness :
  free_list_ full_pool_dirty = []
  ∧ Evict (replacer_ full_pool_dirty) = (Some 0, (Evict (replacer_ full_pool_dirty)).2)
  ∧ is_dirty_ (page_at full_pool_dirty 0) = true
  ∧ trace_ (NewPgImp full_pool_dirty).2
    = trace_ full_pool_dirty
      ++ (if is_dirty_ (page_at full_pool_dirty 0)
          then [EvWritePage (page_id_ (page_at full_pool_dirty 0))
                  (data_ (page_at full_pool_dirty 0))]
          else [])
      ++ [EvTableRemove (page_id_ (page_at full_pool_dirty 0));
          EvTableInsert (next_page_id_ full_pool_dirty) 0].
Proof.
  assert (Hfree : free_list_ full_pool_dirty = []) by (vm_compute; reflexivity).
  assert (Hev : Evict (replacer_ full_pool_dirty)
                = (Some 0, (Evict (replacer_ full_pool_dirty)).2))
    by (vm_compute; reflexivity).
  split; [exact Hfree|]. split; [exact Hev|].
  split; [vm_compute; reflexivity|].
  exact (proj1 (proj2 (eviction_write_back full_pool_dirty 0 _ Hfree Hev))).
Defined.

(** ** C1: [FlushPgImp] *)

(** C1.  What [FlushPgImp] does: false and no change when the page is not
    resident; otherwise true, one [WritePage] of the frame's page id and
    buffer, pin counts untouched, and the dirty flag cleared on the first
    element of the frame array, whichever frame was flushed.  So with page
    1 resident and dirty in frame 1 of a pool of two frames, [FlushPgImp 1]
    writes page 1 and leaves frame 1 dirty. *)
Theorem flush_page_clears_first_frame :
  (∀ s p, page_table_ s !! p = None → FlushPgImp s p = (false, s))
  ∧ (∀ s p f, page_table_ s !! p = Some f →
       let s' := (FlushPgImp s p).2 in
       (FlushPgImp s p).1 = true
       ∧ trace_ s' = trace_ s ++ [EvWritePage (page_id_ (page_at s f)) (data_ (page_at s f))]
       ∧ (∀ g, pin_count_ (page_at s' g) = pin_count_ (page_at s g))
       ∧ (∀ g, (0 < Z.to_nat g)%nat → is_dirty_ (page_at s' g) = is_dirty_ (page_at s g))
       ∧ ((0 < length (pages_ s))%nat → is_dirty_ (page_at s' 0) = false))
  ∧ ∃ s, run (new_pool 2 2) [CallNew; CallNew; CallUnpin 1 true] = Some s
      ∧ page_table_ s !! 1 = Some 1
      ∧ pin_count_ (page_at s 1) = 0
      ∧ is_dirty_ (page_at s 1) = true
      ∧ (FlushPgImp s 1).1 = true
      ∧ trace_ (FlushPgImp s 1).2 = trace_ s ++ [EvWritePage 1 zeroed]
      ∧ is_dirty_ (page_at (FlushPgImp s 1).2 1) = true.
Proof.
  split; [|split].
  - intros s p Hp. unfold FlushPgImp, table_Find. by rewrite Hp.
  - intros s p f Hp. cbv zeta. unfold FlushPgImp, table_Find. rewrite Hp. simpl.
    split; [done|]. split; [done|]. split; [|split].
    + intros g. by apply (page_at_overwrite (WritePage s _ _) 0).
    + intros g Hg. unfold page_at. simpl.
      rewrite list_lookup_insert_ne; [done|lia].
    + intros Hlen. unfold page_at. simpl.
      by rewrite list_lookup_insert_eq.
  - eexists. split; [vm_compute; reflexivity|]. vm_compute. repeat split.
Qed.

(** *** Scenarios S3 to S5 of the specification *)

Example s3_cold_miss :
  trace_ <$> run (new_pool 2 2)
               [CallNew; CallNew; CallNew; CallUnpin 0 false; CallNew]
  = Some [EvTableInsert 0 0; EvTableInsert 1 1; EvTableRemove 0; EvTableInsert 2 0].
Proof. vm_compute. reflexivity. Qed.

Example s4_dirty_eviction :
  trace_ <$> run (new_pool 2 2)
               [CallNew; CallNew; CallNew; CallUnpin 0 true; CallNew]
  = Some [EvTableInsert 0 0; EvTableInsert 1 1; EvWritePage 0 zeroed;
          EvTableRemove 0; EvTableInsert 2 0].
Proof. vm_compute. reflexivity. Qed.

Example s5_delete_pinned :
  match DeletePgImp (NewPgImp (new_pool 2 2)).2 0 with
  | Ret false s =>
      page_table_ s !! 0 = Some 0
      ∧ match DeletePgImp (UnpinPgImp s 0 false).2 0 with
        | Ret true s' => free_list_ s' = [1; 0] ∧ page_table_ s' !! 0 = None
        | _ => False
        end
  | _ => False
  end.
Proof. vm_compute. repeat split. Qed.

(** Scenario S6: two fetches of a resident page pin it twice; the first
    unpin leaves it pinned, the second makes its frame evictable. *)
Example s6_fetch_hit :
  match FetchPgImp one_page_unpinned 0 with
  | Ret (Some 0) s1 =>
      match FetchPgImp s1 0 with
      | Ret (Some 0) s2 =>
          pin_count_ (page_at s2 0) = 2
          ∧ is_evictable (replacer_ (UnpinPgImp s2 0 false).2) 0 = false
          ∧ is_evictable
              (replacer_ (UnpinPgImp (UnpinPgImp s2 0 false).2 0 false).2) 0 = true
      | _ => False
      end
  | _ => False
  end.
Proof. vm_compute. repeat split. Qed.

(** ** Further properties of the buffer pool manager *)

Lemma Evict_None_iff r :
  wf_infos r →
  (Evict r).1 = None
  ↔ ∀ g gi, frame_infos_ r !! g = Some gi → evictable_ gi = false.
Proof.
  intros Hwf.
  destruct (Evict_cases r Hwf) as [[-> Hn] | (f & fi & -> & Hf & Hfe & _)]; simpl.
  - done.
  - split; [done|]. intros Hn. specialize (Hn f fi Hf). congruence.
Qed.

Lemma acquire_frame_None_iff s :
  pool_inv s →
  acquire_frame s = None
  ↔ free_list_ s = []
    ∧ ∀ g gi, frame_infos_ (replacer_ s) !! g = Some gi → evictable_ gi = false.
Proof.
  intros HI. rewrite <- (Evict_None_iff _ (pi_wf _ HI)). split.
  - apply acquire_frame_None.
  - intros [Hfree Hev]. unfold acquire_frame. rewrite Hfree.
    destruct (Evict (replacer_ s)) as [[g|] r']; [done|done].
Qed.

(** Where an acquired frame comes from: the front of the free list, and
    the replacer only when the list is empty. *)
Lemma acquired_source s f s1 :
  acquired s f s1 →
  free_list_ s = f :: free_list_ s1
  ∨ (free_list_ s = [] ∧ (Evict (replacer_ s)).1 = Some f).
Proof.
  intros [Hfree _ _ _ | Hfree _ Hev _ _]; [by left|right]. by rewrite Hev.
Qed.

(** The frame that [NewPgImp] and [FetchPgImp] fill after acquisition. *)
Lemma installed s1 f s2 pg :
  pool_inv s1 → loose s1 f →
  pages_ s2 = pages_ s1 → replacer_ s2 = replacer_ s1 →
  let s' := touch_pinned (set_page s2 f pg) f in
  page_at s' f = pg
  ∧ (∀ g, 0 ≤ g → g ≠ f → page_at s' g = page_at s1 g)
  ∧ is_evictable (replacer_ s') f = false
  ∧ (∀ g, g ≠ f → frame_infos_ (replacer_ s') !! g = frame_infos_ (replacer_ s1) !! g)
  ∧ is_Some (frame_infos_ (replacer_ s') !! f).
Proof.
  intros HI [L1 L2 L3 L4 L5] Hpg Hr s'.
  assert (Hlt : (Z.to_nat f < length (pages_ s2))%nat)
    by (rewrite Hpg, (pi_pages _ HI); lia).
  destruct (touch_infos (replacer_ s1) f) as (fi & Hfi & Hfe).
  { right. rewrite (pi_size _ HI). lia. }
  assert (Hinfos : frame_infos_ (replacer_ s') = <[f := fi]> (frame_infos_ (replacer_ s1))).
  { unfold s', touch_pinned. simpl. by rewrite Hr. }
  split; [|split; [|split; [|split]]].
  - change (page_at s' f) with (page_at (set_page s2 f pg) f).
    rewrite page_at_set_page by lia. by rewrite decide_True.
  - intros g Hg Hne. change (page_at s' g) with (page_at (set_page s2 f pg) g).
    rewrite page_at_set_page by lia. rewrite decide_False by done.
    unfold page_at. by rewrite Hpg.
  - unfold is_evictable. by rewrite Hinfos, lookup_insert_eq.
  - intros g Hne. by rewrite Hinfos, lookup_insert_ne.
  - rewrite Hinfos, lookup_insert_eq. by eexists.
Qed.

(** X13.  [NewPgImp] in a pool that satisfies the invariant.  It gives
    nothing exactly when the free list is empty and no record of the
    replacer is evictable, and then changes nothing.  Otherwise the page id
    is the value of [next_page_id_], which is stepped by one; the frame is
    the front of the free list, and a victim of the replacer only when the
    list is empty; the table binds the page to the frame, the frame is
    zeroed, clean, pinned once and not evictable, and no other frame is
    written. *)
Theorem new_page_spec s :
  pool_inv s →
  ((NewPgImp s).1 = None
   ↔ free_list_ s = []
     ∧ ∀ g gi, frame_infos_ (replacer_ s) !! g = Some gi → evictable_ gi = false)
  ∧ ((NewPgImp s).1 = None → (NewPgImp s).2 = s)
  ∧ ∀ p f, (NewPgImp s).1 = Some (p, f) →
      let s' := (NewPgImp s).2 in
      p = next_page_id_ s ∧ next_page_id_ s' = p + 1
      ∧ 0 ≤ f < Z.of_nat (pool_size_ s)
      ∧ (free_list_ s = f :: free_list_ s'
         ∨ (free_list_ s = [] ∧ (Evict (replacer_ s)).1 = Some f))
      ∧ page_table_ s' !! p = Some f
      ∧ page_at s' f = {| data_ := zeroed; page_id_ := p; pin_count_ := 1;
                          is_dirty_ := false |}
      ∧ is_evictable (replacer_ s') f = false
      ∧ ∀ g, 0 ≤ g → g ≠ f → page_at s' g = page_at s g.
Proof.
  intros HI. rewrite <- (acquire_frame_None_iff s HI). unfold NewPgImp.
  destruct (acquire_frame s) as [[f s1]|] eqn:Hacq; simpl; [|done].
  split; [done|]. split; [done|]. intros p f' [= <- <-].
  destruct (acquire_frame_Some s f s1 Hacq) as (Hhow & Hn & Hpg & Hnext).
  destruct (acquire_inv s f s1 HI Hacq) as [HI1 Hloose].
  set (s2 := table_Insert (set_next_page_id s1 (next_page_id_ s1 + 1))
               (next_page_id_ s1) f).
  set (pg := {| data_ := zeroed; page_id_ := next_page_id_ s1; pin_count_ := 1;
                is_dirty_ := false |}).
  destruct (installed s1 f s2 pg HI1 Hloose eq_refl eq_refl) as (Hat & Hoth & Hev & _).
  split; [done|]. split; [done|]. split; [rewrite <- Hn; by destruct Hloose|].
  split; [exact (acquired_source s f s1 Hhow)|]. split; [apply lookup_insert_eq|].
  split; [done|]. split; [done|].
  intros g Hg Hne. etrans; [exact (Hoth g Hg Hne)|]. unfold page_at. by rewrite Hpg.
Qed.

Lemma page_id_overwrite s f pg g :
  page_id_ pg = page_id_ (page_at s f) →
  page_id_ (page_at (set_page s f pg) g) = page_id_ (page_at s g).
Proof.
  intros Hid. unfold page_at, set_page in *. simpl.
  destruct (decide (Z.to_nat f = Z.to_nat g)) as [He|Hne].
  - rewrite <- He. destruct (decide (Z.to_nat f < length (pages_ s))%nat) as [Hlt|Hge].
    + by rewrite list_lookup_insert_eq.
    + by rewrite list_insert_ge by lia.
  - by rewrite list_lookup_insert_ne.
Qed.

Lemma FetchPgImp_hit s p f :
  pool_inv s → p ≠ INVALID_PAGE_ID → page_table_ s !! p = Some f →
  ∃ s', FetchPgImp s p = Ret (Some f) s'
    ∧ page_at s' f = {| data_ := data_ (page_at s f); page_id_ := p;
                        pin_count_ := pin_count_ (page_at s f) + 1;
                        is_dirty_ := is_dirty_ (page_at s f) |}
    ∧ (∀ g, 0 ≤ g → g ≠ f → page_at s' g = page_at s g)
    ∧ is_evictable (replacer_ s') f = false
    ∧ (∀ g, g ≠ f → frame_infos_ (replacer_ s') !! g = frame_infos_ (replacer_ s) !! g)
    ∧ dom (frame_infos_ (replacer_ s')) = dom (frame_infos_ (replacer_ s))
    ∧ pool_size_ s' = pool_size_ s
    ∧ page_table_ s' = page_table_ s ∧ free_list_ s' = free_list_ s
    ∧ next_page_id_ s' = next_page_id_ s
    ∧ trace_ s' = trace_ s ∧ disk_ s' = disk_ s.
Proof.
  intros HI Hne Hp. unfold FetchPgImp, table_Find.
  destruct (Z.eqb_spec p INVALID_PAGE_ID) as [|_]; [done|]. rewrite Hp.
  eexists. split; [reflexivity|].
  destruct (pi_bound _ HI _ _ Hp) as (Hrange & Hid & Hpin & fi & Hfi & Hfe).
  assert (Hlt : (Z.to_nat f < length (pages_ s))%nat) by (rewrite (pi_pages _ HI); lia).
  destruct (touch_infos (replacer_ s) f) as (fi' & Hfi' & Hfe'); [left; by rewrite Hfi|].
  change (page_at (touch_pinned s f) f) with (page_at s f).
  split; [|split; [|split; [|split; [|split]]]].
  - rewrite page_at_set_page by (simpl; lia). rewrite decide_True by done. by rewrite Hid.
  - intros g Hg Hgf. rewrite page_at_set_page by (simpl; lia). by rewrite decide_False.
  - unfold is_evictable. simpl. by rewrite Hfi', lookup_insert_eq.
  - intros g Hgf. simpl. by rewrite Hfi', lookup_insert_ne.
  - simpl. rewrite Hfi'. apply dom_insert_lookup_L. by rewrite Hfi.
  - done.
Qed.

(** X14.  [FetchPgImp] of a resident page: the frame the table names is
    returned with its pin count one higher and marked not evictable; its
    buffer, page id and dirty flag, the other frames, the other records of
    the replacer, the table, the free list and the page-id counter are as
    they were, and neither the disk nor the table is called. *)
Theorem fetch_hit_spec s p f :
  pool_inv s → p ≠ INVALID_PAGE_ID → page_table_ s !! p = Some f →
  ∃ s', FetchPgImp s p = Ret (Some f) s'
    ∧ page_at s' f = {| data_ := data_ (page_at s f); page_id_ := p;
                        pin_count_ := pin_count_ (page_at s f) + 1;
                        is_dirty_ := is_dirty_ (page_at s f) |}
    ∧ (∀ g, 0 ≤ g → g ≠ f → page_at s' g = page_at s g)
    ∧ is_evictable (replacer_ s') f = false
    ∧ (∀ g, g ≠ f → frame_infos_ (replacer_ s') !! g = frame_infos_ (replacer_ s) !! g)
    ∧ page_table_ s' = page_table_ s ∧ free_list_ s' = free_list_ s
    ∧ next_page_id_ s' = next_page_id_ s
    ∧ trace_ s' = trace_ s ∧ disk_ s' = disk_ s.
Proof.
  intros HI Hne Hp.
  destruct (FetchPgImp_hit s p f HI Hne Hp)
    as (s' & H1 & H2 & H3 & H4 & H5 & _ & _ & H6 & H7 & H8 & H9 & H10).
  exists s'. do 9 (split; [done|]). done.
Qed.

(** X15.  [FetchPgImp] of a page that is not resident.  With the free list
    empty and no evictable record it gives nothing and changes nothing.
    Otherwise it returns the front of the free list, or a victim of the
    replacer when the list is empty; the table binds the page to the frame,
    the buffer of the frame is what the disk holds for the page (zeroes for
    a page never written), the frame is clean, pinned once and not
    evictable, no other frame is written, the page-id counter is as it was,
    and the last two calls are the binding and the read. *)
Theorem fetch_miss_spec s p :
  pool_inv s → p ≠ INVALID_PAGE_ID → page_table_ s !! p = None →
  (FetchPgImp s p = Ret None s
   ∧ free_list_ s = []
   ∧ ∀ g gi, frame_infos_ (replacer_ s) !! g = Some gi → evictable_ gi = false)
  ∨ ∃ f s', FetchPgImp s p = Ret (Some f) s'
      ∧ (free_list_ s = f :: free_list_ s'
         ∨ (free_list_ s = [] ∧ (Evict (replacer_ s)).1 = Some f))
      ∧ 0 ≤ f < Z.of_nat (pool_size_ s)
      ∧ page_table_ s' !! p = Some f
      ∧ page_at s' f = {| data_ := default zeroed (disk_ s' !! p); page_id_ := p;
                          pin_count_ := 1; is_dirty_ := false |}
      ∧ (∀ g, 0 ≤ g → g ≠ f → page_at s' g = page_at s g)
      ∧ is_evictable (replacer_ s') f = false
      ∧ next_page_id_ s' = next_page_id_ s
      ∧ ∃ tr, trace_ s' = tr ++ [EvTableInsert p f; EvReadPage p].
Proof.
  intros HI Hne Hp. unfold FetchPgImp, table_Find.
  destruct (Z.eqb_spec p INVALID_PAGE_ID) as [|_]; [done|]. rewrite Hp.
  destruct (acquire_frame s) as [[f s1]|] eqn:Hacq.
  2:{ left. split; [done|]. by apply acquire_frame_None_iff. }
  right. destruct (acquire_frame_Some s f s1 Hacq) as (Hhow & Hn & Hpg & Hnext).
  destruct (acquire_inv s f s1 HI Hacq) as [HI1 Hloose]. simpl.
  eexists f, _. split; [reflexivity|].
  set (s3 := (ReadPage (table_Insert s1 p f) p).2).
  set (pg := {| data_ := default zeroed (disk_ s1 !! p); page_id_ := p;
                pin_count_ := 1; is_dirty_ := false |}).
  destruct (installed s1 f s3 pg HI1 Hloose eq_refl eq_refl) as (Hat & Hoth & Hev & _).
  split; [exact (acquired_source s f s1 Hhow)|].
  split; [rewrite <- Hn; by destruct Hloose|].
  split; [apply lookup_insert_eq|]. split; [done|].
  split.
  { intros g Hg Hgf. etrans; [exact (Hoth g Hg Hgf)|]. unfold page_at. by rewrite Hpg. }
  split; [done|]. split; [done|].
  exists (trace_ s1). simpl. by rewrite <- app_assoc.
Qed.

(** *** Flushing *)

Lemma flushed_refl s : flushed s s.
Proof. by constructor. Qed.

Lemma flushed_trans s1 s2 s3 : flushed s1 s2 → flushed s2 s3 → flushed s1 s3.
Proof.
  intros [A1 A2 A3 A4 A5 A6 A7] [B1 B2 B3 B4 B5 B6 B7].
  constructor; try congruence.
  - intros g. destruct (A6 g) as (<- & <- & <-). apply B6.
  - intros g Hg. rewrite <- (A7 g Hg). by apply B7.
Qed.

Lemma flushed_write_clear s p d : flushed s (clear_first_dirty (WritePage s p d)).
Proof.
  constructor; try done.
  - intros g. unfold clear_first_dirty, set_page, page_at. simpl.
    destruct (pages_ s) as [|p0 ps]; [done|]. by destruct (Z.to_nat g).
  - intros g Hg. unfold clear_first_dirty, set_page, page_at. simpl.
    destruct (pages_ s) as [|p0 ps]; [done|]. destruct (Z.to_nat g); [lia|done].
Qed.

Lemma flush_frames_spec s l :
  let write i :=
    let pg := page_at s (Z.of_nat i) in
    match page_table_ s !! page_id_ pg with
    | Some _ => [EvWritePage (page_id_ pg) (data_ pg)]
    | None => []
    end in
  let s' := fold_left flush_frame l s in
  flushed s s'
  ∧ trace_ s' = trace_ s ++ flat_map write l
  ∧ (∀ p, page_table_ s !! p = None → disk_ s' !! p = disk_ s !! p)
  ∧ (∀ p i, is_Some (page_table_ s !! p) → i ∈ l →
       page_id_ (page_at s (Z.of_nat i)) = p →
       ∃ j, j ∈ l ∧ page_id_ (page_at s (Z.of_nat j)) = p
            ∧ disk_ s' !! p = Some (data_ (page_at s (Z.of_nat j)))).
Proof.
  intros write. induction l as [|i l IH] using rev_ind; simpl.
  - split; [apply flushed_refl|]. split; [by rewrite app_nil_r|]. split; [done|].
    intros p i _ Hi. by apply elem_of_nil in Hi.
  - rewrite fold_left_app, flat_map_app. simpl.
    destruct IH as (F & T & D1 & D2). set (sl := fold_left flush_frame l s) in *.
    destruct (fl_frames _ _ F (Z.of_nat i)) as (Hid & Hdata & _).
    unfold flush_frame, table_Find. rewrite Hid, Hdata, (fl_table _ _ F).
    unfold write at 2. rewrite app_nil_r.
    destruct (page_table_ s !! page_id_ (page_at s (Z.of_nat i))) as [f|] eqn:Hb.
    + split; [eapply flushed_trans; [exact F|apply flushed_write_clear]|].
      split; [simpl; by rewrite T, <- app_assoc|]. split.
      * intros p Hp. simpl. rewrite lookup_insert_ne; [by apply D1|]. congruence.
      * intros p j Hsome [Hj | ->%list_elem_of_singleton]%elem_of_app Hpid.
        -- destruct (decide (page_id_ (page_at s (Z.of_nat i)) = p)) as [He|Hne].
           ++ exists i. split; [apply elem_of_app; right; by apply list_elem_of_singleton|].
              split; [done|]. simpl. by rewrite He, lookup_insert_eq.
           ++ destruct (D2 p j Hsome Hj Hpid) as (j' & Hj' & Hpid' & Hd).
              exists j'. split; [apply elem_of_app; by left|]. split; [done|].
              simpl. by rewrite lookup_insert_ne.
        -- exists i. split; [apply elem_of_app; right; by apply list_elem_of_singleton|].
           split; [done|]. simpl. by rewrite Hpid, lookup_insert_eq.
    + split; [done|]. split; [by rewrite app_nil_r|]. split; [done|].
      intros p j Hsome [Hj | ->%list_elem_of_singleton]%elem_of_app Hpid.
      * destruct (D2 p j Hsome Hj Hpid) as (j' & Hj' & Hpid' & Hd).
        exists j'. split; [apply elem_of_app; by left|done].
      * rewrite Hpid in Hb. rewrite Hb in Hsome. by destruct Hsome.
Qed.

(** X16.  [FlushAllPgsImp] goes through the frames in order and writes the
    buffer of every frame whose page id the table binds, pinned or not;
    it leaves the page ids, the buffers and the pin counts of all frames,
    the table, the replacer, the free list and the page-id counter as they
    were, and the dirty flag of every frame but the first.  Afterwards
    the disk holds for every resident page the buffer of a frame that
    carries its page id, and for a page that is not resident what it held
    before. *)
Theorem flush_all_spec s :
  let s' := FlushAllPgsImp s in
  trace_ s' = trace_ s ++ flush_writes s
  ∧ flushed s s'
  ∧ (∀ p, page_table_ s !! p = None → disk_ s' !! p = disk_ s !! p)
  ∧ (pool_inv s → ∀ p f, page_table_ s !! p = Some f →
       ∃ g, 0 ≤ g < Z.of_nat (pool_size_ s) ∧ page_id_ (page_at s g) = p
            ∧ disk_ s' !! p = Some (data_ (page_at s g))).
Proof.
  destruct (flush_frames_spec s (seq 0 (pool_size_ s))) as (F & T & D1 & D2).
  split; [done|]. split; [done|]. split; [done|].
  intros HI p f Hp. destruct (pi_bound _ HI _ _ Hp) as (Hrange & Hid & _).
  destruct (D2 p (Z.to_nat f)) as (j & Hj%elem_of_seq & Hpid & Hd).
  - by rewrite Hp.
  - apply elem_of_seq. lia.
  - by rewrite Z2Nat.id by lia.
  - exists (Z.of_nat j). split; [lia|done].
Qed.

(** *** Unpinning *)

Lemma UnpinPgImp_effect s p f d :
  pool_inv s → page_table_ s !! p = Some f → pin_count_ (page_at s f) ≠ 0 →
  ∃ s', UnpinPgImp s p d = (true, s')
    ∧ page_table_ s' = page_table_ s ∧ free_list_ s' = free_list_ s
    ∧ next_page_id_ s' = next_page_id_ s ∧ pool_size_ s' = pool_size_ s
    ∧ page_at s' f = {| data_ := data_ (page_at s f); page_id_ := p;
                        pin_count_ := pin_count_ (page_at s f) - 1;
                        is_dirty_ := is_dirty_ (page_at s f) || d |}
    ∧ (∀ g, 0 ≤ g → g ≠ f → page_at s' g = page_at s g)
    ∧ dom (frame_infos_ (replacer_ s')) = dom (frame_infos_ (replacer_ s)).
Proof.
  intros HI Hp Hpin. unfold UnpinPgImp, table_Find. rewrite Hp.
  destruct (Z.eqb_spec (pin_count_ (page_at s f)) 0) as [|_]; [done|].
  destruct (pi_bound _ HI _ _ Hp) as (Hrange & Hid & _ & fi & Hfi & _).
  assert (Hlt : (Z.to_nat f < length (pages_ s))%nat) by (rewrite (pi_pages _ HI); lia).
  eexists. split; [reflexivity|].
  rewrite page_at_set_page by lia. rewrite decide_True by done. simpl.
  set (pg := {| data_ := data_ (page_at s f); page_id_ := page_id_ (page_at s f);
                pin_count_ := pin_count_ (page_at s f) - 1;
                is_dirty_ := is_dirty_ (page_at s f) || d |}).
  assert (Hat : page_at (set_page s f pg) f
                = {| data_ := data_ (page_at s f); page_id_ := p;
                     pin_count_ := pin_count_ (page_at s f) - 1;
                     is_dirty_ := is_dirty_ (page_at s f) || d |}).
  { rewrite page_at_set_page by lia. rewrite decide_True by done. unfold pg. by rewrite Hid. }
  assert (Hoth : ∀ g, 0 ≤ g → g ≠ f → page_at (set_page s f pg) g = page_at s g).
  { intros g Hg Hgf. rewrite page_at_set_page by lia. by rewrite decide_False. }
  destruct (pin_count_ (page_at s f) - 1 =? 0); do 4 (split; [done|]).
  - split; [exact Hat|]. split; [exact Hoth|]. simpl.
    rewrite (SetEvictable_infos _ f true fi Hfi). apply dom_insert_lookup_L. by rewrite Hfi.
  - split; [exact Hat|]. split; [exact Hoth|]. done.
Qed.

Lemma bound_flag s p f :
  pool_inv s → page_table_ s !! p = Some f →
  is_evictable (replacer_ s) f = (pin_count_ (page_at s f) =? 0)
  ∧ 0 ≤ pin_count_ (page_at s f).
Proof.
  intros HI Hp. destruct (pi_bound _ HI _ _ Hp) as (_ & _ & Hpin & fi & Hfi & Hfe).
  unfold is_evictable. by rewrite Hfi.
Qed.

Lemma unpin_times_spec p f : ∀ ds s,
  pool_inv s → page_table_ s !! p = Some f →
  Z.of_nat (length ds) ≤ pin_count_ (page_at s f) →
  let s' := (unpin_times s p ds).2 in
  (unpin_times s p ds).1 = replicate (length ds) true
  ∧ pool_inv s' ∧ page_table_ s' !! p = Some f
  ∧ pin_count_ (page_at s' f) = pin_count_ (page_at s f) - Z.of_nat (length ds)
  ∧ is_dirty_ (page_at s' f) = is_dirty_ (page_at s f) || existsb id ds
  ∧ data_ (page_at s' f) = data_ (page_at s f).
Proof.
  induction ds as [|d ds IH]; intros s HI Hp Hlen; simpl.
  - split; [done|]. split; [done|]. split; [done|]. split; [lia|].
    split; [by rewrite orb_false_r|done].
  - simpl in Hlen.
    destruct (UnpinPgImp_effect s p f d HI Hp) as (s1 & Hu & Ht & _ & _ & _ & Hat & _); [lia|].
    assert (pin_count_ (page_at s1 f) = pin_count_ (page_at s f) - 1
            ∧ is_dirty_ (page_at s1 f) = is_dirty_ (page_at s f) || d
            ∧ data_ (page_at s1 f) = data_ (page_at s f)) as (Hpin & Hd & Hdata)
      by (by rewrite Hat).
    pose proof (UnpinPgImp_inv s p d HI) as HI1. rewrite Hu in *. simpl in HI1.
    rewrite <- Ht in Hp. destruct (IH s1 HI1 Hp) as (R & HI' & Hp' & Hpin' & Hd' & Hdata'); [lia|].
    destruct (unpin_times s1 p ds) as [bs s2]. simpl in *.
    split; [by rewrite R|]. split; [done|]. split; [done|]. split; [lia|].
    split; [|congruence]. rewrite Hd', Hd. by destruct (is_dirty_ (page_at s f)), d.
Qed.

(** X17.  A resident page whose pin count is [n] is unpinned [n] times:
    every call returns true; before the last of them the frame is not
    evictable, after it the pin count is zero and the frame is evictable;
    the dirty flag is the old flag or-ed with the flags passed, the buffer
    is as it was, and one more call returns false and changes nothing. *)
Theorem unpin_pin_count_times s p f ds d :
  pool_inv s → page_table_ s !! p = Some f →
  Z.of_nat (length ds) = pin_count_ (page_at s f) →
  let s' := (unpin_times s p ds).2 in
  (unpin_times s p ds).1 = replicate (length ds) true
  ∧ (∀ j, (j < length ds)%nat →
       is_evictable (replacer_ (unpin_times s p (take j ds)).2) f = false)
  ∧ pin_count_ (page_at s' f) = 0
  ∧ is_evictable (replacer_ s') f = true
  ∧ is_dirty_ (page_at s' f) = is_dirty_ (page_at s f) || existsb id ds
  ∧ data_ (page_at s' f) = data_ (page_at s f)
  ∧ UnpinPgImp s' p d = (false, s').
Proof.
  intros HI Hp Hlen.
  destruct (unpin_times_spec p f ds s HI Hp) as (R & HI' & Hp' & Hpin' & Hd' & Hdata');
    [lia|].
  split; [done|]. split.
  { intros j Hj.
    destruct (unpin_times_spec p f (take j ds) s HI Hp) as (_ & HIj & Hpj & Hpinj & _).
    - rewrite length_take. lia.
    - rewrite (proj1 (bound_flag _ p f HIj Hpj)), Hpinj, length_take.
      apply Z.eqb_neq. lia. }
  assert (Hz : pin_count_ (page_at (unpin_times s p ds).2 f) = 0) by lia.
  split; [done|]. split.
  { by rewrite (proj1 (bound_flag _ p f HI' Hp')), Hz. }
  split; [done|]. split; [done|].
  unfold UnpinPgImp, table_Find. by rewrite Hp', Hz.
Qed.

(** *** The pool of a client that fetches allocated pages *)

Lemma tidy_new n k : 1 ≤ k → tidy (new_pool n k).
Proof.
  intros Hk. constructor; [by apply new_pool_inv|simpl..].
  - intros p f Hp. by rewrite lookup_empty in Hp.
  - intros f fi Hf. by rewrite lookup_empty in Hf.
  - rewrite map_size_empty, length_fmap, length_seq. lia.
Qed.

(** Calls that move no frame, bind no page and track no new frame. *)
Lemma tidy_same_frames s s' :
  tidy s → pool_inv s' →
  pool_size_ s' = pool_size_ s → page_table_ s' = page_table_ s →
  free_list_ s' = free_list_ s → next_page_id_ s ≤ next_page_id_ s' →
  dom (frame_infos_ (replacer_ s')) = dom (frame_infos_ (replacer_ s)) →
  (∀ g, 0 ≤ g → page_id_ (page_at s' g) = page_id_ (page_at s g)) →
  tidy s'.
Proof.
  intros [T1 T2 T3 T4] HI' Hn Ht Hf Hnext Hdom Hid. constructor; [done|..].
  - rewrite Ht. intros p f Hp. specialize (T2 p f Hp). lia.
  - intros f fi Hfi. rewrite Ht.
    assert (f ∈ dom (frame_infos_ (replacer_ s))) as [gi Hgi]%elem_of_dom.
    { rewrite <- Hdom. apply elem_of_dom. by exists fi. }
    rewrite Hid; [by apply (T3 f gi)|]. by destruct (pi_tracked _ T1 f gi Hgi).
  - rewrite Hn, Hf, <- T4. f_equal. f_equal.
    by rewrite <- !size_dom, Hdom.
Qed.

(** The frame that is acquired holds no pinned page, and no other frame
    loses its page. *)
Lemma tidy_acquire s f s1 :
  tidy s → acquire_frame s = Some (f, s1) →
  pool_inv s1 ∧ loose s1 f
  ∧ pool_size_ s1 = pool_size_ s ∧ pages_ s1 = pages_ s
  ∧ next_page_id_ s1 = next_page_id_ s
  ∧ (∀ p g, page_table_ s1 !! p = Some g → page_table_ s !! p = Some g)
  ∧ (∀ p g, page_table_ s !! p = Some g → g ≠ f → page_table_ s1 !! p = Some g)
  ∧ (∀ p, page_table_ s !! p = Some f → pin_count_ (page_at s f) = 0)
  ∧ (∀ g gi, frame_infos_ (replacer_ s1) !! g = Some gi →
       page_table_ s1 !! page_id_ (page_at s1 g) = Some g)
  ∧ Z.of_nat (size (frame_infos_ (replacer_ s1)))
    + Z.of_nat (length (free_list_ s1)) + 1 = Z.of_nat (pool_size_ s1).
Proof.
  intros [T1 T2 T3 T4] Hacq.
  destruct (acquire_frame_Some s f s1 Hacq) as (Hhow & Hn & Hpg & Hnext).
  destruct (acquire_inv s f s1 T1 Hacq) as [HI1 Hloose].
  assert (Hat : ∀ g, page_at s1 g = page_at s g) by (intros g; unfold page_at; by rewrite Hpg).
  do 5 (split; [done|]).
  destruct Hhow as [Hfree Hr Ht _ | Hfree Hfree1 Hev Ht _].
  - rewrite Ht, Hr, Hn. split; [done|]. split; [done|]. split.
    { intros p Hp. destruct (pi_free _ T1 f) as (_ & _ & Hunb).
      - rewrite Hfree. apply elem_of_cons. by left.
      - by destruct (Hunb p). }
    split; [intros g gi Hg; rewrite Hat; by apply (T3 g gi)|].
    rewrite Hfree in T4. simpl in T4. lia.
  - destruct (Evict_victim s f _ T1 Hev) as (fi & Hf & Hfe & Hdel & _).
    pose proof (T3 f fi Hf) as Hbound.
    rewrite Ht, Hdel, Hn, Hfree1. split; [|split; [|split; [|split]]].
    + intros p g [_ Hp]%lookup_delete_Some. done.
    + intros p g Hp Hne. rewrite lookup_delete_ne; [done|]. intros <-. congruence.
    + intros p Hp. destruct (pi_bound _ T1 _ _ Hp) as (_ & _ & _ & gi & Hgi & Hge).
      assert (gi = fi) as -> by congruence. rewrite Hfe in Hge.
      symmetry in Hge. by apply Z.eqb_eq in Hge.
    + intros g gi [Hne Hg]%lookup_delete_Some. rewrite Hat.
      rewrite lookup_delete_ne; [by apply (T3 g gi)|].
      intros He. pose proof (T3 g gi Hg) as Hgb. rewrite <- He in Hgb. congruence.
    + rewrite Hfree in T4. pose proof (size_delete_tracked _ _ _ Hf) as Hsz.
      simpl in *. lia.
Qed.

(** An acquired frame is bound to a page that is not resident. *)
Lemma tidy_install s1 f p s2 pg N :
  pool_inv s1 → loose s1 f →
  (∀ q g, page_table_ s1 !! q = Some g → q < N) →
  (∀ g gi, frame_infos_ (replacer_ s1) !! g = Some gi →
     page_table_ s1 !! page_id_ (page_at s1 g) = Some g) →
  Z.of_nat (size (frame_infos_ (replacer_ s1)))
  + Z.of_nat (length (free_list_ s1)) + 1 = Z.of_nat (pool_size_ s1) →
  page_table_ s1 !! p = None →
  pool_size_ s2 = pool_size_ s1 → pages_ s2 = pages_ s1 →
  page_table_ s2 = <[p := f]> (page_table_ s1) →
  replacer_ s2 = replacer_ s1 → free_list_ s2 = free_list_ s1 →
  N ≤ next_page_id_ s2 → p < next_page_id_ s2 →
  page_id_ pg = p → pin_count_ pg = 1 →
  tidy (touch_pinned (set_page s2 f pg) f).
Proof.
  intros HI1 Hloose Hall Htr Hfull Hp Hn Hpg Ht Hr Hf HN HpN Hid Hpin.
  pose proof (install_inv s1 f p s2 pg HI1 Hloose Hn Hpg Ht Hr Hf Hid Hpin) as HI'.
  destruct (installed s1 f s2 pg HI1 Hloose Hpg Hr) as (Hat & Hoth & _ & Hinf & Hsome).
  constructor; [done|..].
  - intros q g. change (page_table_ (touch_pinned (set_page s2 f pg) f))
      with (page_table_ s2). rewrite Ht.
    change (next_page_id_ (touch_pinned (set_page s2 f pg) f)) with (next_page_id_ s2).
    intros [[<- <-] | [_ Hq]]%lookup_insert_Some; [done|].
    specialize (Hall q g Hq). lia.
  - intros g gi Hg. change (page_table_ (touch_pinned (set_page s2 f pg) f))
      with (page_table_ s2). rewrite Ht.
    destruct (decide (g = f)) as [->|Hne].
    + rewrite Hat, Hid. apply lookup_insert_eq.
    + rewrite (Hinf g Hne) in Hg.
      rewrite Hoth; [|by destruct (pi_tracked _ HI1 g gi Hg)|done].
      pose proof (Htr g gi Hg) as Hb.
      rewrite lookup_insert_ne; [done|]. intros He. rewrite <- He in Hb. congruence.
  - change (free_list_ (touch_pinned (set_page s2 f pg) f)) with (free_list_ s2).
    change (pool_size_ (touch_pinned (set_page s2 f pg) f)) with (pool_size_ s2).
    rewrite Hf, Hn, <- Hfull.
    assert (size (frame_infos_ (replacer_ (touch_pinned (set_page s2 f pg) f)))
            = S (size (frame_infos_ (replacer_ s1)))) as ->; [|lia].
    rewrite <- !size_dom.
    assert (dom (frame_infos_ (replacer_ (touch_pinned (set_page s2 f pg) f)))
            = {[f]} ∪ dom (frame_infos_ (replacer_ s1))) as ->.
    { apply set_eq. intros g. rewrite elem_of_union, elem_of_singleton, !elem_of_dom.
      destruct (decide (g = f)) as [->|Hne]; [by split; [left|]|].
      rewrite (Hinf g Hne). split; [by right|]. by intros [?|?]. }
    rewrite size_union, size_singleton; [done|].
    apply disjoint_singleton_l, not_elem_of_dom. by destruct Hloose.
Qed.

Lemma FlushPgImp_flushed s p : flushed s (FlushPgImp s p).2.
Proof.
  unfold FlushPgImp. destruct (table_Find s p); [|apply flushed_refl].
  apply flushed_write_clear.
Qed.

Lemma tidy_flushed s s' : tidy s → pool_inv s' → flushed s s' → tidy s'.
Proof.
  intros HT HI' [F1 F2 F3 F4 F5 F6 F7].
  apply (tidy_same_frames s s' HT HI'); try done; [lia|by rewrite F3|].
  intros g _. by destruct (F6 g).
Qed.

(** The three ways [DeletePgImp] ends. *)
Lemma DeletePgImp_cases s p :
  pool_inv s →
  (page_table_ s !! p = None ∧ DeletePgImp s p = Ret true (DeallocatePage s p))
  ∨ (∃ f, page_table_ s !! p = Some f ∧ 0 < pin_count_ (page_at s f)
          ∧ DeletePgImp s p = Ret false (DeallocatePage s p))
  ∨ (∃ f s1 s', page_table_ s !! p = Some f ∧ pin_count_ (page_at s f) = 0
       ∧ DeletePgImp s p = Ret true s'
       ∧ flushed s s1 ∧ pool_inv s1
       ∧ pool_size_ s' = pool_size_ s1 ∧ pages_ s' = pages_ s1
       ∧ next_page_id_ s' = next_page_id_ s1
       ∧ page_table_ s' = delete p (page_table_ s1)
       ∧ free_list_ s' = free_list_ s1 ++ [f]
       ∧ frame_infos_ (replacer_ s') = delete f (frame_infos_ (replacer_ s1))
       ∧ Remove (replacer_ s1) f = Some (replacer_ s')).
Proof.
  intros HI. unfold DeletePgImp, table_Find.
  change (page_table_ (DeallocatePage s p)) with (page_table_ s).
  destruct (page_table_ s !! p) as [f|] eqn:Hp; [|by left]. right.
  change (page_at (DeallocatePage s p) f) with (page_at s f).
  destruct (pi_bound _ HI _ _ Hp) as (Hrange & Hid & Hpin0 & fi & Hfi & Hfe).
  destruct (Z.ltb_spec 0 (pin_count_ (page_at s f))) as [|Hpin]; [left; by exists f|].
  right. assert (Hz : pin_count_ (page_at s f) = 0) by lia.
  set (s1 := if is_dirty_ (page_at s f)
             then clear_first_dirty
                    (WritePage (DeallocatePage s p) (page_id_ (page_at s f))
                       (data_ (page_at s f)))
             else DeallocatePage s p).
  assert (HF : flushed s s1).
  { unfold s1. destruct (is_dirty_ _); [|by constructor].
    apply (flushed_trans s (DeallocatePage s p)); [by constructor|].
    apply flushed_write_clear. }
  assert (HI1 : pool_inv s1).
  { unfold s1. destruct (is_dirty_ _); [|by apply (pool_inv_core s)].
    apply clear_first_dirty_inv, WritePage_inv. by apply (pool_inv_core s). }
  clearbody s1. unfold Remove. rewrite (fl_replacer _ _ HF), Hfi, Hfe, Hz. simpl.
  eexists f, s1, _. do 3 (split; [done|]). do 2 (split; [done|]).
  unfold Remove. simpl. rewrite !(fl_replacer _ _ HF), Hfi, Hfe, Hz. by simpl.
Qed.

Lemma tidy_after s c s' : tidy s → allowed s c → after s c = Some s' → tidy s'.
Proof.
  intros HT Hal. pose proof HT as [T1 T2 T3 T4].
  destruct c as [|p|p d|p| |p]; simpl.
  - intros [= <-]. unfold NewPgImp.
    destruct (acquire_frame s) as [[f s1]|] eqn:Hacq; [|done]. simpl.
    destruct (tidy_acquire s f s1 HT Hacq)
      as (HI1 & Hloose & Hn & Hpg & Hnext & Hsub & _ & _ & Htr & Hfull).
    apply (tidy_install s1 f (next_page_id_ s1) _ _ (next_page_id_ s1));
      simpl; try done; try lia.
    + intros q g Hq. rewrite Hnext. by apply (T2 q g), Hsub.
    + destruct (page_table_ s1 !! next_page_id_ s1) as [g|] eqn:Hb; [|done].
      pose proof (T2 _ _ (Hsub _ _ Hb)). lia.
  - destruct (decide (p = INVALID_PAGE_ID)) as [->|Hne].
    { unfold FetchPgImp. by rewrite Z.eqb_refl. }
    destruct (page_table_ s !! p) as [f|] eqn:Hp.
    + destruct (FetchPgImp_hit s p f T1 Hne Hp)
        as (s1 & Hf & Hat & Hoth & _ & _ & Hdom & Hn & Ht & Hfl & Hnext & _).
      rewrite Hf. intros [= <-].
      destruct (pi_bound _ T1 _ _ Hp) as (Hrange & Hid & _).
      apply (tidy_same_frames s s1 HT); try done; [|lia|].
      * by apply (FetchPgImp_inv s p (Some f)).
      * intros g Hg. destruct (decide (g = f)) as [->|Hgf]; [by rewrite Hat, Hid|].
        by rewrite Hoth.
    + unfold FetchPgImp, table_Find.
      destruct (Z.eqb_spec p INVALID_PAGE_ID) as [|_]; [done|]. rewrite Hp.
      destruct (acquire_frame s) as [[f s1]|] eqn:Hacq; [|by intros [= <-]].
      simpl. intros [= <-].
      destruct (tidy_acquire s f s1 HT Hacq)
        as (HI1 & Hloose & Hn & Hpg & Hnext & Hsub & _ & _ & Htr & Hfull).
      simpl in Hal.
      apply (tidy_install s1 f p _ _ (next_page_id_ s1)); simpl; try done; try lia.
      * intros q g Hq. rewrite Hnext. by apply (T2 q g), Hsub.
      * destruct (page_table_ s1 !! p) as [g|] eqn:Hb; [|done].
        pose proof (Hsub _ _ Hb). congruence.
  - intros [= <-]. pose proof (UnpinPgImp_inv s p d T1) as HI'.
    destruct (page_table_ s !! p) as [f|] eqn:Hp.
    2:{ unfold UnpinPgImp, table_Find. by rewrite Hp. }
    destruct (decide (pin_count_ (page_at s f) = 0)) as [Hz|Hnz].
    { unfold UnpinPgImp, table_Find. by rewrite Hp, Hz. }
    destruct (UnpinPgImp_effect s p f d T1 Hp Hnz)
      as (s1 & Hu & Ht & Hfl & Hnext & Hn & Hat & Hoth & Hdom).
    rewrite Hu in *. simpl in *.
    destruct (pi_bound _ T1 _ _ Hp) as (Hrange & Hid & _).
    apply (tidy_same_frames s s1 HT); try done; [lia|].
    intros g Hg. destruct (decide (g = f)) as [->|Hgf]; [by rewrite Hat, Hid|].
    by rewrite Hoth.
  - intros [= <-]. apply (tidy_flushed s); [done| |apply FlushPgImp_flushed].
    by apply FlushPgImp_inv.
  - intros [= <-]. apply (tidy_flushed s); [done| |].
    + by apply FlushAllPgsImp_inv.
    + by destruct (flush_frames_spec s (seq 0 (pool_size_ s))) as (F & _).
  - destruct (DeletePgImp_inv s p T1) as (b & s3 & Hd & HI3).
    rewrite Hd. intros [= <-].
    destruct (DeletePgImp_cases s p T1)
      as [[Hp Hd'] | [(f & Hp & Hpin & Hd') | (f & s1 & s2 & Hp & Hz & Hd' & HF & HI1
                                            & Hn & Hpg & Hnext & Ht & Hfl & Hinf & _)]];
      rewrite Hd' in Hd; injection Hd as <- <-.
    + by apply (tidy_same_frames s).
    + by apply (tidy_same_frames s).
    + pose proof (tidy_flushed s s1 HT HI1 HF) as [U1 U2 U3 U4].
      rewrite <- (fl_table _ _ HF) in Hp.
      destruct (pi_bound _ U1 _ _ Hp) as (Hrange & Hid & _ & fi & Hfi & _).
      assert (Hat : ∀ g, page_at s2 g = page_at s1 g)
        by (intros g; unfold page_at; by rewrite Hpg).
      constructor; [done|..].
      * rewrite Ht, Hnext. intros q g [_ Hq]%lookup_delete_Some. by apply (U2 q g).
      * rewrite Ht, Hinf. intros g gi [Hne Hg]%lookup_delete_Some. rewrite Hat.
        pose proof (U3 g gi Hg) as Hb.
        rewrite lookup_delete_ne; [done|]. intros He. rewrite <- He in Hb. congruence.
      * rewrite Hinf, Hfl, Hn, length_app. simpl.
        pose proof (size_delete_tracked _ _ _ Hfi). lia.
Qed.

Lemma disciplined_tidy n k s : 1 ≤ k → disciplined n k s → tidy s.
Proof.
  intros Hk Hd. induction Hd as [|s c s' _ IH Hal Hc]; [by apply tidy_new|].
  by apply (tidy_after s c).
Qed.

Lemma tidy_injective s p q f :
  tidy s → page_table_ s !! p = Some f → page_table_ s !! q = Some f → p = q.
Proof.
  intros HT Hp Hq.
  destruct (pi_bound _ (ti_inv _ HT) _ _ Hp) as (_ & <- & _).
  by destruct (pi_bound _ (ti_inv _ HT) _ _ Hq) as (_ & <- & _).
Qed.

(** Every frame of the array is in the free list or tracked. *)
Lemma tidy_cover s f :
  tidy s → 0 ≤ f < Z.of_nat (pool_size_ s) →
  f ∈ free_list_ s ∨ is_Some (frame_infos_ (replacer_ s) !! f).
Proof.
  intros [T1 T2 T3 T4] Hf.
  set (L := free_list_ s ++ (map_to_list (frame_infos_ (replacer_ s))).*1).
  set (R := Z.of_nat <$> seq 0 (pool_size_ s)).
  assert (Hkeys : ∀ x, x ∈ (map_to_list (frame_infos_ (replacer_ s))).*1
                       ↔ is_Some (frame_infos_ (replacer_ s) !! x)).
  { intros x. rewrite list_elem_of_fmap. split.
    - intros ([y yi] & -> & Hy%elem_of_map_to_list). by exists yi.
    - intros [xi Hx]. exists (x, xi). split; [done|]. by apply elem_of_map_to_list. }
  assert (Hperm : L ≡ₚ R).
  { apply submseteq_length_Permutation.
    - apply NoDup_submseteq.
      + apply NoDup_app. split; [by destruct T1|]. split; [|apply NoDup_fst_map_to_list].
        intros x Hx [xi Hxi]%Hkeys.
        destruct (pi_free _ T1 x Hx) as (_ & Hnone & _). congruence.
      + intros x Hx.
        assert (0 ≤ x < Z.of_nat (pool_size_ s)) as Hrange.
        { apply elem_of_app in Hx as [Hx | [xi Hxi]%Hkeys].
          - by destruct (pi_free _ T1 x Hx).
          - by apply (pi_tracked _ T1 x xi). }
        apply (list_elem_of_fmap_2' _ _ (Z.to_nat x)); [|lia].
        apply elem_of_seq. lia.
    - unfold L, R. rewrite length_app, !length_fmap, length_seq, length_map_to_list. lia. }
  assert (f ∈ L) as [Hin | Hin%Hkeys]%elem_of_app; [|by left|by right].
  rewrite Hperm. apply (list_elem_of_fmap_2' _ _ (Z.to_nat f)); [|lia].
  apply elem_of_seq. lia.
Qed.

(** X18.  In a pool whose client fetches only page ids that [NewPgImp] has
    handed out, between calls: every frame of the array is in the free
    list or holds a resident page, and not both; a frame holds one page
    and carries its page id; the replacer tracks exactly the frames that
    hold a page; and every resident page id is below [next_page_id_], so
    that the id [NewPgImp] gives next is not resident. *)
Theorem frames_partition n k s :
  1 ≤ k → disciplined n k s →
  (∀ f, 0 ≤ f < Z.of_nat (pool_size_ s) →
     f ∈ free_list_ s ∨ ∃ p, page_table_ s !! p = Some f)
  ∧ (∀ f p, f ∈ free_list_ s → page_table_ s !! p ≠ Some f)
  ∧ (∀ p q f, page_table_ s !! p = Some f → page_table_ s !! q = Some f → p = q)
  ∧ (∀ p f, page_table_ s !! p = Some f →
       0 ≤ f < Z.of_nat (pool_size_ s) ∧ page_id_ (page_at s f) = p
       ∧ p < next_page_id_ s)
  ∧ (∀ f, tracked (replacer_ s) f ↔ ∃ p, page_table_ s !! p = Some f)
  ∧ page_table_ s !! next_page_id_ s = None.
Proof.
  intros Hk Hd. pose proof (disciplined_tidy n k s Hk Hd) as HT.
  pose proof HT as [T1 T2 T3 T4].
  assert (Htr : ∀ f, tracked (replacer_ s) f ↔ ∃ p, page_table_ s !! p = Some f).
  { intros f. split.
    - intros [fi Hfi]. eexists. by apply (T3 f fi).
    - intros [p Hp]. destruct (pi_bound _ T1 _ _ Hp) as (_ & _ & _ & fi & Hfi & _).
      by exists fi. }
  split; [|split; [|split; [|split; [|split]]]].
  - intros f Hf. destruct (tidy_cover s f HT Hf) as [?|Hs]; [by left|right].
    by apply Htr.
  - intros f p Hf. by destruct (pi_free _ T1 f Hf) as (_ & _ & Hunb).
  - intros p q f. by apply tidy_injective.
  - intros p f Hp. destruct (pi_bound _ T1 _ _ Hp) as (Hr & Hid & _).
    split; [done|]. split; [done|]. by apply (T2 p f).
  - done.
  - destruct (page_table_ s !! next_page_id_ s) as [f|] eqn:Hb; [|done].
    specialize (T2 _ _ Hb). lia.
Qed.

(** A frame is acquired and filled: a pinned page is not in it. *)
Lemma pinned_install s p f g s1 s2 pg q :
  tidy s → page_table_ s !! p = Some f → 0 < pin_count_ (page_at s f) →
  acquire_frame s = Some (g, s1) → q ≠ p →
  pages_ s2 = pages_ s1 → replacer_ s2 = replacer_ s1 →
  page_table_ s2 = <[q := g]> (page_table_ s1) →
  let s3 := touch_pinned (set_page s2 g pg) g in
  page_table_ s3 !! p = Some f ∧ page_id_ (page_at s3 f) = p
  ∧ data_ (page_at s3 f) = data_ (page_at s f)
  ∧ pin_count_ (page_at s3 f) = pin_count_ (page_at s f) + 0.
Proof.
  intros HT Hp Hpin Hacq Hq Hpg2 Hr2 Ht2 s3.
  destruct (pi_bound _ (ti_inv _ HT) _ _ Hp) as (Hrange & Hid & _).
  destruct (tidy_acquire s g s1 HT Hacq)
    as (HI1 & Hloose & Hn & Hpg & _ & _ & Hkeep & Hvictim & _).
  assert (Hgf : f ≠ g).
  { intros <-. specialize (Hvictim p Hp). lia. }
  destruct (installed s1 g s2 pg HI1 Hloose Hpg2 Hr2) as (_ & Hoth & _).
  assert (Hat : page_at s3 f = page_at s f).
  { unfold s3. rewrite Hoth by (done || lia). unfold page_at. by rewrite Hpg. }
  rewrite Hat. split; [|do 2 (split; [done|]); lia].
  change (page_table_ s3) with (page_table_ s2). rewrite Ht2.
  rewrite lookup_insert_ne by done. by apply Hkeep.
Qed.

(** X19.  In a tidy pool ([tidy]: what holds between the calls of a client
    that fetches allocated pages) a resident page that is pinned stays
    where it is through every call: the table binds it to the same frame,
    the frame carries its page id and its buffer is not touched; the pin
    count goes up by one with a [FetchPgImp] of the page, down by one with
    an [UnpinPgImp] of the page, and is not changed by any other call.  No
    eviction, deletion or allocation takes the frame. *)
Theorem pinned_page_stays s p f c s' :
  tidy s → page_table_ s !! p = Some f → 0 < pin_count_ (page_at s f) →
  after s c = Some s' →
  page_table_ s' !! p = Some f
  ∧ page_id_ (page_at s' f) = p
  ∧ data_ (page_at s' f) = data_ (page_at s f)
  ∧ pin_count_ (page_at s' f) = pin_count_ (page_at s f) + pin_change p c.
Proof.
  intros HT Hp Hpin. pose proof HT as [T1 T2 T3 T4].
  destruct (pi_bound _ T1 _ _ Hp) as (Hrange & Hid & _).
  assert (Hsame : page_table_ s !! p = Some f ∧ page_id_ (page_at s f) = p
                  ∧ data_ (page_at s f) = data_ (page_at s f)
                  ∧ pin_count_ (page_at s f) = pin_count_ (page_at s f) + 0)
    by (do 3 (split; [done|]); lia).
  destruct c as [|q|q d|q| |q]; simpl.
  - intros [= <-]. unfold NewPgImp.
    destruct (acquire_frame s) as [[g s1]|] eqn:Hacq; [|done]. simpl.
    destruct (acquire_frame_Some s g s1 Hacq) as (_ & _ & _ & Hnext).
    apply (pinned_install s p f g s1
             (table_Insert (set_next_page_id s1 (next_page_id_ s1 + 1))
                (next_page_id_ s1) g)
             {| data_ := zeroed; page_id_ := next_page_id_ s1; pin_count_ := 1;
                is_dirty_ := false |} (next_page_id_ s1)); try done.
    rewrite Hnext. specialize (T2 p f Hp). lia.
  - destruct (decide (q = INVALID_PAGE_ID)) as [->|Hne].
    { unfold FetchPgImp. by rewrite Z.eqb_refl. }
    destruct (page_table_ s !! q) as [g|] eqn:Hq.
    + destruct (FetchPgImp_hit s q g T1 Hne Hq)
        as (s1 & Hf & Hat & Hoth & _ & _ & _ & _ & Ht & _).
      rewrite Hf. intros [= <-]. rewrite Ht. split; [done|].
      destruct (decide (q = p)) as [->|Hqp].
      * assert (g = f) as -> by congruence. by rewrite Hat.
      * assert (f ≠ g) by (intros <-; by apply Hqp, (tidy_injective s q p f)).
        rewrite Hoth by (done || lia). do 2 (split; [done|]). lia.
    + assert (q ≠ p) as Hqp by congruence. rewrite decide_False by done.
      unfold FetchPgImp, table_Find.
      destruct (Z.eqb_spec q INVALID_PAGE_ID) as [|_]; [done|]. rewrite Hq.
      destruct (acquire_frame s) as [[g s1]|] eqn:Hacq; [|by intros [= <-]].
      simpl. intros [= <-].
      by apply (pinned_install s p f g s1 (ReadPage (table_Insert s1 q g) q).2
                  {| data_ := default zeroed (disk_ s1 !! q); page_id_ := q;
                     pin_count_ := 1; is_dirty_ := false |} q).
  - intros [= <-]. destruct (page_table_ s !! q) as [g|] eqn:Hq.
    2:{ unfold UnpinPgImp, table_Find. rewrite Hq. simpl.
        assert (q ≠ p) by congruence. by rewrite decide_False. }
    destruct (decide (pin_count_ (page_at s g) = 0)) as [Hz|Hnz].
    { unfold UnpinPgImp, table_Find. rewrite Hq, Hz. simpl.
      assert (q ≠ p) by (intros ->; assert (g = f) as -> by congruence; lia).
      by rewrite decide_False. }
    destruct (UnpinPgImp_effect s q g d T1 Hq Hnz) as (s1 & Hu & Ht & _ & _ & _ & Hat & Hoth & _).
    rewrite Hu. simpl. rewrite Ht. split; [done|].
    destruct (decide (q = p)) as [->|Hqp].
    + assert (g = f) as -> by congruence. rewrite Hat. simpl.
      do 2 (split; [done|]). lia.
    + assert (f ≠ g) by (intros <-; by apply Hqp, (tidy_injective s q p f)).
      rewrite Hoth by (done || lia). do 2 (split; [done|]). lia.
  - intros [= <-]. destruct (FlushPgImp_flushed s q) as [_ Ht _ _ _ Hfr _].
    rewrite Ht. destruct (Hfr f) as (-> & -> & ->). do 3 (split; [done|]). lia.
  - intros [= <-].
    destruct (flush_frames_spec s (seq 0 (pool_size_ s))) as ([_ Ht _ _ _ Hfr _] & _).
    unfold FlushAllPgsImp. rewrite Ht. destruct (Hfr f) as (-> & -> & ->).
    do 3 (split; [done|]). lia.
  - destruct (DeletePgImp_cases s q T1)
      as [[Hq ->] | [(g & Hq & Hgpin & ->) | (g & s1 & s2 & Hq & Hz & -> & HF & HI1
                                            & _ & Hpg & _ & Ht & _)]];
      intros [= <-]; [done|done|].
    assert (q ≠ p) as Hqp by (intros ->; assert (g = f) as -> by congruence; lia).
    destruct HF as [_ Ht1 _ _ _ Hfr _].
    rewrite Ht, Ht1, lookup_delete_ne by done. split; [done|].
    assert (page_at s2 f = page_at s1 f) as -> by (unfold page_at; by rewrite Hpg).
    destruct (Hfr f) as (-> & -> & ->). do 2 (split; [done|]). lia.
Qed.

Lemma run_reachable n k cs : ∀ s s',
  reachable n k s → run s cs = Some s' → reachable n k s'.
Proof.
  induction cs as [|c cs IH]; intros s s' Hr; simpl; [by intros [= <-]|].
  destruct (after s c) as [s1|] eqn:Hc; [|done]. simpl.
  apply IH. by apply (reach_call n k s c).
Qed.

(** X20.  An eviction removes the table entry filed under the page id of
    the victim, whatever frame that entry names.  When the free list is
    empty, the victim of the replacer carries a page id that the table
    binds to another frame, and that id is not the one [NewPgImp] is about
    to hand out, then after [NewPgImp] the table has no entry for the page
    although its frame is as it was, pin count included, and
    [UnpinPgImp] of the page answers false.  A client that fetches a page
    id before [NewPgImp] hands it out reaches such a state
    ([early_fetch]). *)
Theorem eviction_unbinds_by_page_id s g r' f d :
  pool_inv s → free_list_ s = [] → Evict (replacer_ s) = (Some g, r') →
  page_table_ s !! page_id_ (page_at s g) = Some f → f ≠ g →
  page_id_ (page_at s g) ≠ next_page_id_ s →
  let s' := (NewPgImp s).2 in
  (NewPgImp s).1 = Some (next_page_id_ s, g)
  ∧ page_table_ s' !! page_id_ (page_at s g) = None
  ∧ page_at s' f = page_at s f
  ∧ UnpinPgImp s' (page_id_ (page_at s g)) d = (false, s').
Proof.
  intros HI Hfree Hev Hb Hfg Hnext.
  destruct (Evict_victim s g r' HI Hev) as (gi & Hgi & _).
  destruct (pi_tracked _ HI g gi Hgi) as [Hg0 Hg1].
  destruct (pi_bound _ HI _ _ Hb) as (Hf & _).
  assert (Hacq : acquire_frame s
                 = Some (g, table_Remove
                              (if is_dirty_ (page_at s g)
                               then WritePage (set_replacer s r') (page_id_ (page_at s g))
                                      (data_ (page_at s g))
                               else set_replacer s r')
                              (page_id_ (page_at s g)))).
  { unfold acquire_frame. by rewrite Hfree, Hev. }
  assert (Ht : page_table_ (NewPgImp s).2 !! page_id_ (page_at s g) = None).
  { unfold NewPgImp. rewrite Hacq. simpl.
    rewrite lookup_insert_ne by (by destruct (is_dirty_ (page_at s g))).
    destruct (is_dirty_ (page_at s g)); simpl; apply lookup_delete_eq. }
  cbv zeta. split; [|split; [done|split]].
  - unfold NewPgImp. rewrite Hacq. simpl. by destruct (is_dirty_ (page_at s g)).
  - unfold NewPgImp. rewrite Hacq. simpl.
    match goal with
    | |- page_at (touch_pinned (set_page ?x g ?pg) g) f = _ =>
        change (page_at (touch_pinned (set_page x g pg) g) f)
          with (page_at (set_page x g pg) f);
        rewrite (page_at_set_page x g pg f)
    end; [|lia|lia|].
    + rewrite decide_False by done. by destruct (is_dirty_ (page_at s g)).
    + destruct (is_dirty_ (page_at s g)); simpl; rewrite (pi_pages _ HI); lia.
  - unfold UnpinPgImp, table_Find. by rewrite Ht.
Qed.

Lemma early_fetch_run : run (new_pool 2 2) early_fetch_calls = Some early_fetch.
Proof. vm_compute. reflexivity. Qed.

Lemma early_fetch_reachable : reachable 2 2 early_fetch.
Proof.
  apply (run_reachable 2 2 early_fetch_calls (new_pool 2 2));
    [apply reach_new|apply early_fetch_run].
Qed.

Lemma early_fetch_inv : pool_inv early_fetch.
Proof. apply (reachable_inv 2 2); [lia|apply early_fetch_reachable]. Qed.

(** *** The replacer of a pool *)

Lemma acquire_count s f s1 :
  acquire_frame s = Some (f, s1) → count_inv (replacer_ s) → count_inv (replacer_ s1).
Proof.
  intros Hacq Hc. destruct (acquire_frame_Some s f s1 Hacq) as (Hhow & _).
  destruct Hhow as [_ Hr _ _ | _ _ Hev _ _]; [by rewrite Hr|].
  pose proof (Evict_count_any (replacer_ s) Hc) as Hc'. by rewrite Hev in Hc'.
Qed.

Lemma touch_count r f : count_inv r → count_inv (SetEvictable (RecordAccess r f) f false).
Proof. intros Hc. by apply SetEvictable_count, RecordAccess_count. Qed.

Lemma after_count s c s' :
  pool_inv s → count_inv (replacer_ s) → after s c = Some s' → count_inv (replacer_ s').
Proof.
  intros HI Hc. destruct c as [|p|p d|p| |p]; simpl.
  - intros [= <-]. unfold NewPgImp.
    destruct (acquire_frame s) as [[f s1]|] eqn:Hacq; [|done]. simpl.
    by apply touch_count, (acquire_count s f s1).
  - unfold FetchPgImp, table_Find. destruct (p =? INVALID_PAGE_ID); [done|].
    destruct (page_table_ s !! p) as [f|].
    + intros [= <-]. simpl. by apply touch_count.
    + destruct (acquire_frame s) as [[f s1]|] eqn:Hacq; [|by intros [= <-]].
      simpl. intros [= <-]. simpl. by apply touch_count, (acquire_count s f s1).
  - intros [= <-]. unfold UnpinPgImp, table_Find.
    destruct (page_table_ s !! p) as [f|]; [|done].
    destruct (pin_count_ (page_at s f) =? 0); [done|]. simpl.
    destruct (pin_count_ _ =? 0); [|done]. simpl. by apply SetEvictable_count.
  - intros [= <-]. by rewrite (fl_replacer _ _ (FlushPgImp_flushed s p)).
  - intros [= <-].
    destruct (flush_frames_spec s (seq 0 (pool_size_ s))) as (F & _).
    unfold FlushAllPgsImp. by rewrite (fl_replacer _ _ F).
  - destruct (DeletePgImp_cases s p HI)
      as [[_ ->] | [(f & _ & _ & ->) | (f & s1 & s2 & _ & _ & -> & HF & _ & _ & _ & _
                                       & _ & _ & _ & Hrm)]];
      intros [= <-]; [done|done|].
    rewrite (fl_replacer _ _ HF) in Hrm. by apply (Remove_count (replacer_ s) f).
Qed.

Lemma reachable_count n k s :
  1 ≤ k → Z.of_nat n < 2 ^ 64 → reachable n k s → count_inv (replacer_ s).
Proof.
  intros Hk Hn Hr. induction Hr as [|s c s' Hr IH Hc].
  - apply new_replacer_count. lia.
  - apply (after_count s c); [|done|done]. by apply (reachable_inv n k).
Qed.

(** X21.  The replacer as the manager drives it: in every state reached
    from a new pool, [Size] of the replacer is the number of records whose
    flag is set, and with the frames of the free list it stays within the
    pool; [NewPgImp], and [FetchPgImp] of a page that is not resident,
    give nothing exactly when the free list is empty and [Size] is zero. *)
Theorem replacer_size_in_pool n k s :
  1 ≤ k → Z.of_nat n < 2 ^ 64 → reachable n k s →
  Size (replacer_ s) = Z.of_nat (evictable_count (frame_infos_ (replacer_ s)))
  ∧ Size (replacer_ s) + Z.of_nat (length (free_list_ s)) ≤ Z.of_nat (pool_size_ s)
  ∧ ((NewPgImp s).1 = None ↔ free_list_ s = [] ∧ Size (replacer_ s) = 0)
  ∧ ∀ p, p ≠ INVALID_PAGE_ID → page_table_ s !! p = None →
      (FetchPgImp s p = Ret None s ↔ free_list_ s = [] ∧ Size (replacer_ s) = 0).
Proof.
  intros Hk Hn Hr. pose proof (reachable_inv n k s Hk Hr) as HI.
  destruct (reachable_count n k s Hk Hn Hr) as [Hc Hs]. unfold Size.
  assert (Hzero : curr_size_ (replacer_ s) = 0
                  ↔ ∀ g gi, frame_infos_ (replacer_ s) !! g = Some gi
                            → evictable_ gi = false).
  { rewrite <- no_evictable_count, Hc. lia. }
  assert (Hacq : acquire_frame s = None
                 ↔ free_list_ s = [] ∧ curr_size_ (replacer_ s) = 0).
  { by rewrite Hzero, (acquire_frame_None_iff s HI). }
  split; [done|]. split; [|split].
  - pose proof (evictable_count_le (frame_infos_ (replacer_ s))).
    pose proof (pi_room _ HI). lia.
  - rewrite <- Hacq. unfold NewPgImp. by destruct (acquire_frame s) as [[f s1]|].
  - intros p Hne Hp. rewrite <- Hacq. unfold FetchPgImp, table_Find.
    destruct (Z.eqb_spec p INVALID_PAGE_ID) as [|_]; [done|]. rewrite Hp.
    by destruct (acquire_frame s) as [[f s1]|].
Qed.

(** *** A page that is written back and fetched again *)



(** *** The properties above at a pool of two frames *)

Lemma one_page_disciplined : disciplined 2 2 one_page.
Proof. by apply (disc_call 2 2 (new_pool 2 2) CallNew); [apply disc_new| |]. Qed.

Lemma one_page_tidy : tidy one_page.
Proof. apply (disciplined_tidy 2 2); [lia|apply one_page_disciplined]. Qed.

Lemma new_page_spec_witness :
  pool_inv one_page
  ∧ ((NewPgImp one_page).1 = None
     ↔ free_list_ one_page = []
       ∧ ∀ g gi, frame_infos_ (replacer_ one_page) !! g = Some gi → evictable_ gi = false)
  ∧ ∀ p f, (NewPgImp one_page).1 = Some (p, f) →
      p = next_page_id_ one_page ∧ next_page_id_ (NewPgImp one_page).2 = p + 1.
Proof.
  split; [exact one_page_inv|].
  destruct (new_page_spec one_page one_page_inv) as (H1 & _ & H3).
  split; [exact H1|]. intros p f Hpf. destruct (H3 p f Hpf) as (E1 & E2 & _).
  split; [exact E1 | exact E2].
Defined.

Lemma fetch_hit_spec_witness :
  pool_inv one_page ∧ 0 ≠ INVALID_PAGE_ID ∧ page_table_ one_page !! 0 = Some 0
  ∧ ∃ s', FetchPgImp one_page 0 = Ret (Some 0) s'
      ∧ pin_count_ (page_at s' 0) = pin_count_ (page_at one_page 0) + 1
      ∧ trace_ s' = trace_ one_page.
Proof.
  assert (H0 : 0 ≠ INVALID_PAGE_ID) by (unfold INVALID_PAGE_ID; lia).
  assert (Hb : page_table_ one_page !! 0 = Some 0) by (vm_compute; reflexivity).
  split; [exact one_page_inv|]. split; [exact H0|]. split; [exact Hb|].
  destruct (fetch_hit_spec one_page 0 0 one_page_inv H0 Hb)
    as (s' & E1 & E2 & _ & _ & _ & _ & _ & _ & E3 & _).
  exists s'. split; [exact E1|]. split; [by rewrite E2 | exact E3].
Defined.

Lemma fetch_miss_spec_witness :
  pool_inv one_page ∧ 5 ≠ INVALID_PAGE_ID ∧ page_table_ one_page !! 5 = None
  ∧ ((FetchPgImp one_page 5 = Ret None one_page ∧ free_list_ one_page = [])
     ∨ ∃ f s', FetchPgImp one_page 5 = Ret (Some f) s'
         ∧ page_table_ s' !! 5 = Some f
         ∧ data_ (page_at s' f) = default zeroed (disk_ s' !! 5)).
Proof.
  assert (H0 : 5 ≠ INVALID_PAGE_ID) by (unfold INVALID_PAGE_ID; lia).
  assert (Hb : page_table_ one_page !! 5 = None) by (vm_compute; reflexivity).
  split; [exact one_page_inv|]. split; [exact H0|]. split; [exact Hb|].
  destruct (fetch_miss_spec one_page 5 one_page_inv H0 Hb)
    as [(E1 & E2 & _) | (f & s' & E1 & _ & _ & E2 & E3 & _)].
  - left. split; [exact E1 | exact E2].
  - right. exists f, s'. split; [exact E1|]. split; [exact E2 | by rewrite E3].
Defined.

Lemma unpin_pin_count_times_witness :
  pool_inv one_page ∧ page_table_ one_page !! 0 = Some 0
  ∧ Z.of_nat (length [true]) = pin_count_ (page_at one_page 0)
  ∧ (unpin_times one_page 0 [true]).1 = replicate (length [true]) true
  ∧ is_evictable (replacer_ (unpin_times one_page 0 [true]).2) 0 = true
  ∧ UnpinPgImp (unpin_times one_page 0 [true]).2 0 false
    = (false, (unpin_times one_page 0 [true]).2).
Proof.
  assert (Hb : page_table_ one_page !! 0 = Some 0) by (vm_compute; reflexivity).
  assert (Hn : Z.of_nat (length [true]) = pin_count_ (page_at one_page 0))
    by (vm_compute; reflexivity).
  split; [exact one_page_inv|]. split; [exact Hb|]. split; [exact Hn|].
  destruct (unpin_pin_count_times one_page 0 0 [true] false one_page_inv Hb Hn)
    as (E1 & _ & _ & E2 & _ & _ & E3).
  split; [exact E1|]. split; [exact E2 | exact E3].
Defined.

Lemma frames_partition_witness :
  1 ≤ 2 ∧ disciplined 2 2 one_page
  ∧ (∀ f, 0 ≤ f < Z.of_nat (pool_size_ one_page) →
       f ∈ free_list_ one_page ∨ ∃ p, page_table_ one_page !! p = Some f)
  ∧ page_table_ one_page !! next_page_id_ one_page = None.
Proof.
  assert (H1 : 1 ≤ 2) by lia.
  split; [exact H1|]. split; [exact one_page_disciplined|].
  destruct (frames_partition 2 2 one_page H1 one_page_disciplined)
    as (E1 & _ & _ & _ & _ & E2).
  split; [exact E1 | exact E2].
Defined.

Lemma pinned_page_stays_witness :
  tidy one_page ∧ page_table_ one_page !! 0 = Some 0
  ∧ 0 < pin_count_ (page_at one_page 0)
  ∧ after one_page CallNew = Some (NewPgImp one_page).2
  ∧ page_table_ (NewPgImp one_page).2 !! 0 = Some 0
  ∧ data_ (page_at (NewPgImp one_page).2 0) = data_ (page_at one_page 0).
Proof.
  assert (Hb : page_table_ one_page !! 0 = Some 0) by (vm_compute; reflexivity).
  assert (Hn : 0 < pin_count_ (page_at one_page 0)) by (vm_compute; reflexivity).
  assert (Ha : after one_page CallNew = Some (NewPgImp one_page).2) by reflexivity.
  split; [exact one_page_tidy|]. split; [exact Hb|]. split; [exact Hn|].
  split; [exact Ha|].
  destruct (pinned_page_stays one_page 0 0 CallNew _ one_page_tidy Hb Hn Ha)
    as (E1 & _ & E2 & _).
  split; [exact E1 | exact E2].
Defined.

Lemma replacer_size_in_pool_witness :
  1 ≤ 2 ∧ Z.of_nat 2 < 2 ^ 64 ∧ reachable 2 2 one_page_unpinned
  ∧ Size (replacer_ one_page_unpinned)
    = Z.of_nat (evictable_count (frame_infos_ (replacer_ one_page_unpinned)))
  ∧ ((NewPgImp one_page_unpinned).1 = None
     ↔ free_list_ one_page_unpinned = [] ∧ Size (replacer_ one_page_unpinned) = 0).
Proof.
  assert (H1 : 1 ≤ 2) by lia.
  assert (H2 : Z.of_nat 2 < 2 ^ 64) by lia.
  split; [exact H1|]. split; [exact H2|]. split; [exact one_page_unpinned_reachable|].
  destruct (replacer_size_in_pool 2 2 one_page_unpinned H1 H2 one_page_unpinned_reachable)
    as (E1 & _ & E2 & _).
  split; [exact E1 | exact E2].
Defined.

Lemma flush_all_spec_witness :
  pool_inv one_page_unpinned ∧ page_table_ one_page_unpinned !! 0 = Some 0
  ∧ trace_ (FlushAllPgsImp one_page_unpinned)
    = trace_ one_page_unpinned ++ flush_writes one_page_unpinned
  ∧ ∃ g, 0 ≤ g < Z.of_nat (pool_size_ one_page_unpinned)
      ∧ page_id_ (page_at one_page_unpinned g) = 0
      ∧ disk_ (FlushAllPgsImp one_page_unpinned) !! 0
        = Some (data_ (page_at one_page_unpinned g)).
Proof.
  assert (HI : pool_inv one_page_unpinned) by (apply UnpinPgImp_inv, one_page_inv).
  assert (Hb : page_table_ one_page_unpinned !! 0 = Some 0) by (vm_compute; reflexivity).
  split; [exact HI|]. split; [exact Hb|].
  destruct (flush_all_spec one_page_unpinned) as (E1 & _ & _ & E2).
  split; [exact E1 | exact (E2 HI 0 0 Hb)].
Defined.

Lemma eviction_unbinds_by_page_id_witness :
  reachable 2 2 early_fetch ∧ pool_inv early_fetch ∧ free_list_ early_fetch = []
  ∧ Evict (replacer_ early_fetch) = (Some 0, (Evict (replacer_ early_fetch)).2)
  ∧ page_table_ early_fetch !! page_id_ (page_at early_fetch 0) = Some 1
  ∧ 1 ≠ 0 ∧ page_id_ (page_at early_fetch 0) ≠ next_page_id_ early_fetch
  ∧ pin_count_ (page_at early_fetch 1) = 1
  ∧ page_table_ (NewPgImp early_fetch).2 !! page_id_ (page_at early_fetch 0) = None
  ∧ page_at (NewPgImp early_fetch).2 1 = page_at early_fetch 1
  ∧ UnpinPgImp (NewPgImp early_fetch).2 (page_id_ (page_at early_fetch 0)) false
    = (false, (NewPgImp early_fetch).2).
Proof.
  assert (H1 : free_list_ early_fetch = []) by (vm_compute; reflexivity).
  assert (H2 : Evict (replacer_ early_fetch) = (Some 0, (Evict (replacer_ early_fetch)).2))
    by (vm_compute; reflexivity).
  assert (H3 : page_table_ early_fetch !! page_id_ (page_at early_fetch 0) = Some 1)
    by (vm_compute; reflexivity).
  assert (H4 : 1 ≠ 0) by lia.
  assert (H5 : page_id_ (page_at early_fetch 0) ≠ next_page_id_ early_fetch)
    by (vm_compute; discriminate).
  split; [exact early_fetch_reachable|]. split; [exact early_fetch_inv|].
  split; [exact H1|]. split; [exact H2|]. split; [exact H3|]. split; [exact H4|].
  split; [exact H5|]. split; [vm_compute; reflexivity|].
  destruct (eviction_unbinds_by_page_id early_fetch 0 _ 1 false early_fetch_inv
              H1 H2 H3 H4 H5) as (_ & E1 & E2 & E3).
  split; [exact E1|]. split; [exact E2 | exact E3].
Defined.


End PoolFacts.
